(** * Google Takeout reorganisation scripts: a shallow embedding

    The repository holds three TypeScript scripts that drive a remote SMB
    share through [samba-client] and [exiftool-vendored]:

    - [moveRemoteContents]     (first mover script, flat move),
    - [mergeDirectoryContents] (second mover script, recursive merge),
    - [processDirectory]       (renamer: sidecar driven renaming).

    JavaScript strings are embedded as [string], read as sequences of
    8-bit code units (Latin-1).  Remote and local collaborators are
    embedded as oracles that answer each call from the history of events
    emitted so far; every call is recorded in that history, so a run of a
    script is a function from histories to an outcome and a longer
    history.  Recursion over directories is bounded by fuel.

    Layout: the embedding ([JS], [Listing], [Eff], [Mover], [Calendar],
    [Renamer], [FirstMover]), the listing contract read line by line
    ([ListingSpec]), a model of the share ([Share]), worked shares
    ([Examples], [Cases]) and the vocabulary of the statements ([Trace],
    [Anchor], [Conserve]); then the properties, script by script. *)

From Stdlib Require Import ZArith Ascii String List Lia Bool.
From stdpp Require Import base tactics option list strings gmap sets pretty.

Local Open Scope string_scope.

(** ** JavaScript string primitives *)

Module JS.

(** [\s] of regular expressions and the white space removed by [trim]. *)
Definition is_ws (c : ascii) : bool :=
  match c with
  | "009" | "010" | "011" | "012" | "013" | " " | "160" => true
  | _ => false
  end%char.

(** [s.startsWith(p)] *)
Fixpoint startsWith (s p : string) {struct p} : bool :=
  match p, s with
  | "", _ => true
  | String b p', String a s' => if Ascii.eqb a b then startsWith s' p' else false
  | String _ _, "" => false
  end.

(** [s.includes(p)] *)
Fixpoint includes (s p : string) : bool :=
  startsWith s p ||
  match s with
  | "" => false
  | String _ s' => includes s' p
  end.

(** [s.endsWith(p)]: some suffix of [s] is [p]. *)
Fixpoint endsWith (s p : string) : bool :=
  String.eqb s p ||
  match s with
  | "" => false
  | String _ s' => endsWith s' p
  end.

Fixpoint trimStart (s : string) : string :=
  match s with
  | "" => ""
  | String a s' => if is_ws a then trimStart s' else s
  end.

Fixpoint trimEnd (s : string) : string :=
  match s with
  | "" => ""
  | String a s' =>
      match trimEnd s' with
      | "" => if is_ws a then "" else String a ""
      | t => String a t
      end
  end.

(** [s.trim()] *)
Definition trim (s : string) : string := trimEnd (trimStart s).

(** [s.split(c)] for a one-character separator. *)
Fixpoint split_on (c : ascii) (s : string) : list string :=
  match s with
  | "" => [""]
  | String a s' =>
      if Ascii.eqb a c then "" :: split_on c s'
      else match split_on c s' with
           | l :: ls => String a l :: ls
           | [] => [String a ""]
           end
  end.

(** [s.split('\n')] *)
Definition split_nl (s : string) : list string := split_on "010" s.

(** [s.split(/\s{2,}/)[0]]: the text before the first run of two or more
    white-space characters (the whole string when there is none). *)
Fixpoint first_token (s : string) : string :=
  match s with
  | "" => ""
  | String a s' =>
      match s' with
      | String b _ => if is_ws a && is_ws b then "" else String a (first_token s')
      | "" => String a ""
      end
  end.


(** [s.split(" D ")[0]] *)
Fixpoint before_marker (m s : string) : string :=
  if startsWith s m then ""
  else match s with
       | "" => ""
       | String a s' => String a (before_marker m s')
       end.

Definition lower_char (c : ascii) : ascii :=
  let n := nat_of_ascii c in
  if (((65 <=? n) && (n <=? 90)) ||
      ((192 <=? n) && (n <=? 222) && negb (n =? 215)))%nat
  then ascii_of_nat (n + 32) else c.

(** [s.toLowerCase()] *)
Fixpoint toLowerCase (s : string) : string :=
  match s with
  | "" => ""
  | String a s' => String (lower_char a) (toLowerCase s')
  end.

(** Canonicalisation of the [i] flag without the [u] flag: only ASCII
    letters fold onto ASCII letters. *)
Definition fold_char (c : ascii) : ascii :=
  let n := nat_of_ascii c in
  if ((65 <=? n) && (n <=? 90))%nat then ascii_of_nat (n + 32) else c.

Fixpoint startsWith_ci (s p : string) {struct p} : bool :=
  match p, s with
  | "", _ => true
  | String b p', String a s' =>
      if Ascii.eqb (fold_char a) (fold_char b) then startsWith_ci s' p' else false
  | String _ _, "" => false
  end.

Fixpoint drop (n : nat) (s : string) : string :=
  match n, s with
  | O, _ => s
  | S n', String _ s' => drop n' s'
  | S _, "" => ""
  end.

(** [s.replace(/p/i, "")] for a literal pattern [p]: the first
    case-insensitive occurrence is removed. *)
Fixpoint remove_first_ci (p s : string) : string :=
  if startsWith_ci s p then drop (String.length p) s
  else match s with
       | "" => ""
       | String a s' => String a (remove_first_ci p s')
       end.

(** [s.replace(/\\/g, "/")] *)
Fixpoint slashes (s : string) : string :=
  match s with
  | "" => ""
  | String a s' =>
      String (if Ascii.eqb a "\"%char then "/"%char else a) (slashes s')
  end.

(** [s.split("/")] *)
Definition split_slash (s : string) : list string := split_on "/" s.

Fixpoint join_slash (l : list string) : string :=
  match l with
  | [] => ""
  | [x] => x
  | x :: l' => x +:+ "/" +:+ join_slash l'
  end.

(** Segment stack of Node's [normalizeString] (POSIX): empty and [.]
    segments vanish, [..] pops a segment or, above the root of a relative
    path, is kept. The stack is held in reverse. *)
Fixpoint normalize_segments (above : bool) (acc : list string)
    (segs : list string) : list string :=
  match segs with
  | [] => List.rev acc
  | seg :: rest =>
      if String.eqb seg "" || String.eqb seg "." then
        normalize_segments above acc rest
      else if String.eqb seg ".." then
        match acc with
        | top :: acc' =>
            if String.eqb top ".."
            then normalize_segments above (".." :: acc) rest
            else normalize_segments above acc' rest
        | [] =>
            normalize_segments above (if above then [".."] else []) rest
        end
      else normalize_segments above (seg :: acc) rest
  end.

(** [path.posix.normalize] *)
Definition normalize (p : string) : string :=
  match p with
  | "" => "."
  | String a _ =>
      let isAbsolute := Ascii.eqb a "/"%char in
      let trailing := endsWith p "/" in
      let body := join_slash (normalize_segments (negb isAbsolute) [] (split_slash p)) in
      match body with
      | "" => if isAbsolute then "/" else if trailing then "./" else "."
      | _ =>
          let body' := if trailing then body +:+ "/" else body in
          if isAbsolute then "/" +:+ body' else body'
      end
  end.

(** [path.join(a, b)] on POSIX: empty arguments are skipped, the rest is
    joined with [/] and normalised. *)
Definition path_join (a b : string) : string :=
  match a, b with
  | "", "" => "."
  | "", _ => normalize b
  | _, "" => normalize a
  | _, _ => normalize (a +:+ "/" +:+ b)
  end.

(** The idiom [path.join(a, b).replace(/\\/g, "/")] of the scripts. *)
Definition remote_join (a b : string) : string := slashes (path_join a b).

(** State of the backwards scan of Node's [path.posix.extname]. *)
Record ext_scan := ExtScan {
  startDot : option nat;
  startPart : nat;
  scanEnd : option nat;
  matchedSlash : bool;
  preDotState : Z;
  stopped : bool
}.

Definition ext_step (st : ext_scan) (i : nat) (c : ascii) : ext_scan :=
  if stopped st then st
  else if Ascii.eqb c "/"%char then
    if negb (matchedSlash st)
    then ExtScan (startDot st) (i + 1) (scanEnd st) (matchedSlash st)
                 (preDotState st) true
    else st
  else
    let st1 :=
      match scanEnd st with
      | None => ExtScan (startDot st) (startPart st) (Some (i + 1)) false
                        (preDotState st) false
      | Some _ => st
      end in
    if Ascii.eqb c "."%char then
      match startDot st1 with
      | None => ExtScan (Some i) (startPart st1) (scanEnd st1)
                        (matchedSlash st1) (preDotState st1) false
      | Some _ =>
          if negb (preDotState st1 =? 1)%Z
          then ExtScan (startDot st1) (startPart st1) (scanEnd st1)
                       (matchedSlash st1) 1 false
          else st1
      end
    else
      match startDot st1 with
      | Some _ => ExtScan (startDot st1) (startPart st1) (scanEnd st1)
                          (matchedSlash st1) (-1) false
      | None => st1
      end.

(** Scans [s] from its last character down to its first. *)
Fixpoint ext_scan_from (i : nat) (s : string) (st : ext_scan) : ext_scan :=
  match s with
  | "" => st
  | String a s' => ext_step (ext_scan_from (S i) s' st) i a
  end.

Fixpoint take (n : nat) (s : string) : string :=
  match n, s with
  | O, _ => ""
  | S n', String a s' => String a (take n' s')
  | S _, "" => ""
  end.

(** [path.extname(p)] *)
Definition extname (p : string) : string :=
  let st := ext_scan_from 0 p (ExtScan None 0 None true 0 false) in
  match startDot st, scanEnd st with
  | Some d, Some e =>
      if (preDotState st =? 0)%Z ||
         ((preDotState st =? 1)%Z && (d =? e - 1)%nat && (d =? startPart st + 1)%nat)
      then ""
      else take (e - d) (drop d p)
  | _, _ => ""
  end.

End JS.

(** ** Remote listing lines *)

Module Listing.
Import JS.

(** The filter shared by [moveRemoteContents], [processDirectory] and
    [reorganizeOnSmb]: non-blank lines that are not the summary line. *)
Definition keep_line (line : string) : bool :=
  let trimmed := trim line in
  negb (String.eqb trimmed "") && negb (includes trimmed "blocks of size").

(** The filter of [mergeDirectoryContents], which also drops every line
    whose trimmed text starts with a dot. *)
Definition keep_line_merge (line : string) : bool :=
  let trimmed := trim line in
  negb (String.eqb trimmed "") && negb (includes trimmed "blocks of size")
  && negb (startsWith trimmed ".").

Definition listing_lines (raw : string) : list string :=
  List.filter keep_line (split_nl raw).

Definition listing_lines_merge (raw : string) : list string :=
  List.filter keep_line_merge (split_nl raw).

(** [line.trim().split(/\s{2,}/)[0]] *)
Definition entryName (line : string) : string := first_token (trim line).

(** [line.includes(" D ")] *)
Definition isDirectory (line : string) : bool := includes line " D ".

Record DirectoryEntry := mkEntry { name : string; is_dir : bool }.

(** Entries walked by the loop of [mergeDirectoryContents]. *)
Definition merge_entries (raw : string) : list DirectoryEntry :=
  List.map (fun line => mkEntry (entryName line) (isDirectory line))
           (listing_lines_merge raw).

Definition is_dot_entry (n : string) : bool :=
  String.eqb n "." || String.eqb n "..".


End Listing.

(** ** The listing contract, line by line *)

Module ListingSpec.
Import JS Listing.




End ListingSpec.

(** ** Effects: events, collaborators, and the monad of the scripts *)

Module Eff.

(** One remote or local call, with its outcome where it has one. *)
Inductive event :=
| EDir (path : string) (result : option string)
| EMkdir (path : string) (ok : bool)
| ERename (src tgt : string) (ok : bool)
| EGetFile (remote local : string) (ok : bool)
| ESendFile (local remote : string) (ok : bool)
| EReadFile (local : string) (result : option string)
| EUnlink (local : string) (ok : bool)
| EExifRead (local : string) (ok : bool)
| EExifWrite (local allDates : string) (ok : bool)
| ELog (msg : string)
| EWarn (msg : string)
| EError (msg : string)
| EExifEnd (ok : bool).

Definition history := list event.

(** Sidecar content after [JSON.parse], when it is not [null]: the two
    optional time records and their optional [timestamp] string. A value
    that is no object reads as a record without either. *)
Record time_record := mkTime { timestamp : option string }.
Record metadata := mkMeta {
  photoTakenTime : option time_record;
  creationTime : option time_record
}.

(** Tags returned by [exiftool.read]. *)
Record tags := mkTags { FileTypeExtension : option string }.

(** The collaborators. Every answer may depend on the calls made so far;
    [None] and [false] stand for a rejected promise or a thrown error. *)
Record world := mkWorld {
  smb_dir : history -> string -> option string;
  smb_mkdir : history -> string -> bool;
  smb_rename : history -> string -> string -> bool;
  smb_getFile : history -> string -> string -> bool;
  smb_sendFile : history -> string -> string -> bool;
  fs_readFile : history -> string -> option string;
  fs_unlink : history -> string -> bool;
  exif_read : history -> string -> option tags;
  exif_write : history -> string -> string -> bool;
  exif_end : history -> bool;
  (** [None]: a syntax error is thrown; [Some None]: the value [null] *)
  JSON_parse : string -> option (option metadata);
  tmpdir : string;
  (** offset of local time from UTC, in milliseconds, at a UTC instant *)
  localOffset : Z -> Z
}.

Inductive outcome (A : Type) :=
| Ok (a : A)
| Throw
| OutOfFuel.
Arguments Ok {A} a.
Arguments Throw {A}.
Arguments OutOfFuel {A}.

(** A computation reads the history and returns the extended history. *)
Definition M (A : Type) : Type := history -> outcome A * history.

Definition ret {A} (a : A) : M A := fun h => (Ok a, h).

Definition bind {A B} (m : M A) (k : A -> M B) : M B :=
  fun h =>
    match m h with
    | (Ok a, h') => k a h'
    | (Throw, h') => (Throw, h')
    | (OutOfFuel, h') => (OutOfFuel, h')
    end.

Definition throw {A} : M A := fun h => (Throw, h).
Definition out_of_fuel {A} : M A := fun h => (OutOfFuel, h).

Definition snoc (h : history) (e : event) : history := (h ++ [e])%list.

Definition emit (e : event) : M unit := fun h => (Ok tt, snoc h e).

(** [try { m } catch { handler }] *)
Definition try_catch {A} (m : M A) (handler : M A) : M A :=
  fun h =>
    match m h with
    | (Throw, h') => handler h'
    | r => r
    end.

(** [try { m } finally { fin }]: [fin] runs however [m] ended, and an
    error thrown by [fin] replaces the outcome of [m]. *)
Definition try_finally {A} (m : M A) (fin : M unit) : M A :=
  fun h =>
    match m h with
    | (r, h') =>
        match fin h' with
        | (Ok _, h'') => (r, h'')
        | (Throw, h'') => (Throw, h'')
        | (OutOfFuel, h'') => (OutOfFuel, h'')
        end
    end.

Fixpoint for_each {A} (l : list A) (body : A -> M unit) : M unit :=
  match l with
  | [] => ret tt
  | x :: l' => bind (body x) (fun _ => for_each l' body)
  end.

Fixpoint for_each_st {A S} (l : list A) (body : A -> S -> M S) (s : S) : M S :=
  match l with
  | [] => ret s
  | x :: l' => bind (body x s) (fun s' => for_each_st l' body s')
  end.

Module Import Notations.
Notation "'let*' x ':=' m 'in' k" := (bind m (fun x => k))
  (at level 10, x name, m at level 100, k at level 200).
Notation "m ';;' k" := (bind m (fun _ => k))
  (at level 100, k at level 200, right associativity).
End Notations.

Section Calls.
Variable w : world.

Definition dir (p : string) : M string := fun h =>
  match smb_dir w h p with
  | Some r => (Ok r, snoc h (EDir p (Some r)))
  | None => (Throw, snoc h (EDir p None))
  end.

Definition call (ok : bool) (e : bool -> event) : M unit := fun h =>
  (if ok then Ok tt else Throw, snoc h (e ok)).

Definition mkdir (p : string) : M unit := fun h =>
  call (smb_mkdir w h p) (EMkdir p) h.
Definition rename (src tgt : string) : M unit := fun h =>
  call (smb_rename w h src tgt) (ERename src tgt) h.
Definition getFile (remote local : string) : M unit := fun h =>
  call (smb_getFile w h remote local) (EGetFile remote local) h.
Definition sendFile (local remote : string) : M unit := fun h =>
  call (smb_sendFile w h local remote) (ESendFile local remote) h.
Definition unlink (local : string) : M unit := fun h =>
  call (fs_unlink w h local) (EUnlink local) h.
Definition exifWrite (local allDates : string) : M unit := fun h =>
  call (exif_write w h local allDates) (EExifWrite local allDates) h.

Definition readFile (local : string) : M string := fun h =>
  match fs_readFile w h local with
  | Some r => (Ok r, snoc h (EReadFile local (Some r)))
  | None => (Throw, snoc h (EReadFile local None))
  end.

Definition exifRead (local : string) : M tags := fun h =>
  match exif_read w h local with
  | Some t => (Ok t, snoc h (EExifRead local true))
  | None => (Throw, snoc h (EExifRead local false))
  end.

Definition exifEnd : M unit := fun h =>
  call (exif_end w h) EExifEnd h.

Definition jsonParse (text : string) : M (option metadata) := fun h =>
  match JSON_parse w text with
  | Some m => (Ok m, h)
  | None => (Throw, h)
  end.
End Calls.

(** The characters that have no literal form inside the messages. *)
Definition quote : string := String (ascii_of_nat 34) "".
Definition nl : string := String (ascii_of_nat 10) "".

Definition log (msg : string) : M unit := emit (ELog msg).
Definition warn (msg : string) : M unit := emit (EWarn msg).
Definition error (msg : string) : M unit := emit (EError msg).

(** [m] only appends events, and each appended event satisfies [P]. *)
Definition emits {A} (P : event -> Prop) (m : M A) : Prop :=
  forall h, exists t, snd (m h) = (h ++ t)%list /\ Forall P t.

(** The uploads that succeeded, as (local file, remote path). *)
Definition uploads (h : history) : list (string * string) :=
  omap (fun e => match e with
                 | ESendFile l r true => Some (l, r)
                 | _ => None
                 end) h.

(** The capture times written, as (local file, value). *)
Definition tag_writes (h : history) : list (string * string) :=
  omap (fun e => match e with
                 | EExifWrite l v true => Some (l, v)
                 | _ => None
                 end) h.

(** [m] never runs out of fuel. *)
Definition total {A} (m : M A) : Prop :=
  forall h, fst (m h) <> OutOfFuel.

(** The remote operations that change the share. *)
Definition mutating (e : event) : bool :=
  match e with
  | EMkdir _ _ | ERename _ _ _ | ESendFile _ _ _ => true
  | _ => false
  end.

End Eff.

(** ** The mover scripts *)

Module Mover.
Import JS Listing Eff Eff.Notations.

Definition SERVER_NAME := "192.168.1.121".
Definition SHARE_NAME := "Data".
(** [merge-google-takeout.ts] *)
Definition REMOTE_SOURCE_PATH := "!Pictures/Google Takeout 2025-05-20".
Definition REMOTE_TARGET_PATH := remote_join REMOTE_SOURCE_PATH "merged".

Section Script.
Variable IS_DRY_RUN : bool.
Variable w : world.

(** The file branch of the loop of [mergeDirectoryContents]. *)
Definition move_file (entryName sourcePath targetPath : string) : M unit :=
  if IS_DRY_RUN then
    log ("  (Dry Run) Would move file: " +:+ sourcePath +:+ " -> " +:+ targetPath)
  else
    try_catch
      (rename w sourcePath targetPath ;;
       log ("  - Moved file: " +:+ entryName))
      (warn ("  - Could not move '" +:+ entryName +:+
             "', it may already exist in the target. Skipping.")).

Fixpoint mergeDirectoryContents (fuel : nat) (sourceDir targetDir : string)
    : M unit :=
  match fuel with
  | O => out_of_fuel
  | S fuel' =>
      try_catch
        (let listPath := remote_join sourceDir "*" in
         let* dirResult := dir w listPath in
         let allEntries := listing_lines_merge dirResult in
         try_catch (mkdir w targetDir) (ret tt) ;;
         for_each allEntries (fun line =>
           let entryName := entryName line in
           let isDirectory := isDirectory line in
           let sourcePath := remote_join sourceDir entryName in
           let targetPath := remote_join targetDir entryName in
           if isDirectory then
             log ("- Merging directory: " +:+ sourcePath +:+ " -> " +:+ targetPath) ;;
             mergeDirectoryContents fuel' sourcePath targetPath
           else move_file entryName sourcePath targetPath))
        (error ("Error processing directory " +:+ sourceDir +:+ ":"))
  end.

(** [moveRemoteContents] of the first mover script. *)
Definition moveRemoteContents (sourceDir targetDir : string) : M unit :=
  try_catch
    (let listPath := remote_join sourceDir "*" in
     let* dirResult := dir w listPath in
     let allEntries := listing_lines dirResult in
     for_each allEntries (fun line =>
       let entryName := entryName line in
       if is_dot_entry entryName then ret tt
       else
         let sourcePath := remote_join sourceDir entryName in
         let targetPath := remote_join targetDir entryName in
         log ("Moving: " +:+ sourcePath +:+ " -> " +:+ targetPath) ;;
         if IS_DRY_RUN then
           log ("  (Dry Run) Would move: " +:+ sourcePath +:+ " -> " +:+ targetPath)
         else
           try_catch (rename w sourcePath targetPath)
                     (error ("Error moving '" +:+ entryName +:+ "':"))))
    (error ("Error reading directory " +:+ sourceDir +:+ ":")).

(** Top-level folders kept by the batch driver. *)
Definition takeoutFolders (allEntries : list string) : list string :=
  List.filter (fun name => startsWith name "Takeout")
    (List.map (fun line => trim (before_marker " D " line))
       (List.filter (fun line => includes line " D ") allEntries)).

(** [reorganizeOnSmb] of [merge-google-takeout.ts]. *)
Definition reorganizeOnSmb (fuel : nat) : M unit :=
  log "Starting reorganization process on SMB share..." ;;
  (if IS_DRY_RUN
   then log "*** Running in DRY RUN mode. No files will be changed. ***"
   else ret tt) ;;
  log ("Source path: //" +:+ SERVER_NAME +:+ "/" +:+ SHARE_NAME +:+ "/" +:+ REMOTE_SOURCE_PATH) ;;
  log ("Target path: //" +:+ SERVER_NAME +:+ "/" +:+ SHARE_NAME +:+ "/" +:+ REMOTE_TARGET_PATH) ;;
  try_catch
    (try_catch
       (mkdir w REMOTE_TARGET_PATH ;;
        log ("Created target directory: " +:+ REMOTE_TARGET_PATH))
       (log ("Target directory " +:+ REMOTE_TARGET_PATH +:+ " may already exist.")) ;;
     let listPath := remote_join REMOTE_SOURCE_PATH "*" in
     let* allEntriesString := dir w listPath in
     let allEntries := listing_lines allEntriesString in
     let folders := takeoutFolders allEntries in
     if (List.length folders =? 0)%nat then
       log ("No " +:+ quote +:+ "Takeout" +:+ quote +:+ " folders found in " +:+
            REMOTE_SOURCE_PATH +:+ ".")
     else
       log ("Found " +:+ pretty (List.length folders) +:+ " " +:+ quote +:+
            "Takeout" +:+ quote +:+ " folder(s).") ;;
       for_each folders (fun folderName =>
         let takeoutPath := path_join REMOTE_SOURCE_PATH folderName in
         let googlePhotosPath := remote_join takeoutPath "Google Photos" in
         try_catch
           (let* _ := dir w googlePhotosPath in
            log (nl +:+ "Processing: " +:+ googlePhotosPath) ;;
            mergeDirectoryContents fuel googlePhotosPath REMOTE_TARGET_PATH)
           (log ("No " +:+ quote +:+ "Google Photos" +:+ quote +:+ " folder in " +:+
                 takeoutPath +:+ ", skipping."))) ;;
       log (nl +:+ "Reorganization process completed successfully!"))
    (error (nl +:+ "An error occurred during the reorganization:")).

End Script.
End Mover.

(** ** Dates: [parseInt], [Date] and the two formatters *)

Module Calendar.
Import JS.
Local Open Scope Z_scope.

Definition digit (c : ascii) : option Z :=
  let n := Z.of_nat (nat_of_ascii c) in
  if (48 <=? n) && (n <=? 57) then Some (n - 48) else None.

(** Value of the longest prefix of decimal digits, [None] when empty. *)
Fixpoint digits_prefix (s : string) (acc : option Z) : option Z :=
  match s with
  | String c s' =>
      match digit c with
      | Some d => digits_prefix s' (Some (10 * default 0 acc + d))
      | None => acc
      end
  | EmptyString => acc
  end.

(** [parseInt(s, 10)]; [None] is [NaN]. Numbers are exact integers here:
    a JavaScript number is exact up to 2^53, and every value beyond that
    is past the range of [Date] once multiplied by 1000. *)
Definition parseInt10 (s : string) : option Z :=
  match trimStart s with
  | String "-" s' => Z.opp <$> digits_prefix s' None
  | String "+" s' => digits_prefix s' None
  | s' => digits_prefix s' None
  end.

Definition maxTime : Z := 8640000000000000.
Definition msPerDay : Z := 86400000.

(** [new Date(v)]: the time value, or [None] for an invalid date. *)
Definition newDate (v : option Z) : option Z :=
  match v with
  | Some t => if Z.abs t <=? maxTime then Some t else None
  | None => None
  end.

(** Proleptic Gregorian date of a day number counted from 1970-01-01:
    (year, month 1..12, day 1..31). *)
Definition civil_from_days (day : Z) : Z * Z * Z :=
  let z := day + 719468 in
  let era := z / 146097 in
  let doe := z - era * 146097 in
  let yoe := (doe - doe / 1460 + doe / 36524 - doe / 146096) / 365 in
  let y := yoe + era * 400 in
  let doy := doe - (365 * yoe + yoe / 4 - yoe / 100) in
  let mp := (5 * doy + 2) / 153 in
  let d := doy - (153 * mp + 2) / 5 + 1 in
  let m := if mp <? 10 then mp + 3 else mp - 9 in
  (if m <=? 2 then y + 1 else y, m, d).

Section Local.
(** offset of local time from UTC in milliseconds *)
Variable localOffset : Z -> Z.

Definition localTime (t : Z) : Z := t + localOffset t.

Definition getFullYear (d : option Z) : option Z :=
  (fun t => fst (fst (civil_from_days (localTime t / msPerDay)))) <$> d.
Definition getMonth (d : option Z) : option Z :=
  (fun t => snd (fst (civil_from_days (localTime t / msPerDay))) - 1) <$> d.
Definition getDate (d : option Z) : option Z :=
  (fun t => snd (civil_from_days (localTime t / msPerDay))) <$> d.
Definition getHours (d : option Z) : option Z :=
  (fun t => (localTime t mod msPerDay) / 3600000) <$> d.
Definition getMinutes (d : option Z) : option Z :=
  (fun t => ((localTime t mod msPerDay) / 60000) mod 60) <$> d.
Definition getSeconds (d : option Z) : option Z :=
  (fun t => ((localTime t mod msPerDay) / 1000) mod 60) <$> d.

(** [String(n)] for an integer or [NaN]. *)
Definition String_of (n : option Z) : string :=
  match n with
  | Some z => pretty z
  | None => "NaN"
  end.

(** [s.padStart(2, "0")] *)
Definition padStart2 (s : string) : string :=
  match s with
  | EmptyString => "00"
  | String a EmptyString => String "0" s
  | _ => s
  end.

Definition plus1 (n : option Z) : option Z := Z.add 1 <$> n.

Definition formatDate (date : option Z) : string :=
  let YYYY := String_of (getFullYear date) in
  let MM := padStart2 (String_of (plus1 (getMonth date))) in
  let DD := padStart2 (String_of (getDate date)) in
  let hh := padStart2 (String_of (getHours date)) in
  let mm := padStart2 (String_of (getMinutes date)) in
  let ss := padStart2 (String_of (getSeconds date)) in
  YYYY +:+ "-" +:+ MM +:+ "-" +:+ DD +:+ "_" +:+ hh +:+ "-" +:+ mm +:+ "-" +:+ ss.

Definition formatExifDate (date : option Z) : string :=
  let YYYY := String_of (getFullYear date) in
  let MM := padStart2 (String_of (plus1 (getMonth date))) in
  let DD := padStart2 (String_of (getDate date)) in
  let hh := padStart2 (String_of (getHours date)) in
  let mm := padStart2 (String_of (getMinutes date)) in
  let ss := padStart2 (String_of (getSeconds date)) in
  YYYY +:+ ":" +:+ MM +:+ ":" +:+ DD +:+ " " +:+ hh +:+ ":" +:+ mm +:+ ":" +:+ ss.

(** [new Date(parseInt(timestamp, 10) * 1000)] *)
Definition takenDate (timestamp : string) : option Z :=
  newDate (Z.mul 1000 <$> parseInt10 timestamp).

(** The reading of the formats: the calendar fields of an instant in
    local time, and their rendering with given separators. *)
Record fields := mkFields {
  f_year : Z; f_month : Z; f_day : Z;
  f_hour : Z; f_minute : Z; f_second : Z
}.

Definition local_fields (t : Z) : fields :=
  let '(y, m, d) := civil_from_days (localTime t / msPerDay) in
  let r := localTime t mod msPerDay in
  mkFields y m d (r / 3600000) ((r / 60000) mod 60) ((r / 1000) mod 60).

Definition digit_char (z : Z) : ascii := ascii_of_nat (48 + Z.to_nat z).

Definition two_digits (z : Z) : string :=
  String (digit_char (z / 10)) (String (digit_char (z mod 10)) "").

Definition stamp (dateSep mid timeSep : string) (f : fields) : string :=
  pretty (f_year f) +:+ dateSep +:+ two_digits (f_month f) +:+ dateSep +:+
  two_digits (f_day f) +:+ mid +:+ two_digits (f_hour f) +:+ timeSep +:+
  two_digits (f_minute f) +:+ timeSep +:+ two_digits (f_second f).

Definition fields_in_range (f : fields) : Prop :=
  1 <= f_month f <= 12 /\ 1 <= f_day f <= 31 /\ 0 <= f_hour f <= 23 /\
  0 <= f_minute f <= 59 /\ 0 <= f_second f <= 59.
End Local.

(** The day number of a calendar date, counted from 1970-01-01: the way
    back from [civil_from_days]. *)
Definition days_from_civil (y m d : Z) : Z :=
  let y' := if m <=? 2 then y - 1 else y in
  let era := y' / 400 in
  let yoe := y' - era * 400 in
  let doy := (153 * (if 2 <? m then m - 3 else m + 9) + 2) / 5 + d - 1 in
  let doe := yoe * 365 + yoe / 4 - yoe / 100 + doy in
  era * 146097 + doe - 719468.

(** The fields read as a date and a time of day are the second [ms / 1000]
    of the local time [ms]. *)
Definition fields_denote (f : fields) (ms : Z) : Prop :=
  days_from_civil (f_year f) (f_month f) (f_day f) * 86400 +
  f_hour f * 3600 + f_minute f * 60 + f_second f = ms / 1000.

(** Month and day as functions of the day of the 400-year era. *)
Definition month_day_of_doe (doe : Z) : Z * Z :=
  let yoe := (doe - doe / 1460 + doe / 36524 - doe / 146096) / 365 in
  let doy := doe - (365 * yoe + yoe / 4 - yoe / 100) in
  let mp := (5 * doy + 2) / 153 in
  let d := doy - (153 * mp + 2) / 5 + 1 in
  let m := if mp <? 10 then mp + 3 else mp - 9 in
  (m, d).

Definition month_day_ok (doe : Z) : bool :=
  let '(m, d) := month_day_of_doe doe in
  (1 <=? m) && (m <=? 12) && (1 <=? d) && (d <=? 31).

Definition pad_ok (z : Z) : bool :=
  String.eqb (padStart2 (String_of (Some z))) (two_digits z).

End Calendar.

(** ** The renamer script *)

Module Renamer.
Import JS Listing Eff Eff.Notations Calendar.

Definition SERVER_NAME := "192.168.1.121".
Definition SHARE_NAME := "Data".
Definition REMOTE_SOURCE_PATH := "!Pictures/Google Takeout 2025-05-20/merged".
Definition REMOTE_PROCESSED_PATH := "!Pictures/Google Takeout 2025-05-20/processed".

(** [new Set(array)] read back in insertion order. *)
Fixpoint uniq (l : list string) : list string :=
  match l with
  | [] => []
  | x :: l' => x :: List.filter (fun y => negb (String.eqb x y)) (uniq l')
  end.

(** Truthiness of an optional string: [undefined] and the empty string
    are falsy. *)
Definition truthy (o : option string) : option string :=
  match o with
  | Some EmptyString => None
  | _ => o
  end.

(** [a || b] on optional strings. *)
Definition or_else (a b : option string) : option string :=
  match truthy a with
  | Some x => Some x
  | None => b
  end.

Definition has (s : gset string) (x : string) : bool := bool_decide (x ∈ s).

(** [originalsToSkip]: the names of the edited entries with the first
    [-edited] removed. *)
Definition originalsToSkip (fileNames : list string) : gset string :=
  list_to_set
    (List.map (remove_first_ci "-edited")
       (List.filter (fun name => includes (toLowerCase name) "-edited") fileNames)).

(** [metadata.photoTakenTime?.timestamp || metadata.creationTime?.timestamp] *)
Definition pick_timestamp (m : metadata) : option string :=
  or_else (photoTakenTime m ≫= timestamp) (creationTime m ≫= timestamp).

(** [(fileTags.FileTypeExtension || path.extname(entryName).substring(1))
     .toLowerCase()] *)
Definition correctExtension (fileTags : tags) (entryName : string) : string :=
  toLowerCase
    (match truthy (FileTypeExtension fileTags) with
     | Some e => e
     | None => drop 1 (extname entryName)
     end).

(** The name tried with suffix [counter]. *)
Definition candidate (finalNewBaseName ext : string) (counter : N) : string :=
  finalNewBaseName +:+ "(" +:+ pretty counter +:+ ")." +:+ ext.

(** The [while] loop that looks for a free name; [counter] is the suffix
    tried next. *)
Fixpoint suffix_loop (fuel : nat) (existing : gset string)
    (finalNewBaseName ext newFileName : string) (counter : N) : option string :=
  if has existing newFileName then
    match fuel with
    | O => None
    | S fuel' =>
        suffix_loop fuel' existing finalNewBaseName ext
          (candidate finalNewBaseName ext counter) (counter + 1)%N
    end
  else Some newFileName.

(** The loop started at [<base>.<ext>] with [counter = 1]; the bound is
    one more than the number of known names. *)
Definition free_name (existing : gset string) (finalNewBaseName ext : string)
    : option string :=
  suffix_loop (S (size existing)) existing finalNewBaseName ext
    (finalNewBaseName +:+ "." +:+ ext) 1%N.

Section Script.
Variable IS_DRY_RUN : bool.
Variable w : world.

(** The first [try]/[catch] of [processDirectory]: the names already
    present in the target. *)
Definition init_target (targetDir : string) : M (gset string) :=
  try_catch
    (let listTargetPath := remote_join targetDir "*" in
     let* targetDirResult := dir w listTargetPath in
     let targetEntries := listing_lines targetDirResult in
     ret (list_to_set (List.map entryName targetEntries)))
    (log ("- Target directory " +:+ targetDir +:+
          " is new or empty. Ensuring it exists.") ;;
     (if negb IS_DRY_RUN
      then try_catch (mkdir w targetDir) (ret tt)
      else ret tt) ;;
     ret ∅).

(** A file without sidecar: copied under its own name. *)
Definition copy_as_is (targetDir entryName sourcePath tempFilePath : string)
    (existing : gset string) : M (gset string) :=
  log ("- No metadata for: " +:+ entryName +:+ ", copying as-is.") ;;
  if has existing entryName then
    log ("- Skipping already existing file: " +:+ entryName) ;;
    ret existing
  else
    let targetPath := remote_join targetDir entryName in
    (if IS_DRY_RUN then
       log ("  (Dry Run) Would copy " +:+ sourcePath +:+ " to " +:+ targetPath)
     else
       sendFile w tempFilePath targetPath ;;
       log ("  Copied to " +:+ targetPath)) ;;
    ret existing.

(** [finalNewBaseName]: the formatted date, with [-edited] for an edited
    entry. *)
Definition finalNewBaseName (entryName timestamp : string) : string :=
  let newBaseName := formatDate (localOffset w) (takenDate timestamp) in
  let isEdited := includes (toLowerCase entryName) "-edited" in
  newBaseName +:+ (if isEdited then "-edited" else "").

(** From [takenDate] on: naming, tagging and upload. *)
Definition rename_and_send (targetDir entryName tempFilePath timestamp : string)
    (existing : gset string) : M (gset string) :=
  let takenDate := takenDate timestamp in
  let* fileTags := exifRead w tempFilePath in
  let correctExtension := correctExtension fileTags entryName in
  let finalNewBaseName := finalNewBaseName entryName timestamp in
  match free_name existing finalNewBaseName correctExtension with
  | None => out_of_fuel
  | Some newFileName =>
      if has existing newFileName then
        log ("- Skipping already processed file: " +:+ newFileName) ;;
        ret existing
      else
        let newTargetPath := remote_join targetDir newFileName in
        log ("- Processing: " +:+ entryName +:+ " -> " +:+ newFileName) ;;
        if IS_DRY_RUN then
          log ("  (Dry Run) Would update EXIF and upload to " +:+ newTargetPath) ;;
          ret existing
        else
          exifWrite w tempFilePath (formatExifDate (localOffset w) takenDate) ;;
          sendFile w tempFilePath newTargetPath ;;
          log ("  Processed and moved to " +:+ newTargetPath) ;;
          ret (existing ∪ {[ newFileName ]})
  end.

(** The body of the [try] block of the loop. *)
Definition process_file (sourceDir targetDir : string) (fileNames : list string)
    (entryName sourcePath tempFilePath : string) (existing : gset string)
    : M (gset string) :=
  getFile w sourcePath tempFilePath ;;
  match truthy (List.find (fun f => startsWith f entryName && endsWith f ".json")
                          fileNames) with
  | None => copy_as_is targetDir entryName sourcePath tempFilePath existing
  | Some jsonFileName =>
      let tempJsonPath := path_join (tmpdir w) jsonFileName in
      getFile w (remote_join sourceDir jsonFileName) tempJsonPath ;;
      let* jsonContent := readFile w tempJsonPath in
      let* parsed := jsonParse w jsonContent in
      unlink w tempJsonPath ;;
      match parsed with
      | None => throw
      | Some metadata =>
          match truthy (pick_timestamp metadata) with
          | None =>
              log ("- No timestamp for " +:+ entryName +:+ ", skipping.") ;;
              ret existing
          | Some timestamp =>
              rename_and_send targetDir entryName tempFilePath timestamp existing
          end
      end
  end.

(** One iteration of the loop of [processDirectory]; [recurse] is the
    recursive call. *)
Definition process_entry (recurse : string -> string -> M unit)
    (sourceDir targetDir : string) (fileNames : list string)
    (skip : gset string) (line : string) (existing : gset string)
    : M (gset string) :=
  let isDirectory := isDirectory line in
  let entryName := entryName line in
  let sourcePath := remote_join sourceDir entryName in
  if isDirectory then
    if is_dot_entry entryName then ret existing
    else
      let newTargetDir := remote_join targetDir entryName in
      recurse sourcePath newTargetDir ;;
      ret existing
  else if endsWith (toLowerCase entryName) ".json" || has skip entryName then
    (if has skip entryName
     then log ("- Skipping original with edited version: " +:+ entryName)
     else log ("- Skipping: " +:+ entryName)) ;;
    ret existing
  else
    let tempFilePath := path_join (tmpdir w) entryName in
    try_finally
      (try_catch
         (process_file sourceDir targetDir fileNames entryName sourcePath
            tempFilePath existing)
         (error ("- Error processing " +:+ entryName +:+ ":") ;;
          ret existing))
      (try_catch (unlink w tempFilePath) (ret tt)).

(** The lines on which the loop neither recurses nor skips: the files
    it stages and processes. *)
Definition processed_line (skip : gset string) (line : string) : bool :=
  negb (isDirectory line) &&
  negb (endsWith (toLowerCase (entryName line)) ".json" ||
        has skip (entryName line)).

(** The lines on which the loop recurses. *)
Definition subdir_line (line : string) : bool :=
  isDirectory line && negb (is_dot_entry (entryName line)).

Fixpoint processDirectory (fuel : nat) (sourceDir targetDir : string) : M unit :=
  match fuel with
  | O => out_of_fuel
  | S fuel' =>
      log (nl +:+ "Processing source: " +:+ sourceDir) ;;
      log ("Writing to target: " +:+ targetDir) ;;
      let* existingTargetFiles := init_target targetDir in
      let listPath := remote_join sourceDir "*" in
      let* dirResult := dir w listPath in
      let allEntries := listing_lines dirResult in
      let fileNames := uniq (List.map entryName allEntries) in
      let skip := originalsToSkip fileNames in
      let* _ := for_each_st allEntries
                  (process_entry (processDirectory fuel') sourceDir targetDir
                     fileNames skip)
                  existingTargetFiles in
      ret tt
  end.

Definition processGoogleTakeout (fuel : nat) : M unit :=
  log "Starting Google Takeout file processing..." ;;
  (if IS_DRY_RUN
   then log "*** Running in DRY RUN mode. No files will be changed. ***"
   else ret tt) ;;
  log ("Source path: //" +:+ SERVER_NAME +:+ "/" +:+ SHARE_NAME +:+ "/" +:+ REMOTE_SOURCE_PATH) ;;
  log ("Target path: //" +:+ SERVER_NAME +:+ "/" +:+ SHARE_NAME +:+ "/" +:+ REMOTE_PROCESSED_PATH) ;;
  try_finally
    (try_catch
       (processDirectory fuel REMOTE_SOURCE_PATH REMOTE_PROCESSED_PATH ;;
        log (nl +:+ "Processing completed successfully!"))
       (error (nl +:+ "An unexpected error occurred:")))
    (exifEnd w ;; log "ExifTool process shut down.").

End Script.
End Renamer.

(** ** The remote share *)

(** Modelled from the spec: the remote share is an external collaborator
    (section 6: list(path), createDirectory(path) with success or
    already-exists, move(src, dst) with success or failure). The share is
    a finite map from paths to kinds; a directory can be listed, a
    directory is created when its path is free and its parent is a
    directory, a file is moved when the destination is free and its
    parent is a directory; nothing is ever overwritten. *)

Module Share.
Import JS Listing Eff.
Local Open Scope list_scope.

Inductive kind := File | Dir.

Global Instance kind_eq_dec : EqDecision kind.
Proof. solve_decision. Defined.

(** The last component of a path and what is before it. *)
Fixpoint unsnoc (p : list string) : option (list string * string) :=
  match p with
  | [] => None
  | n :: p' =>
      match unsnoc p' with
      | None => Some ([], n)
      | Some (d, m) => Some (n :: d, m)
      end
  end.

(** The root is a directory. *)
Definition is_dir (σ : gmap (list string) kind) (p : list string) : bool :=
  bool_decide (p = []) || bool_decide (σ !! p = Some Dir).

Definition mkdir_ok (σ : gmap (list string) kind) (p : list string) : bool :=
  match unsnoc p with
  | Some (d, _) => bool_decide (σ !! p = None) && is_dir σ d
  | None => false
  end.

Definition rename_ok (σ : gmap (list string) kind) (s t : list string) : bool :=
  bool_decide (σ !! s = Some File) && bool_decide (σ !! t = None) &&
  match unsnoc t with
  | Some (d, _) => is_dir σ d
  | None => false
  end.

Definition mkdir_st (σ : gmap (list string) kind) (p : list string)
    : gmap (list string) kind :=
  if mkdir_ok σ p then <[p := Dir]> σ else σ.

Definition rename_st (σ : gmap (list string) kind) (s t : list string)
    : gmap (list string) kind :=
  if rename_ok σ s t then <[t := File]> (delete s σ) else σ.

(** The entries of directory [d]. *)
Definition children (σ : gmap (list string) kind) (d : list string)
    : list (string * kind) :=
  omap (fun '(q, k) =>
          match unsnoc q with
          | Some (d', n) => if bool_decide (d' = d) then Some (n, k) else None
          | None => None
          end) (map_to_list σ).

(** The listing text. *)
Definition render_line (n : string) (k : kind) : string :=
  "  " +:+ n +:+ "                    " +:+
  (match k with Dir => "D" | File => "A" end) +:+
  "        0  Mon Jan  1 00:00:00 2024".

Definition summary : string :=
  "                61440 blocks of size 1048576. 1024 blocks available".

Definition unlines (ls : list string) : string :=
  foldr (fun l rest => l +:+ nl +:+ rest) "" ls.

Definition render_listing (es : list (string * kind)) : string :=
  unlines ([render_line "." Dir; render_line ".." Dir] ++
           List.map (fun e => render_line (fst e) (snd e)) es ++
           [""; summary]).

(** Remote paths are split at slashes. *)
Definition parse (s : string) : list string := split_slash s.

Definition apply_event (σ : gmap (list string) kind) (e : event)
    : gmap (list string) kind :=
  match e with
  | EMkdir p true => <[parse p := Dir]> σ
  | ERename s t true => <[parse t := File]> (delete (parse s) σ)
  | _ => σ
  end.

(** The share after the calls of a history. *)
Definition state_of (σ0 : gmap (list string) kind) (h : history)
    : gmap (list string) kind :=
  foldl apply_event σ0 h.

(** The collaborator that serves the share [σ0]. Only the three remote
    calls of the mover are served. *)
Definition share_world (σ0 : gmap (list string) kind) : world := {|
  smb_dir := fun h q =>
    match unsnoc (parse q) with
    | Some (d, star) =>
        if String.eqb star "*" && is_dir (state_of σ0 h) d
        then Some (render_listing (children (state_of σ0 h) d))
        else None
    | None => None
    end;
  smb_mkdir := fun h p => mkdir_ok (state_of σ0 h) (parse p);
  smb_rename := fun h s t => rename_ok (state_of σ0 h) (parse s) (parse t);
  smb_getFile := fun _ _ _ => false;
  smb_sendFile := fun _ _ _ => false;
  fs_readFile := fun _ _ => None;
  fs_unlink := fun _ _ => false;
  exif_read := fun _ _ => None;
  exif_write := fun _ _ _ => false;
  exif_end := fun _ => false;
  JSON_parse := fun _ => None;
  tmpdir := "/tmp";
  localOffset := fun _ => 0%Z
|}.

(** Names the mover walks: those not starting with a dot. *)
Definition visible (n : string) : bool := negb (startsWith n ".").

Fixpoint has_char (c : ascii) (s : string) : bool :=
  match s with
  | "" => false
  | String a s' => Ascii.eqb a c || has_char c s'
  end.

(** A path component: not empty, without slash or backslash, and neither
    [.] nor [..]. *)
Definition good_comp (n : string) : bool :=
  negb (String.eqb n "") && negb (has_char "/" n) && negb (has_char "\" n) &&
  negb (String.eqb n ".") && negb (String.eqb n "..").

(** A name that survives the listing: its line has no line break, is kept
    exactly when the name is visible, and gives back the name and the
    kind. *)
Definition line_ok (n : string) (k : kind) : bool :=
  negb (has_char "010" (render_line n k)) &&
  Bool.eqb (keep_line_merge (render_line n k)) (visible n) &&
  (negb (visible n) ||
   (String.eqb (entryName (render_line n k)) n &&
    Bool.eqb (isDirectory (render_line n k)) (bool_decide (k = Dir)))).

Definition good_name (n : string) : bool :=
  good_comp n && line_ok n File && line_ok n Dir.

Definition good_path (p : list string) : bool := forallb good_name p.

Definition disjoint_paths (S T : list string) : bool :=
  negb (bool_decide (S `prefix_of` T)) && negb (bool_decide (T `prefix_of` S)).

(** The conditions under which the run is studied: source and target are
    proper paths, neither inside the other, and every name on the share
    is a good name. *)
Definition share_ok (σ : gmap (list string) kind) (S T : list string) : bool :=
  good_path S && good_path T &&
  negb (bool_decide (S = [])) && negb (bool_decide (T = [])) &&
  disjoint_paths S T &&
  forallb (fun e => good_path (fst e)) (map_to_list σ).

Fixpoint fold_steps {A} (step : gmap (list string) kind -> A ->
                                option (gmap (list string) kind))
    (l : list A) (σ : gmap (list string) kind)
    : option (gmap (list string) kind) :=
  match l with
  | [] => Some σ
  | x :: l' =>
      match step σ x with
      | Some σ' => fold_steps step l' σ'
      | None => None
      end
  end.

(** One entry of the loop: a directory is merged by [recurse], a file is
    moved. *)
Definition step (recurse : gmap (list string) kind -> list string ->
                           list string -> option (gmap (list string) kind))
    (S T : list string) (σ : gmap (list string) kind) (e : string * kind)
    : option (gmap (list string) kind) :=
  match snd e with
  | Dir => recurse σ (S ++ [fst e]) (T ++ [fst e])
  | File => Some (rename_st σ (S ++ [fst e]) (T ++ [fst e]))
  end.

(** What [mergeDirectoryContents] does to the share, call by call;
    [None] when the fuel runs out. *)
Fixpoint sem (fuel : nat) (σ : gmap (list string) kind) (S T : list string)
    : option (gmap (list string) kind) :=
  match fuel with
  | O => None
  | Datatypes.S fuel' =>
      if is_dir σ S then
        fold_steps (step (sem fuel') S T)
          (List.filter (fun e => visible (fst e)) (children σ S))
          (mkdir_st σ T)
      else Some σ
  end.

(** Every call the mover would make is refused: the calls of the run,
    followed through [fuel] levels of directories. *)
Fixpoint stuck (fuel : nat) (σ : gmap (list string) kind) (S T : list string)
    : Prop :=
  match fuel with
  | O => False
  | Datatypes.S fuel' =>
      is_dir σ S = true ->
      mkdir_ok σ T = false /\
      forall n k, σ !! (S ++ [n]) = Some k -> visible n = true ->
        match k with
        | File => rename_ok σ (S ++ [n]) (T ++ [n]) = false
        | Dir => stuck fuel' σ (S ++ [n]) (T ++ [n])
        end
  end.

(** The entry [e] of [S] is settled: its move, or every call of its
    merge, is refused. *)
Definition settled (fuel : nat) (σ : gmap (list string) kind)
    (S T : list string) (e : string * kind) : Prop :=
  match snd e with
  | File => rename_ok σ (S ++ [fst e]) (T ++ [fst e]) = false
  | Dir => stuck fuel σ (S ++ [fst e]) (T ++ [fst e])
  end.

(** Neither path is inside the other. *)
Definition disj (S T : list string) : Prop :=
  ~ S `prefix_of` T /\ ~ T `prefix_of` S.

(** The two shares are the same outside [S] and [T]. *)
Definition touched (S T : list string) (σ σ' : gmap (list string) kind) : Prop :=
  forall q, ~ S `prefix_of` q -> ~ T `prefix_of` q -> σ' !! q = σ !! q.

(** The two shares are the same inside [S], inside [T] and at the parent
    of [T]: on all that a merge of [S] into [T] reads. *)
Definition agree (S T : list string) (σ σ' : gmap (list string) kind) : Prop :=
  forall q, S `prefix_of` q \/ T `prefix_of` q \/ (exists n, T = q ++ [n]) ->
            σ !! q = σ' !! q.

(** Every name on the share is a good name. *)
Definition good_share (σ : gmap (list string) kind) : Prop :=
  forall q k, σ !! q = Some k -> Forall (fun n => good_name n = true) q.

(** The outcome of a run, from what it does to the share. *)
Definition outcome_of (o : option (gmap (list string) kind)) : outcome unit :=
  match o with
  | Some _ => Ok tt
  | None => OutOfFuel
  end.

(** The body of the loop of [mergeDirectoryContents] at one line, with
    [fuel] left for the directories below. *)
Definition merge_body (w : world) (fuel : nat) (sourceDir targetDir line : string)
    : M unit :=
  if isDirectory line then
    bind (log ("- Merging directory: " +:+ remote_join sourceDir (entryName line) +:+
               " -> " +:+ remote_join targetDir (entryName line)))
         (fun _ => Mover.mergeDirectoryContents false w fuel
                     (remote_join sourceDir (entryName line))
                     (remote_join targetDir (entryName line)))
  else
    Mover.move_file false w (entryName line)
      (remote_join sourceDir (entryName line))
      (remote_join targetDir (entryName line)).

(** An event that is no call on the share. *)
Definition silent (e : event) : Prop :=
  match e with
  | EMkdir _ _ | ERename _ _ _ => False
  | _ => True
  end.

(** An event that left the share as it was. *)
Definition refused (e : event) : Prop :=
  match e with
  | EMkdir _ ok => ok = false
  | ERename _ _ ok => ok = false
  | _ => True
  end.

(** The result [r] of a computation started at history [h] on the share
    [σ0]: it ends as [o] says, leaves the share as [o] says, and when
    [quiet] holds every call it made was refused. *)
Definition runs_as (σ0 : gmap (list string) kind) (r : outcome unit * history)
    (h : history) (o : option (gmap (list string) kind)) (quiet : Prop) : Prop :=
  exists t,
    r = (outcome_of o, h ++ t) /\
    (forall σ', o = Some σ' -> state_of σ0 (h ++ t) = σ') /\
    (quiet -> Forall refused t).

(** A key of the share is unchanged, or is a file below [S] that went
    away, or is new below [T]. *)
Definition moved (S T : list string) (σ σ' : gmap (list string) kind) : Prop :=
  forall q,
    σ' !! q = σ !! q \/
    ((exists n r, q = S ++ n :: r) /\ σ !! q = Some File /\ σ' !! q = None) \/
    (T `prefix_of` q /\ σ !! q = None /\ σ' !! q <> None).

End Share.

(** ** Worked shares *)

Module Examples.
Import Eff.

(** One line of a listing as [smbclient] prints it. *)
Definition listing_line (name attr : string) : string :=
  "  " +:+ name +:+ "                    " +:+ attr +:+
  "     4096  Fri Jan  1 00:00:00 2021".

Definition summary_line : string :=
  "                61440 blocks of size 1048576. 1024 blocks available".

(** A listing: [.] and [..], then the given files, a blank line and the
    summary. *)
Definition listing_of (files : list string) : string :=
  listing_line "." "D" +:+ nl +:+ listing_line ".." "D" +:+ nl +:+
  foldr (fun f rest => listing_line f "A" +:+ nl +:+ rest) "" files +:+
  nl +:+ summary_line +:+ nl.

(** A share on which [src] holds the given files and [tgt] holds the
    files of [target], or does not exist yet when [target] is [None];
    every transfer succeeds, every sidecar carries [timestamp], and the
    file type read from the bytes is [ext] (or none). Local time is UTC. *)
Definition share_on (target : option (list string)) (files : list string)
    (timestamp : string) (ext : option string) : world := {|
  smb_dir := fun _ p =>
    if String.eqb p "src/*" then Some (listing_of files)
    else if String.eqb p "tgt/*" then listing_of <$> target
    else None;
  smb_mkdir := fun _ _ => true;
  smb_rename := fun _ _ _ => true;
  smb_getFile := fun _ _ _ => true;
  smb_sendFile := fun _ _ _ => true;
  fs_readFile := fun _ _ => Some "{}";
  fs_unlink := fun _ _ => true;
  exif_read := fun _ _ => Some (mkTags ext);
  exif_write := fun _ _ _ => true;
  exif_end := fun _ => true;
  JSON_parse := fun _ =>
    Some (Some (mkMeta (Some (mkTime (Some timestamp))) None));
  tmpdir := "/tmp";
  localOffset := fun _ => 0%Z
|}.

(** The same with no target directory yet. *)
Definition share (files : list string) (timestamp : string)
    (ext : option string) : world :=
  share_on None files timestamp ext.

(** The three files of the end-to-end example, in any listing order. *)
Definition example_orders : list (list string) :=
  permutations ["IMG_0001.jpg"; "IMG_0001.jpg.json"; "IMG_0001-edited.jpg"].

Definition run_renamer (w : world) : history :=
  snd (Renamer.processDirectory false w 2 "src" "tgt" []).

(** A share with one photo and its sidecar, taken at 2021-01-01 00:00:00
    UTC. *)
Definition photo_share : world :=
  share ["a.jpg"; "a.jpg.json"] "1609459200" (Some "jpg").

(** A share with a JPEG that carries the extension of a PNG. *)
Definition mislabeled_share : world :=
  share ["a.png"; "a.png.json"] "1609459200" (Some "JPG").

Definition photo_sidecar : metadata :=
  mkMeta (Some (mkTime (Some "1609459200"))) None.

(** A share with two takeout files, a hidden file and an album in the
    source, and one of the files already in the target. *)
Definition takeout : list string := ["Takeout 1"; "Google Photos"].
Definition merged : list string := ["merged"].
Definition takeout_share : gmap (list string) Share.kind :=
  list_to_map
    [ (["Takeout 1"], Share.Dir);
      (takeout, Share.Dir);
      ((takeout ++ ["a.jpg"])%list, Share.File);
      ((takeout ++ ["b.jpg"])%list, Share.File);
      ((takeout ++ [".hidden"])%list, Share.File);
      ((takeout ++ ["Album 2020"])%list, Share.Dir);
      ((takeout ++ ["Album 2020"; "c.jpg"])%list, Share.File);
      (merged, Share.Dir);
      ((merged ++ ["a.jpg"])%list, Share.File) ].

End Examples.

(** ** The batch driver of the first mover script *)

Module FirstMover.
Import JS Listing Eff Eff.Notations.

Definition SERVER_NAME := "192.168.1.121".
Definition SHARE_NAME := "Data".
Definition REMOTE_SOURCE_PATH := "!Pictures/Google Takeout 2025-05-20(test)".
Definition REMOTE_TARGET_PATH := remote_join REMOTE_SOURCE_PATH "merged".

Section Script.
Variable IS_DRY_RUN : bool.
Variable w : world.

(** The [try] block of the loop over the Takeout folders. *)
Definition move_folder (folderName : string) : M unit :=
  let takeoutPath := path_join REMOTE_SOURCE_PATH folderName in
  let googlePhotosPath := remote_join takeoutPath "Google Photos" in
  try_catch
    (let* _ := dir w googlePhotosPath in
     log ("Processing: " +:+ googlePhotosPath) ;;
     Mover.moveRemoteContents IS_DRY_RUN w googlePhotosPath REMOTE_TARGET_PATH)
    (log ("No " +:+ quote +:+ "Google Photos" +:+ quote +:+ " folder in " +:+
          takeoutPath +:+ ", skipping.")).

(** [reorganizeOnSmb] of the first mover script. *)
Definition reorganizeOnSmb : M unit :=
  log "Starting reorganization process on SMB share..." ;;
  (if IS_DRY_RUN
   then log "*** Running in DRY RUN mode. No files will be changed. ***"
   else ret tt) ;;
  log ("Source path: //" +:+ SERVER_NAME +:+ "/" +:+ SHARE_NAME +:+ "/" +:+ REMOTE_SOURCE_PATH) ;;
  log ("Target path: //" +:+ SERVER_NAME +:+ "/" +:+ SHARE_NAME +:+ "/" +:+ REMOTE_TARGET_PATH) ;;
  try_catch
    (try_catch
       (mkdir w REMOTE_TARGET_PATH ;;
        log ("Created target directory: " +:+ REMOTE_TARGET_PATH))
       (log ("Target directory " +:+ REMOTE_TARGET_PATH +:+ " may already exist.")) ;;
     let listPath := remote_join REMOTE_SOURCE_PATH "*" in
     let* allEntriesString := dir w listPath in
     let allEntries := listing_lines allEntriesString in
     let folders := Mover.takeoutFolders allEntries in
     if (List.length folders =? 0)%nat then
       log ("No " +:+ quote +:+ "Takeout" +:+ quote +:+ " folders found in " +:+
            REMOTE_SOURCE_PATH +:+ ".")
     else
       log ("Found " +:+ pretty (List.length folders) +:+ " " +:+ quote +:+
            "Takeout" +:+ quote +:+ " folder(s).") ;;
       for_each folders move_folder ;;
       log (nl +:+ "Reorganization process completed successfully!"))
    (error (nl +:+ "An error occurred during the reorganization:")).

End Script.
End FirstMover.

(** ** What a run did, read from its history *)

Module Trace.
Import JS Listing Eff.


(** The directory listings requested, in order. *)
Definition listings (h : history) : list string :=
  omap (fun e => match e with
                 | EDir p _ => Some p
                 | _ => None
                 end) h.

(** [m] never ends by an error that escapes it. *)
Definition never_throws {A} (m : M A) : Prop :=
  forall h, fst (m h) <> Throw.


(** The results [m] can complete with all satisfy [Q]. *)
Definition yields {A} (Q : A -> Prop) (m : M A) : Prop :=
  forall h a h', m h = (Ok a, h') -> Q a.


End Trace.

(** ** Calls of a run, judged against the run so far *)

Module Anchor.
Import JS Listing Eff.

(** The events [t] obey [P], each judged against the events of the run
    before it; [pre] are those before the first. *)
Fixpoint all_at (P : history -> event -> Prop) (pre : history)
    (t : list event) : Prop :=
  match t with
  | [] => True
  | e :: t' => P pre e /\ all_at P (snoc pre e) t'
  end.

(** Resumed after the events [pre] of a run, of which [I] holds, [m] only
    appends events, and these obey [P]. *)
Definition emits_at {A} (I : history -> Prop) (P : history -> event -> Prop)
    (m : M A) : Prop :=
  forall h0 pre, I pre ->
    exists t, snd (m (h0 ++ pre)%list) = ((h0 ++ pre) ++ t)%list /\ all_at P pre t.

(** Every event of a run of [m], whatever happened before the run, obeys
    [P] given the events of that run before it. *)
Definition run_obeys {A} (P : history -> event -> Prop) (m : M A) : Prop :=
  forall h, exists t, snd (m h) = (h ++ t)%list /\ all_at P [] t.

(** What is known of a run only grows. *)
Definition stable (I : history -> Prop) : Prop :=
  forall pre t, I pre -> I (pre ++ t)%list.

(** Among the events [hist], the listing of directory [d] succeeded and
    gave the line [line]. *)
Definition listed (hist : history) (d line : string) : Prop :=
  exists raw, In (EDir (remote_join d "*") (Some raw)) hist /\
              In line (split_nl raw).

(** The merge of [s] into [t] has reached the pair of directories [ds]
    and [dt]: it started there, or entered them from a pair it had
    reached, under the name of a directory line of the listing of [ds]
    that the filter keeps. *)
Inductive reached (s t : string) (hist : history) : string -> string -> Prop :=
| reached_top : reached s t hist s t
| reached_sub ds dt line :
    reached s t hist ds dt ->
    listed hist ds line ->
    keep_line_merge line = true ->
    isDirectory line = true ->
    reached s t hist (remote_join ds (entryName line))
                     (remote_join dt (entryName line)).

(** The remote calls of a merge of [s] into [t]: it lists a directory it
    has reached, creates the directory that mirrors it, and moves the
    entry of a file line that the filter keeps, from the directory whose
    listing gave the line to the same name in the mirror directory. *)
Definition merge_call (s t : string) (hist : history) (e : event) : Prop :=
  match e with
  | EDir p _ => exists ds dt, reached s t hist ds dt /\ p = remote_join ds "*"
  | EMkdir p _ => exists ds, reached s t hist ds p
  | ERename a b _ =>
      exists ds dt line,
        reached s t hist ds dt /\ listed hist ds line /\
        keep_line_merge line = true /\ isDirectory line = false /\
        a = remote_join ds (entryName line) /\
        b = remote_join dt (entryName line)
  | ELog _ | EWarn _ | EError _ => True
  | _ => False
  end.

(** No call on a dot entry: a move takes the entry of a line, from the
    directory whose listing gave that line, and a directory listed is the
    source or the entry of such a line; in both cases the trimmed line,
    and hence the name, does not start with a dot. *)
Definition no_dot_call (s : string) (hist : history) (e : event) : Prop :=
  match e with
  | ERename a b _ =>
      exists d d' line,
        listed hist d line /\
        startsWith (trim line) "." = false /\
        startsWith (entryName line) "." = false /\
        a = remote_join d (entryName line) /\
        b = remote_join d' (entryName line)
  | EDir p _ =>
      p = remote_join s "*" \/
      exists d line,
        listed hist d line /\
        startsWith (trim line) "." = false /\
        startsWith (entryName line) "." = false /\
        p = remote_join (remote_join d (entryName line)) "*"
  | _ => True
  end.

(** [folder] is one of the Takeout folders of a listing of [src] obtained
    so far. *)
Definition from_source (src : string) (hist : history) (folder : string)
    : Prop :=
  exists raw, In (EDir (remote_join src "*") (Some raw)) hist /\
              In folder (Mover.takeoutFolders (listing_lines raw)).

(** The photo folder of a Takeout folder, for each of the two movers. *)
Definition flat_photos (folder : string) : string :=
  remote_join (path_join FirstMover.REMOTE_SOURCE_PATH folder) "Google Photos".

Definition photos_of (folder : string) : string :=
  remote_join (path_join Mover.REMOTE_SOURCE_PATH folder) "Google Photos".

(** The calls of a batch of the first mover script: it creates the
    consolidated target, lists the source, probes and lists the photo
    folder of a Takeout folder of that listing, and moves the entry of a
    line of the listing of such a photo folder, other than [.] and [..],
    to the same name directly in the consolidated target. *)
Definition flat_call (hist : history) (e : event) : Prop :=
  match e with
  | ELog _ | EWarn _ | EError _ => True
  | EMkdir p _ => p = FirstMover.REMOTE_TARGET_PATH
  | EDir p _ =>
      p = remote_join FirstMover.REMOTE_SOURCE_PATH "*" \/
      exists folder,
        from_source FirstMover.REMOTE_SOURCE_PATH hist folder /\
        (p = flat_photos folder \/ p = remote_join (flat_photos folder) "*")
  | ERename a b _ =>
      exists folder line,
        from_source FirstMover.REMOTE_SOURCE_PATH hist folder /\
        listed hist (flat_photos folder) line /\
        keep_line line = true /\
        is_dot_entry (entryName line) = false /\
        a = remote_join (flat_photos folder) (entryName line) /\
        b = remote_join FirstMover.REMOTE_TARGET_PATH (entryName line)
  | _ => False
  end.

(** The calls of a batch of the recursive mover: the driver creates the
    consolidated target and lists the source; every other call belongs to
    a Takeout folder of that listing, and either probes the photo folder
    of that folder or is a call of the merge of that photo folder into the
    consolidated target. *)
Definition batch_call (hist : history) (e : event) : Prop :=
  match e with
  | ELog _ | EWarn _ | EError _ => True
  | _ =>
      (exists r, e = EDir (remote_join Mover.REMOTE_SOURCE_PATH "*") r) \/
      (exists ok, e = EMkdir Mover.REMOTE_TARGET_PATH ok) \/
      exists folder,
        from_source Mover.REMOTE_SOURCE_PATH hist folder /\
        ((exists r, e = EDir (photos_of folder) r) \/
         merge_call (photos_of folder) Mover.REMOTE_TARGET_PATH hist e)
  end.

(** The renamer on [s] and [t] has reached the pair of directories [ds]
    and [dt]: it started there, or entered them from a pair it had
    reached, under the name, other than [.] and [..], of a directory line
    of a listing of [ds]. *)
Inductive visited (s t : string) (hist : history) : string -> string -> Prop :=
| visited_top : visited s t hist s t
| visited_sub ds dt line :
    visited s t hist ds dt ->
    listed hist ds line ->
    keep_line line = true ->
    isDirectory line = true ->
    is_dot_entry (entryName line) = false ->
    visited s t hist (remote_join ds (entryName line))
                     (remote_join dt (entryName line)).

(** [line] is a file line of a listing of [d] whose name does not end in
    [.json], in any letter case. *)
Definition media_line (hist : history) (d line : string) : Prop :=
  listed hist d line /\ keep_line line = true /\ isDirectory line = false /\
  endsWith (toLowerCase (entryName line)) ".json" = false.

(** The local copy of the entry of a line. *)
Definition staged (w : world) (line : string) : string :=
  path_join (tmpdir w) (entryName line).

(** The calls of the renamer on [s] and [t].  It lists the directories it
    has reached and their mirrors, and creates only mirrors.  It
    downloads the entry of a line of a listing of a directory it has
    reached, to its local copy.  It reads tags from, tags and uploads
    only the local copy of a file line whose name does not end in
    [.json]; the upload goes to the mirror of the directory listed, under
    the name of the entry or under the new name it has logged for that
    entry.  It moves nothing. *)
Definition renamer_call (w : world) (s t : string) (hist : history) (e : event)
    : Prop :=
  match e with
  | ELog _ | EWarn _ | EError _ => True
  | EDir p _ =>
      exists ds dt, visited s t hist ds dt /\
                    (p = remote_join ds "*" \/ p = remote_join dt "*")
  | EMkdir p _ => exists ds, visited s t hist ds p
  | EGetFile r l _ =>
      exists ds dt line,
        visited s t hist ds dt /\ listed hist ds line /\
        keep_line line = true /\
        r = remote_join ds (entryName line) /\ l = staged w line
  | ESendFile l r _ =>
      exists ds dt line n,
        visited s t hist ds dt /\ media_line hist ds line /\
        l = staged w line /\ r = remote_join dt n /\
        (n = entryName line \/
         In (ELog ("- Processing: " +:+ entryName line +:+ " -> " +:+ n)) hist)
  | EExifRead l _ | EExifWrite l _ _ =>
      exists ds line, media_line hist ds line /\ l = staged w line
  | EReadFile l _ | EUnlink l _ =>
      exists ds line, listed hist ds line /\ keep_line line = true /\
                      l = staged w line
  | ERename _ _ _ | EExifEnd _ => False
  end.

(** What is tagged or uploaded is the local copy of a file line whose
    name does not end in [.json]. *)
Definition no_sidecar_call (w : world) (hist : history) (e : event) : Prop :=
  match e with
  | ESendFile l _ _ | EExifWrite l _ _ | EExifRead l _ =>
      exists d line, media_line hist d line /\ l = staged w line
  | _ => True
  end.

(** An upload of the entry [entry] into [tgt] goes to a name that is not
    among [known]: the name of the entry, or the new name logged for
    it. *)
Definition fresh_call (tgt entry : string) (known : gset string)
    (hist : history) (e : event) : Prop :=
  match e with
  | ESendFile _ r _ =>
      exists n, r = remote_join tgt n /\ (n ∉ known) /\
        (n = entry \/
         In (ELog ("- Processing: " +:+ entry +:+ " -> " +:+ n)) hist)
  | _ => True
  end.

End Anchor.

(** ** What a merge keeps *)

Module Conserve.
Import Share.
Local Open Scope list_scope.

(** Every file of [σ] is still at its place in [σ'], or has left it for
    the same relative path below [T], which was free in [σ]. *)
Definition relocated (S T : list string) (σ σ' : gmap (list string) kind) : Prop :=
  forall q, σ !! q = Some File ->
    σ' !! q = Some File \/
    exists rel, q = S ++ rel /\ σ' !! q = None /\
                σ !! (T ++ rel) = None /\ σ' !! (T ++ rel) = Some File.

(** The mover that starts at [S] reaches [S ++ rel]: every directory on
    the way is a directory, entered under a visible name. *)
Fixpoint walkable (σ : gmap (list string) kind) (S rel : list string) : bool :=
  is_dir σ S &&
  match rel with
  | [] => true
  | m :: rel' => visible m && walkable σ (S ++ [m]) rel'
  end.

(** The fuel covers the tree below [S]: every path of the share at or
    below [S] has fewer than [fuel] names after [S]. *)
Definition covers (fuel : nat) (σ : gmap (list string) kind) (S : list string)
    : bool :=
  (0 <? fuel)%nat &&
  forallb (fun e => negb (bool_decide (S `prefix_of` fst e)) ||
                    (List.length (fst e) <? List.length S + fuel)%nat)
          (map_to_list σ).

(** The two shares differ only at paths made of [S] or [T] followed by
    visible names. *)
Definition only_visible (S T : list string) (σ σ' : gmap (list string) kind)
    : Prop :=
  forall q, σ' !! q <> σ !! q ->
    exists rel, Forall (fun n => visible n = true) rel /\
                (q = S ++ rel \/ q = T ++ rel).

End Conserve.

(** ** More worked shares *)

Module Cases.
Import Eff.


(** The text of a sidecar that carries [ts] as [photoTakenTime.timestamp]. *)
Definition sidecar_text (ts : string) : string :=
  "{" +:+ quote +:+ "photoTakenTime" +:+ quote +:+ ":{" +:+
  quote +:+ "timestamp" +:+ quote +:+ ":" +:+ quote +:+ ts +:+ quote +:+ "}}".

(** A share on which [IMG_1.jpg] has its sidecar [IMG_1.jpg.json], taken
    at 2021-01-01 00:00:00 UTC, and on which the sidecar of another photo,
    [IMG_1.jpg(1).json], taken at 2000-02-29 00:00:00 UTC, is listed
    before it. *)
Definition two_sidecars : world := {|
  smb_dir := smb_dir (Examples.share
                        ["IMG_1.jpg"; "IMG_1.jpg(1).json"; "IMG_1.jpg.json"]
                        "" (Some "jpg"));
  smb_mkdir := fun _ _ => true;
  smb_rename := fun _ _ _ => true;
  smb_getFile := fun _ _ _ => true;
  smb_sendFile := fun _ _ _ => true;
  fs_readFile := fun _ l =>
    if String.eqb l "/tmp/IMG_1.jpg.json" then Some (sidecar_text "1609459200")
    else if String.eqb l "/tmp/IMG_1.jpg(1).json"
         then Some (sidecar_text "951782400")
         else None;
  fs_unlink := fun _ _ => true;
  exif_read := fun _ _ => Some (mkTags (Some "jpg"));
  exif_write := fun _ _ _ => true;
  exif_end := fun _ => true;
  JSON_parse := fun text =>
    if String.eqb text (sidecar_text "1609459200")
    then Some (Some (mkMeta (Some (mkTime (Some "1609459200"))) None))
    else if String.eqb text (sidecar_text "951782400")
         then Some (Some (mkMeta (Some (mkTime (Some "951782400"))) None))
         else None;
  tmpdir := "/tmp";
  localOffset := fun _ => 0%Z
|}.

(** A share of three photos, the second of which has the directory
    marker in its name. *)
Definition marker_share : world :=
  Examples.share ["a.jpg"; "Plan D final.jpg"; "b.jpg"] "1609459200" (Some "jpg").

End Cases.

(** * Properties *)

(** ** The primitives on known values *)

Example trim_known : JS.trim "  a b  " = "a b".
Proof. reflexivity. Qed.

Example first_token_known :
  JS.first_token "My Photo.jpg      A   1234  Mon Jan  1" = "My Photo.jpg".
Proof. reflexivity. Qed.

Example path_join_known : JS.path_join "a/b" "../c//d/" = "a/c/d/".
Proof. reflexivity. Qed.

Example extname_known :
  JS.extname "IMG_0001.JPG" = ".JPG" /\ JS.extname ".bashrc" = "" /\
  JS.extname "a/b.c/d" = "" /\ JS.extname ".." = "" /\
  JS.extname "a.tar.gz" = ".gz".
Proof. by repeat split. Qed.

Example remove_edited_known :
  JS.remove_first_ci "-edited" "IMG_0001-EDITED.jpg" = "IMG_0001.jpg".
Proof. reflexivity. Qed.

Example formatDate_known :
  Calendar.formatDate (fun _ => 0%Z) (Calendar.takenDate "1609459200")
  = "2021-01-01_00-00-00" /\
  Calendar.formatExifDate (fun _ => 3600000%Z) (Calendar.takenDate "1582934399")
  = "2020:02:29 00:59:59" /\
  Calendar.formatDate (fun _ => 0%Z) (Calendar.takenDate "-1")
  = "1969-12-31_23-59-59" /\
  Calendar.formatDate (fun _ => 0%Z) (Calendar.takenDate "soon")
  = "NaN-NaN-NaN_NaN-NaN-NaN".
Proof. by repeat split; vm_compute. Qed.

(** ** Strings *)

Section StringFacts.
Import JS.

Lemma trimStart_head s a t : trimStart s = String a t -> is_ws a = false.
Proof.
  induction s as [|b s IH]; simpl; [discriminate|].
  destruct (is_ws b) eqn:Hb; [exact IH|].
  intros [= -> _]. exact Hb.
Qed.

Lemma trimEnd_head a t :
  is_ws a = false -> exists t', trimEnd (String a t) = String a t'.
Proof.
  intros Ha. simpl. destruct (trimEnd t); [rewrite Ha|]; eauto.
Qed.

Lemma trim_head s a t : trim s = String a t -> is_ws a = false.
Proof.
  unfold trim. destruct (trimStart s) as [|b u] eqn:Hs; [discriminate|].
  pose proof (trimStart_head _ _ _ Hs) as Hb.
  destruct (trimEnd_head b u Hb) as [t' ->]. by intros [= <- _].
Qed.

Lemma first_token_head a t :
  is_ws a = false -> exists t', first_token (String a t) = String a t'.
Proof. intros Ha. simpl. destruct t; [|rewrite Ha]; eauto. Qed.

(** The first token of a trimmed, non-empty line begins with the first
    character of that line. *)
Lemma entry_first_char s a t :
  trim s = String a t -> exists t', first_token (trim s) = String a t'.
Proof.
  intros H. rewrite H. apply first_token_head. eapply trim_head, H.
Qed.


(** What [split(/\s{2,}/)[0]] returns: the text up to the first two
    adjacent white-space characters. *)
Lemma first_token_split s :
  exists rest, s = first_token s +:+ rest /\
    (rest = "" \/ exists a b r, rest = String a (String b r) /\
                              is_ws a = true /\ is_ws b = true).
Proof.
  induction s as [|a s IH]; [exists ""; auto|].
  destruct s as [|b s]; [exists ""; auto|].
  change (first_token (String a (String b s)))
    with (if is_ws a && is_ws b then "" else String a (first_token (String b s))).
  destruct (is_ws a && is_ws b) eqn:Hab.
  - apply andb_true_iff in Hab as [Ha Hb].
    exists (String a (String b s)). split; [done|]. right. eauto 6.
  - destruct IH as (rest & Heq & Hrest). exists rest. split; [|done].
    change (String a (first_token (String b s)) +:+ rest)
      with (String a (first_token (String b s) +:+ rest)).
    by rewrite <- Heq.
Qed.
End StringFacts.

(** ** The listing parsers *)

Section ListingFacts.
Import JS Listing.


Lemma keep_line_merge_iff line :
  keep_line_merge line = true <->
  trim line <> "" /\ includes (trim line) "blocks of size" = false /\
  startsWith (trim line) "." = false.
Proof.
  unfold keep_line_merge. rewrite !andb_true_iff, !negb_true_iff.
  rewrite String.eqb_neq. tauto.
Qed.

Lemma startsWith_dot_name line :
  trim line <> "" ->
  startsWith (entryName line) "." = startsWith (trim line) ".".
Proof.
  intros Hne. unfold entryName.
  destruct (trim line) as [|a t] eqn:Ht; [done|].
  destruct (entry_first_char line a t Ht) as [t' Hft].
  rewrite Ht in Hft. rewrite Hft. simpl. by destruct (Ascii.eqb a ".").
Qed.

Lemma startsWith_dot_entry n :
  is_dot_entry n = true -> startsWith n "." = true.
Proof.
  unfold is_dot_entry. rewrite orb_true_iff, !String.eqb_eq.
  by intros [-> | ->].
Qed.


End ListingFacts.

Section ListingRefines.
Import JS Listing.


End ListingRefines.



Lemma dot_entries_excluded (raw : string) :
  Forall (fun line => JS.startsWith (JS.trim line) "." = false)
         (Listing.listing_lines_merge raw) /\
  Forall (fun e => JS.startsWith (Listing.name e) "." = false)
         (Listing.merge_entries raw).
Proof.
  split; apply List.Forall_forall.
  - intros line [_ Hk]%filter_In.
    by apply keep_line_merge_iff in Hk as (_ & _ & ?).
  - intros e (line & <- & [_ Hk]%filter_In)%in_map_iff. cbn [Listing.name].
    apply keep_line_merge_iff in Hk as (Hne & _ & Hdot).
    by rewrite startsWith_dot_name.
Qed.

(** ** The suffix search of the renamer *)

Section SuffixLoop.
Import Renamer.

Lemma app_cons a s t : String a s +:+ t = String a (s +:+ t).
Proof. reflexivity. Qed.

Lemma app_length s t :
  String.length (s +:+ t) = String.length s + String.length t.
Proof. induction s as [|a s IH]; [done|]. rewrite app_cons. simpl. by rewrite IH. Qed.

Lemma string_app_assoc s t u : (s +:+ t) +:+ u = s +:+ t +:+ u.
Proof. induction s as [|a s IH]; [done|]. rewrite !app_cons. by rewrite IH. Qed.

Lemma app_inv_same_length s1 s2 t1 t2 :
  String.length s1 = String.length s2 -> s1 +:+ t1 = s2 +:+ t2 -> s1 = s2.
Proof.
  revert s2. induction s1 as [|a s1 IH]; intros [|b s2] Hl; try done.
  rewrite !app_cons. intros [= -> H]. f_equal. apply IH; [|done].
  simpl in Hl. lia.
Qed.

Lemma app_inv_tail s1 s2 t : s1 +:+ t = s2 +:+ t -> s1 = s2.
Proof.
  intros H. apply (app_inv_same_length _ _ t t); [|done].
  apply (f_equal String.length) in H. rewrite !app_length in H. lia.
Qed.

Lemma candidate_inj base ext j k :
  candidate base ext j = candidate base ext k -> j = k.
Proof.
  unfold candidate. intros H.
  apply String.app_inj, String.app_inj in H.
  apply app_inv_tail in H. by apply (inj pretty) in H.
Qed.

Lemma suffix_loop_free fuel E base ext cur c n :
  suffix_loop fuel E base ext cur c = Some n -> has E n = false.
Proof.
  revert cur c. induction fuel as [|fuel IH]; intros cur c; simpl;
    destruct (has E cur) eqn:Hc; try congruence; eauto.
Qed.

Lemma suffix_loop_none fuel E base ext cur c :
  suffix_loop fuel E base ext cur c = None ->
  forall k, (c <= k < c + N.of_nat fuel)%N -> candidate base ext k ∈ E.
Proof.
  revert cur c. induction fuel as [|fuel IH]; intros cur c; simpl;
    destruct (has E cur) eqn:Hc; try congruence.
  - intros _ k Hk. lia.
  - intros Hn k Hk. destruct (decide (k = c)) as [->|Hne].
    + destruct fuel; simpl in Hn;
        destruct (has E (candidate base ext c)) eqn:Hcc; try congruence;
        by apply bool_decide_eq_true in Hcc.
    + apply (IH _ _ Hn). lia.
Qed.

(** With more tries than known names the loop finds a name. *)
Lemma suffix_loop_terminates fuel E base ext cur c :
  size E < fuel -> suffix_loop fuel E base ext cur c <> None.
Proof.
  intros Hlt Hn.
  pose proof (suffix_loop_none _ _ _ _ _ _ Hn) as Hall.
  set (ks := (fun i => c + N.of_nat i)%N <$> seq 0 fuel).
  assert (NoDup (candidate base ext <$> ks)) as Hnd.
  { apply NoDup_fmap_2_strong.
    - intros ???? H. by apply candidate_inj in H.
    - apply NoDup_fmap_2; [intros i j ?; lia|apply NoDup_seq]. }
  assert (list_to_set (candidate base ext <$> ks) ⊆ E) as Hsub.
  { intros x (k & -> & (i & -> & Hi%elem_of_seq)%list_elem_of_fmap)%elem_of_list_to_set%list_elem_of_fmap.
    apply Hall. lia. }
  apply subseteq_size in Hsub.
  rewrite size_list_to_set in Hsub by done.
  unfold ks in Hsub. rewrite !length_fmap, length_seq in Hsub. lia.
Qed.

Lemma suffix_loop_mono fuel fuel' E base ext cur c n :
  suffix_loop fuel E base ext cur c = Some n -> fuel <= fuel' ->
  suffix_loop fuel' E base ext cur c = Some n.
Proof.
  revert fuel' cur c. induction fuel as [|fuel IH]; intros fuel' cur c; simpl;
    destruct (has E cur) eqn:Hc; try congruence.
  - intros [= <-] _. destruct fuel'; simpl; by rewrite Hc.
  - intros H Hle. destruct fuel' as [|fuel']; [lia|]. simpl. rewrite Hc.
    apply IH; [done|lia].
  - intros [= <-] _. destruct fuel'; simpl; by rewrite Hc.
Qed.

(** The name found is the first free one in the order
    [cur], [candidate c], [candidate (c+1)], ... *)
Lemma suffix_loop_first fuel E base ext cur c n :
  suffix_loop fuel E base ext cur c = Some n ->
  (n = cur /\ has E cur = false) \/
  (has E cur = true /\ exists k, (c <= k)%N /\ n = candidate base ext k /\
     has E n = false /\
     forall j, (c <= j < k)%N -> has E (candidate base ext j) = true).
Proof.
  revert cur c. induction fuel as [|fuel IH]; intros cur c; simpl;
    destruct (has E cur) eqn:Hc; try congruence; try (intros [= <-]; by left).
  intros H. right. split; [done|].
  destruct (IH _ _ H) as [[-> Hf]|(Hh & k & Hk & -> & Hf & Hall)].
  - exists c. split; [lia|]. split; [done|]. split; [done|]. intros j Hj. lia.
  - exists k. split; [lia|]. split; [done|]. split; [done|].
    intros j Hj. destruct (decide (j = c)) as [->|?]; [done|]. apply Hall. lia.
Qed.
End SuffixLoop.

Lemma free_name_found (existing : gset string) (finalNewBaseName ext : string) :
  exists newFileName,
    Renamer.free_name existing finalNewBaseName ext = Some newFileName /\
    Renamer.has existing newFileName = false /\
    forall fuel, size existing < fuel ->
      Renamer.suffix_loop fuel existing finalNewBaseName ext
        (finalNewBaseName +:+ "." +:+ ext) 1%N = Some newFileName.
Proof.
  unfold Renamer.free_name.
  destruct (Renamer.suffix_loop (S (size existing)) existing finalNewBaseName
              ext (finalNewBaseName +:+ "." +:+ ext) 1%N) as [n|] eqn:Hrun.
  - exists n. split; [done|]. split; [by eapply suffix_loop_free|].
    intros fuel Hlt. eapply suffix_loop_mono; [exact Hrun|lia].
  - exfalso. eapply suffix_loop_terminates; [|exact Hrun]. lia.
Qed.

(** ** Reasoning on the events of a computation *)

Section Emits.
Import Eff.
Context {P : event -> Prop}.

Lemma emits_ret {A} (a : A) : emits P (ret a).
Proof. intros h. exists []. by rewrite app_nil_r. Qed.

Lemma emits_throw {A} : emits P (@throw A).
Proof. intros h. exists []. by rewrite app_nil_r. Qed.

Lemma emits_out_of_fuel {A} : emits P (@out_of_fuel A).
Proof. intros h. exists []. by rewrite app_nil_r. Qed.

Lemma emits_emit e : P e -> emits P (emit e).
Proof. intros He h. exists [e]. split; [done|]. by constructor. Qed.

Lemma emits_bind {A B} (m : M A) (k : A -> M B) :
  emits P m -> (forall a, emits P (k a)) -> emits P (bind m k).
Proof.
  intros Hm Hk h. unfold bind. destruct (Hm h) as (t & Ht & HP).
  destruct (m h) as [[a| |] h']; simpl in Ht; subst h'; eauto.
  destruct (Hk a (h ++ t)%list) as (t' & Ht' & HP').
  exists (t ++ t')%list. rewrite Ht', app_assoc. split; [done|].
  by apply Forall_app.
Qed.

Lemma emits_try_catch {A} (m handler : M A) :
  emits P m -> emits P handler -> emits P (try_catch m handler).
Proof.
  intros Hm Hh h. unfold try_catch. destruct (Hm h) as (t & Ht & HP).
  destruct (m h) as [[a| |] h']; simpl in Ht; subst h'; eauto.
  destruct (Hh (h ++ t)%list) as (t' & Ht' & HP').
  exists (t ++ t')%list. rewrite Ht', app_assoc. split; [done|].
  by apply Forall_app.
Qed.

Lemma emits_try_finally {A} (m : M A) (fin : M unit) :
  emits P m -> emits P fin -> emits P (try_finally m fin).
Proof.
  intros Hm Hf h. unfold try_finally. destruct (Hm h) as (t & Ht & HP).
  destruct (m h) as [r h']; simpl in Ht; subst h'.
  destruct (Hf (h ++ t)%list) as (t' & Ht' & HP').
  destruct (fin (h ++ t)%list) as [[[]| |] h'']; simpl in Ht'; subst h'';
    exists (t ++ t')%list; simpl; rewrite app_assoc; (split; [done|]);
    by apply Forall_app.
Qed.

Lemma emits_for_each {A} (l : list A) (body : A -> M unit) :
  (forall x, In x l -> emits P (body x)) -> emits P (for_each l body).
Proof.
  induction l as [|x l IH]; intros H; simpl; [apply emits_ret|].
  apply emits_bind; [apply H; by left|]. intros _. apply IH.
  intros y Hy. apply H. by right.
Qed.

Lemma emits_for_each_st {A S} (l : list A) (body : A -> S -> M S) s :
  (forall x s', In x l -> emits P (body x s')) ->
  emits P (for_each_st l body s).
Proof.
  revert s. induction l as [|x l IH]; intros s H; simpl; [apply emits_ret|].
  apply emits_bind; [apply H; by left|]. intros s'. apply IH.
  intros y s'' Hy. apply H. by right.
Qed.

Lemma emits_call ok e : P (e ok) -> emits P (call ok e).
Proof.
  intros He h. exists [e ok]. split; [done|]. by constructor.
Qed.

Variable w : world.

Lemma emits_dir p : (forall r, P (EDir p r)) -> emits P (dir w p).
Proof.
  intros He h. unfold dir. destruct (smb_dir w h p); eexists [_];
    (split; [done|]); by constructor.
Qed.

Lemma emits_mkdir p : (forall ok, P (EMkdir p ok)) -> emits P (mkdir w p).
Proof. intros He h. by apply emits_call. Qed.

Lemma emits_rename s t :
  (forall ok, P (ERename s t ok)) -> emits P (rename w s t).
Proof. intros He h. by apply emits_call. Qed.

Lemma emits_getFile r l :
  (forall ok, P (EGetFile r l ok)) -> emits P (getFile w r l).
Proof. intros He h. by apply emits_call. Qed.

Lemma emits_sendFile l r :
  (forall ok, P (ESendFile l r ok)) -> emits P (sendFile w l r).
Proof. intros He h. by apply emits_call. Qed.

Lemma emits_unlink l : (forall ok, P (EUnlink l ok)) -> emits P (unlink w l).
Proof. intros He h. by apply emits_call. Qed.

Lemma emits_exifWrite l v :
  (forall ok, P (EExifWrite l v ok)) -> emits P (exifWrite w l v).
Proof. intros He h. by apply emits_call. Qed.

Lemma emits_readFile l :
  (forall r, P (EReadFile l r)) -> emits P (readFile w l).
Proof.
  intros He h. unfold readFile. destruct (fs_readFile w h l); eexists [_];
    (split; [done|]); by constructor.
Qed.

Lemma emits_exifRead l :
  (forall ok, P (EExifRead l ok)) -> emits P (exifRead w l).
Proof.
  intros He h. unfold exifRead. destruct (exif_read w h l); eexists [_];
    (split; [done|]); by constructor.
Qed.

Lemma emits_exifEnd : (forall ok, P (EExifEnd ok)) -> emits P (exifEnd w).
Proof. intros He h. by apply emits_call. Qed.

Lemma emits_jsonParse text : emits P (jsonParse w text).
Proof.
  intros h. unfold jsonParse. destruct (JSON_parse w text); exists [];
    by rewrite app_nil_r.
Qed.

Lemma emits_log msg : P (ELog msg) -> emits P (log msg).
Proof. apply emits_emit. Qed.
Lemma emits_warn msg : P (EWarn msg) -> emits P (warn msg).
Proof. apply emits_emit. Qed.
Lemma emits_error msg : P (EError msg) -> emits P (error msg).
Proof. apply emits_emit. Qed.
End Emits.

(** One step of a proof that a script only emits events satisfying a
    predicate: follow the structure of the script. *)
Ltac emits_step :=
  first
    [ apply emits_ret | apply emits_out_of_fuel | apply emits_throw
    | apply emits_bind; [|intros ?]
    | apply emits_try_catch
    | apply emits_try_finally
    | apply emits_log | apply emits_warn | apply emits_error
    | apply emits_emit
    | apply emits_dir; intros ?
    | apply emits_mkdir; intros ?
    | apply emits_rename; intros ?
    | apply emits_getFile; intros ?
    | apply emits_sendFile; intros ?
    | apply emits_unlink; intros ?
    | apply emits_exifWrite; intros ?
    | apply emits_readFile; intros ?
    | apply emits_exifRead; intros ?
    | apply emits_exifEnd; intros ?
    | apply emits_jsonParse
    | match goal with
      | |- Eff.emits _ (if ?b then _ else _) => destruct b eqn:?
      | |- Eff.emits _ (match ?x with _ => _ end) => destruct x eqn:?
      end ].

(** ** Dry runs and dot entries *)

Section ScriptEvents.
Import JS Listing Eff.
Variable w : world.

Lemma merge_line_no_dot raw line :
  In line (listing_lines_merge raw) ->
  startsWith (entryName line) "." = false.
Proof.
  intros [_ Hk]%filter_In.
  apply keep_line_merge_iff in Hk as (Hne & _ & Hdot).
  by rewrite startsWith_dot_name.
Qed.

(** Every computation of the scripts only appends to the history. *)
Lemma merge_emits_any dry fuel s t :
  emits (fun _ => True) (Mover.mergeDirectoryContents dry w fuel s t).
Proof.
  revert s t. induction fuel as [|fuel IH]; intros s t; simpl;
    [apply emits_out_of_fuel|].
  repeat emits_step; try done.
  apply emits_for_each. intros line _.
  unfold Mover.move_file. repeat emits_step; done.
Qed.

(** A dry run of the renamer performs no remote operation that changes
    the share. *)
Lemma renamer_dry_run_clean fuel s t :
  emits (fun e => mutating e = false)
        (Renamer.processDirectory true w fuel s t).
Proof.
  revert s t. induction fuel as [|fuel IH]; intros s t; simpl;
    [apply emits_out_of_fuel|].
  unfold Renamer.init_target. repeat emits_step; try done.
  apply emits_for_each_st. intros line ex _.
  unfold Renamer.process_entry, Renamer.process_file, Renamer.copy_as_is,
    Renamer.rename_and_send.
  repeat emits_step; done.
Qed.
End ScriptEvents.

Section Occurs.
Import Eff.

Lemma emits_keeps {A} (m : M A) h e :
  emits (fun _ => True) m -> In e h -> In e (snd (m h)).
Proof.
  intros Hm Hin. destruct (Hm h) as (t & -> & _). apply in_or_app. by left.
Qed.

Lemma occurs_bind_l {A B} (m : M A) (k : A -> M B) h e :
  (forall a, emits (fun _ => True) (k a)) ->
  In e (snd (m h)) -> In e (snd (bind m k h)).
Proof.
  intros Hk Hin. unfold bind. destruct (m h) as [[a| |] h']; try done.
  by apply emits_keeps.
Qed.

Lemma occurs_try_catch_l {A} (m handler : M A) h e :
  emits (fun _ => True) handler ->
  In e (snd (m h)) -> In e (snd (try_catch m handler h)).
Proof.
  intros Hh Hin. unfold try_catch. destruct (m h) as [[a| |] h']; try done.
  by apply emits_keeps.
Qed.

Lemma in_snoc h e : In e (snoc h e).
Proof. apply in_or_app. right. by left. Qed.

Lemma bind_log {B} msg (k : unit -> M B) h :
  bind (log msg) k h = k tt (snoc h (ELog msg)).
Proof. reflexivity. Qed.
End Occurs.

(** C2, evaluated on the batch driver and on the recursive mover with the
    dry-run flag set: whatever the share answers, the driver calls
    [mkdir] on the consolidated target, and the mover calls [mkdir] on its
    target directory as soon as the source can be listed.  The renamer
    emits no such call. *)
Theorem C2_dry_run_still_creates_directories (w : Eff.world) (fuel : nat) :
  (exists ok,
     In (Eff.EMkdir Mover.REMOTE_TARGET_PATH ok)
        (snd (Mover.reorganizeOnSmb true w fuel [])) /\
     Eff.mutating (Eff.EMkdir Mover.REMOTE_TARGET_PATH ok) = true) /\
  (forall s t h,
     Eff.smb_dir w h (JS.remote_join s "*") <> None ->
     exists ok, In (Eff.EMkdir t ok)
                   (snd (Mover.mergeDirectoryContents true w (S fuel) s t h))) /\
  (forall s t, Eff.emits (fun e => Eff.mutating e = false)
                 (Renamer.processDirectory true w fuel s t)).
Proof.
  split; [|split].
  - unfold Mover.reorganizeOnSmb. rewrite !bind_log.
    set (h := Eff.snoc _ _).
    exists (Eff.smb_mkdir w h Mover.REMOTE_TARGET_PATH). split; [|done].
    apply occurs_try_catch_l; [repeat emits_step; done|].
    apply occurs_bind_l.
    { intros _. repeat emits_step; try done.
      apply emits_for_each. intros x _. repeat emits_step; try done.
      apply merge_emits_any. }
    apply occurs_try_catch_l; [repeat emits_step; done|].
    apply occurs_bind_l; [intros _; repeat emits_step; done|].
    unfold Eff.mkdir, Eff.call. cbn [snd]. apply in_snoc.
  - intros s t h Hdir. simpl.
    destruct (Eff.smb_dir w h (JS.remote_join s "*")) as [r|] eqn:Hr; [|done].
    exists (Eff.smb_mkdir w (Eff.snoc h (Eff.EDir (JS.remote_join s "*") (Some r))) t).
    apply occurs_try_catch_l; [repeat emits_step; done|].
    unfold Eff.bind at 1. unfold Eff.dir at 1. rewrite Hr.
    apply occurs_bind_l.
    { intros _. apply emits_for_each. intros x _. unfold Mover.move_file.
      repeat emits_step; try done. apply merge_emits_any. }
    apply occurs_try_catch_l; [repeat emits_step; done|].
    unfold Eff.mkdir, Eff.call. cbn [snd]. apply in_snoc.
  - intros s t. apply renamer_dry_run_clean.
Qed.

(** ** Failure isolation in the renamer *)

Section Total.
Import Eff.

Lemma total_ret {A} (a : A) : total (ret a).
Proof. by intros h. Qed.
Lemma total_throw {A} : total (@throw A).
Proof. by intros h. Qed.
Lemma total_emit e : total (emit e).
Proof. by intros h. Qed.
Lemma total_call ok e : total (call ok e).
Proof. intros h. unfold call. by destruct ok. Qed.

Lemma total_bind {A B} (m : M A) (k : A -> M B) :
  total m -> (forall a, total (k a)) -> total (bind m k).
Proof.
  intros Hm Hk h. unfold bind. specialize (Hm h).
  destruct (m h) as [[a| |] h']; try done. apply Hk.
Qed.

Lemma total_try_catch {A} (m handler : M A) :
  total m -> total handler -> total (try_catch m handler).
Proof.
  intros Hm Hh h. unfold try_catch. specialize (Hm h).
  destruct (m h) as [[a| |] h']; [done|apply Hh|done].
Qed.

Lemma total_try_finally {A} (m : M A) fin :
  total m -> total fin -> total (try_finally m fin).
Proof.
  intros Hm Hf h. unfold try_finally. specialize (Hm h).
  destruct (m h) as [r h']. specialize (Hf h').
  by destruct (fin h') as [[[]| |] h''].
Qed.

Variable w : world.

Lemma total_dir p : total (dir w p).
Proof. intros h. unfold dir. by destruct (smb_dir w h p). Qed.
Lemma total_readFile l : total (readFile w l).
Proof. intros h. unfold readFile. by destruct (fs_readFile w h l). Qed.
Lemma total_exifRead l : total (exifRead w l).
Proof. intros h. unfold exifRead. by destruct (exif_read w h l). Qed.
Lemma total_jsonParse text : total (jsonParse w text).
Proof. intros h. unfold jsonParse. by destruct (JSON_parse w text). Qed.
Lemma total_mkdir p : total (mkdir w p).
Proof. intros h. apply total_call. Qed.
Lemma total_getFile r l : total (getFile w r l).
Proof. intros h. apply total_call. Qed.
Lemma total_sendFile l r : total (sendFile w l r).
Proof. intros h. apply total_call. Qed.
Lemma total_unlink l : total (unlink w l).
Proof. intros h. apply total_call. Qed.
Lemma total_exifWrite l v : total (exifWrite w l v).
Proof. intros h. apply total_call. Qed.
End Total.

Ltac total_step :=
  first
    [ apply total_ret | apply total_throw
    | apply total_bind; [|intros ?]
    | apply total_try_catch
    | apply total_try_finally
    | apply total_emit
    | apply total_call
    | apply total_mkdir | apply total_getFile | apply total_sendFile
    | apply total_unlink | apply total_exifWrite
    | apply total_dir | apply total_readFile | apply total_exifRead
    | apply total_jsonParse
    | match goal with
      | |- Eff.total (if ?b then _ else _) => destruct b eqn:?
      | |- Eff.total (match ?x with _ => _ end) => destruct x eqn:?
      end ].

Section Isolation.
Import JS Listing Eff Renamer.
Variable IS_DRY_RUN : bool.
Variable w : world.

Lemma free_name_some existing base ext :
  free_name existing base ext <> None.
Proof.
  destruct (free_name_found existing base ext) as (n & -> & _). done.
Qed.

Lemma process_file_total src tgt fileNames entry sp tmp existing :
  total (process_file IS_DRY_RUN w src tgt fileNames entry sp tmp existing).
Proof.
  unfold process_file, copy_as_is, rename_and_send, log.
  repeat total_step.
  match goal with
  | H : free_name _ _ _ = None |- _ => by apply free_name_some in H
  end.
Qed.

Lemma process_file_emits_any src tgt fileNames entry sp tmp existing :
  emits (fun _ => True)
    (process_file IS_DRY_RUN w src tgt fileNames entry sp tmp existing).
Proof.
  unfold process_file, copy_as_is, rename_and_send.
  repeat emits_step; done.
Qed.

Lemma unlink_quiet l h :
  try_catch (unlink w l) (ret tt) h = (Ok tt, snoc h (EUnlink l (fs_unlink w h l))).
Proof.
  unfold try_catch, unlink, call, ret. by destruct (fs_unlink w h l).
Qed.

(** One processed file: the iteration completes, its last event removes
    the staging copy, and a failure inside is logged and leaves the
    known names as they were. *)
Lemma process_entry_file recurse src tgt fileNames skip line existing h :
  processed_line skip line = true ->
  let entry := entryName line in
  let tmp := path_join (tmpdir w) entry in
  exists existing' t,
    process_entry IS_DRY_RUN w recurse src tgt fileNames skip line existing h
    = (Ok existing',
       (h ++ t ++ [EUnlink tmp (fs_unlink w (h ++ t) tmp)])%list) /\
    (fst (process_file IS_DRY_RUN w src tgt fileNames entry
            (remote_join src entry) tmp existing h) = Throw ->
     existing' = existing /\
     In (EError ("- Error processing " +:+ entry +:+ ":")) t).
Proof.
  intros Hp entry tmp. unfold processed_line in Hp.
  rewrite andb_true_iff, !negb_true_iff in Hp. destruct Hp as [Hd Hs].
  subst entry tmp. cbv beta zeta delta [process_entry]. rewrite Hd, Hs.
  set (entry := entryName line). set (tmp := path_join (tmpdir w) entry).
  unfold try_finally, try_catch at 1.
  pose proof (process_file_total src tgt fileNames entry
                (remote_join src entry) tmp existing h) as Htot.
  destruct (process_file_emits_any src tgt fileNames entry
              (remote_join src entry) tmp existing h) as (t1 & Ht1 & _).
  destruct (process_file _ _ _ _ _ _ _ _ _ h) as [[e'| |] h1];
    simpl in Ht1, Htot; subst h1; [| |done].
  - exists e', t1. rewrite unlink_quiet. unfold snoc. simpl.
    rewrite <- app_assoc. split; [done|]. discriminate.
  - exists existing, (t1 ++ [EError ("- Error processing " +:+ entry +:+ ":")])%list.
    unfold bind, error, emit, ret. rewrite unlink_quiet. unfold snoc. simpl.
    rewrite <- !app_assoc. simpl. rewrite !app_assoc. split; [done|].
    intros _. split; [done|]. apply in_or_app. right. by left.
Qed.

Lemma process_entry_ok recurse src tgt fileNames skip line existing h :
  subdir_line line = false ->
  exists existing' h',
    process_entry IS_DRY_RUN w recurse src tgt fileNames skip line existing h
    = (Ok existing', h').
Proof.
  intros Hsub. destruct (processed_line skip line) eqn:Hp.
  { destruct (process_entry_file recurse src tgt fileNames skip line
                existing h Hp) as (e' & t & -> & _). eauto. }
  revert Hsub Hp. unfold subdir_line, processed_line, process_entry.
  destruct (isDirectory line); simpl.
  - rewrite negb_false_iff. intros -> _. unfold ret. eauto.
  - intros _. rewrite negb_false_iff. intros ->.
    destruct (has skip (entryName line)); unfold bind, log, emit, ret; eauto.
Qed.

Lemma for_each_st_app {A S} (l1 l2 : list A) (body : A -> S -> M S) s h :
  for_each_st (l1 ++ l2) body s h =
  match for_each_st l1 body s h with
  | (Ok s', h') => for_each_st l2 body s' h'
  | r => r
  end.
Proof.
  revert s h. induction l1 as [|x l1 IH]; intros s h; simpl; [done|].
  unfold bind. by destruct (body x s h) as [[s'| |] h'].
Qed.

Lemma loop_ok recurse src tgt fileNames skip lines existing h :
  forallb (fun line => negb (subdir_line line)) lines = true ->
  exists existing' h',
    for_each_st lines
      (process_entry IS_DRY_RUN w recurse src tgt fileNames skip) existing h
    = (Ok existing', h').
Proof.
  revert existing h. induction lines as [|line lines IH]; intros existing h;
    simpl; [unfold ret; eauto|].
  rewrite andb_true_iff, negb_true_iff. intros [Hl Hrest].
  destruct (process_entry_ok recurse src tgt fileNames skip line existing h Hl)
    as (e' & h' & He).
  unfold bind. rewrite He. by apply IH.
Qed.
End Isolation.

(** Where the batch holds no subdirectory line, each file that is staged
    is processed in its turn whatever happened to the files before it;
    its iteration completes, ends by removing its staging copy, and, when
    its processing raised an error, has logged that error and left the
    known names untouched; the loop then goes on with the remaining
    entries and completes. *)
Lemma file_errors_isolated (IS_DRY_RUN : bool) (w : Eff.world)
    (recurse : string -> string -> Eff.M unit) (src tgt : string)
    (fileNames : list string) (skip : gset string)
    (before : list string) (line : string) (after : list string)
    (existing : gset string) (h : Eff.history) :
  forallb (fun l => negb (Renamer.subdir_line l)) (before ++ line :: after) = true ->
  Renamer.processed_line skip line = true ->
  let body := Renamer.process_entry IS_DRY_RUN w recurse src tgt fileNames skip in
  let entry := Listing.entryName line in
  let tmp := JS.path_join (Eff.tmpdir w) entry in
  exists s1 h1 s2 t,
    let h2 := (h1 ++ t ++ [Eff.EUnlink tmp (Eff.fs_unlink w (h1 ++ t) tmp)])%list in
    Eff.for_each_st before body existing h = (Eff.Ok s1, h1) /\
    body line s1 h1 = (Eff.Ok s2, h2) /\
    (fst (Renamer.process_file IS_DRY_RUN w src tgt fileNames entry
            (JS.remote_join src entry) tmp s1 h1) = Eff.Throw ->
     s2 = s1 /\ In (Eff.EError ("- Error processing " +:+ entry +:+ ":")) t) /\
    Eff.for_each_st (before ++ line :: after) body existing h
    = Eff.for_each_st after body s2 h2 /\
    exists s3 h3, Eff.for_each_st after body s2 h2 = (Eff.Ok s3, h3).
Proof.
  intros Hall Hline body entry tmp.
  rewrite forallb_app in Hall. apply andb_true_iff in Hall as [Hb Ha].
  simpl in Ha. apply andb_true_iff in Ha as [_ Ha].
  destruct (loop_ok IS_DRY_RUN w recurse src tgt fileNames skip before existing h Hb)
    as (s1 & h1 & H1).
  destruct (process_entry_file IS_DRY_RUN w recurse src tgt fileNames skip line
              s1 h1 Hline) as (s2 & t & H2 & Herr).
  subst body entry tmp. cbv zeta in *.
  exists s1, h1, s2, t. split; [done|]. split; [done|].
  split; [done|]. split.
  - rewrite for_each_st_app, H1. simpl. unfold Eff.bind at 1. by rewrite H2.
  - by apply loop_ok.
Qed.

(** ** Calendar fields and the two formats *)

Section CalendarFacts.
Import Calendar.
Local Open Scope Z_scope.

Lemma forall_range (P : Z -> bool) (n : Z) :
  forallb P (seqZ 0 n) = true -> forall z, 0 <= z < n -> P z = true.
Proof.
  intros H z Hz. rewrite forallb_forall in H. apply H.
  apply list_elem_of_In, elem_of_seqZ. lia.
Qed.

Lemma month_day_range doe :
  0 <= doe < 146097 -> month_day_ok doe = true.
Proof.
  intros Hdoe. unfold month_day_ok, month_day_of_doe.
  set (yoe := (doe - doe / 1460 + doe / 36524 - doe / 146096) / 365).
  set (doy := doe - (365 * yoe + yoe / 4 - yoe / 100)).
  assert (0 <= doy <= 365) as Hdoy
    by (subst doy yoe; Z.div_mod_to_equations; lia).
  clearbody doy. clear yoe Hdoe.
  set (mp := (5 * doy + 2) / 153).
  assert (0 <= mp <= 11 /\ 1 <= doy - (153 * mp + 2) / 5 + 1 <= 31) as [Hmp Hd]
    by (subst mp; Z.div_mod_to_equations; lia).
  clearbody mp. rewrite !andb_true_iff, !Z.leb_le.
  destruct (mp <? 10) eqn:Hlt; [apply Z.ltb_lt in Hlt|apply Z.ltb_ge in Hlt]; lia.
Qed.

Lemma pad_two_digits z :
  0 <= z < 100 -> padStart2 (String_of (Some z)) = two_digits z.
Proof.
  intros Hz. apply String.eqb_eq. revert z Hz.
  apply (forall_range pad_ok). vm_compute. reflexivity.
Qed.

Lemma civil_month_day day :
  let z := day + 719468 in
  exists y, civil_from_days day = (y, fst (month_day_of_doe (z mod 146097)),
                                   snd (month_day_of_doe (z mod 146097))).
Proof.
  intros z. unfold civil_from_days, month_day_of_doe. fold z.
  replace (z - z / 146097 * 146097) with (z mod 146097)
    by (rewrite Z.mod_eq by lia; lia).
  eexists. reflexivity.
Qed.

Variable localOffset : Z -> Z.

Lemma local_fields_in_range t : fields_in_range (local_fields localOffset t).
Proof.
  unfold fields_in_range, local_fields.
  destruct (civil_month_day (localTime localOffset t / msPerDay)) as [y ->].
  set (doe := (_ + 719468) mod 146097).
  assert (0 <= doe < 146097) as Hdoe by (apply Z.mod_pos_bound; lia).
  pose proof (month_day_range doe Hdoe) as Hmd. unfold month_day_ok in Hmd.
  destruct (month_day_of_doe doe) as [m d]. simpl.
  set (r := localTime localOffset t mod msPerDay).
  assert (0 <= r < 86400000) as Hr by (apply Z.mod_pos_bound; done).
  assert (0 <= r / 3600000 <= 23).
  { split; [apply Z.div_pos; lia|].
    apply Z.lt_succ_r, Z.div_lt_upper_bound; lia. }
  pose proof (Z.mod_pos_bound (r / 60000) 60).
  pose proof (Z.mod_pos_bound (r / 1000) 60).
  rewrite !andb_true_iff, !Z.leb_le in Hmd. lia.
Qed.

Lemma civil_round_trip z :
  let '(y, m, d) := civil_from_days z in days_from_civil y m d = z.
Proof.
  unfold civil_from_days, days_from_civil.
  set (z' := z + 719468). set (era := z' / 146097).
  set (doe := z' - era * 146097).
  assert (0 <= doe < 146097) by (subst doe era; Z.div_mod_to_equations; lia).
  set (yoe := (doe - doe / 1460 + doe / 36524 - doe / 146096) / 365).
  assert (0 <= yoe <= 399) by (subst yoe; Z.div_mod_to_equations; lia).
  set (doy := doe - (365 * yoe + yoe / 4 - yoe / 100)).
  assert (0 <= doy <= 365) by (subst doy yoe; Z.div_mod_to_equations; lia).
  set (mp := (5 * doy + 2) / 153).
  assert (0 <= mp <= 11) by (subst mp; Z.div_mod_to_equations; lia).
  destruct (mp <? 10) eqn:Hmp; [apply Z.ltb_lt in Hmp|apply Z.ltb_ge in Hmp].
  - replace (mp + 3 <=? 2) with false by (symmetry; apply Z.leb_gt; lia).
    replace (2 <? mp + 3) with true by (symmetry; apply Z.ltb_lt; lia).
    replace (yoe + era * 400) with (era * 400 + yoe) by lia.
    subst mp doy. Z.div_mod_to_equations. lia.
  - destruct (mp - 9 <=? 2) eqn:H9; [|apply Z.leb_gt in H9; lia].
    replace (2 <? mp - 9) with false by (symmetry; apply Z.ltb_ge; lia).
    subst mp doy. Z.div_mod_to_equations. lia.
Qed.

(** The fields of an instant give back its second in local time. *)
Lemma local_fields_denote t :
  fields_denote (local_fields localOffset t) (localTime localOffset t).
Proof.
  unfold fields_denote, local_fields.
  pose proof (civil_round_trip (localTime localOffset t / msPerDay)) as Hrt.
  destruct (civil_from_days (localTime localOffset t / msPerDay)) as [[y m] d].
  cbn [f_year f_month f_day f_hour f_minute f_second]. rewrite Hrt.
  unfold msPerDay. generalize (localTime localOffset t). intros lt.
  Z.div_mod_to_equations. lia.
Qed.

(** Both formatters render the calendar fields of the local time of
    the date: one with [-], [_], [-], the other with [:], a space, [:]. *)
Lemma formats_render_fields t :
  formatDate localOffset (Some t) = stamp "-" "_" "-" (local_fields localOffset t) /\
  formatExifDate localOffset (Some t) = stamp ":" " " ":" (local_fields localOffset t).
Proof.
  pose proof (local_fields_in_range t) as Hr.
  unfold fields_in_range, local_fields in Hr.
  unfold formatDate, formatExifDate, stamp, local_fields,
    getFullYear, getMonth, getDate, getHours, getMinutes, getSeconds, plus1.
  cbn [fmap option_fmap option_map].
  destruct (civil_from_days (localTime localOffset t / msPerDay)) as [[y m] d].
  cbn [f_year f_month f_day f_hour f_minute f_second] in Hr.
  cbn [fmap option_fmap option_map fst snd
       f_year f_month f_day f_hour f_minute f_second].
  replace (1 + (m - 1)) with m by lia.
  rewrite !pad_two_digits by lia. done.
Qed.
End CalendarFacts.

(** ** From the timestamp to the upload *)

Section RenameAndSend.
Import JS Listing Eff Renamer Calendar.
Variable w : world.

Lemma has_false_not_in (E : gset string) x : has E x = false -> x ∉ E.
Proof. unfold has. by intros ?%bool_decide_eq_false. Qed.

(** The run of [rename_and_send] outside a dry run, once the tags of
    the staged file have been read. *)
Lemma rename_and_send_run tgt entry tmp ts existing h fileTags :
  exif_read w h tmp = Some fileTags ->
  exists n,
    free_name existing (finalNewBaseName w entry ts)
              (correctExtension fileTags entry) = Some n /\
    has existing n = false /\
    let exif := formatExifDate (localOffset w) (takenDate ts) in
    let h1 := (h ++ [EExifRead tmp true;
                     ELog ("- Processing: " +:+ entry +:+ " -> " +:+ n)])%list in
    let okw := exif_write w h1 tmp exif in
    let h2 := (h1 ++ [EExifWrite tmp exif okw])%list in
    let oks := smb_sendFile w h2 tmp (remote_join tgt n) in
    let h3 := (h2 ++ [ESendFile tmp (remote_join tgt n) oks])%list in
    rename_and_send false w tgt entry tmp ts existing h =
      if okw then
        if oks then
          (Ok (existing ∪ {[ n ]}),
           (h3 ++ [ELog ("  Processed and moved to " +:+ remote_join tgt n)])%list)
        else (Throw, h3)
      else (Throw, h2).
Proof.
  intros Hread.
  destruct (free_name_found existing (finalNewBaseName w entry ts)
              (correctExtension fileTags entry)) as (n & Hn & Hfree & _).
  exists n. split; [done|]. split; [done|]. cbv zeta.
  unfold rename_and_send, bind at 1, exifRead. rewrite Hread, Hn, Hfree.
  unfold bind, log, emit, exifWrite, sendFile, call, ret, snoc.
  rewrite <- ?app_assoc. simpl.
  destruct (exif_write w _ tmp _); [|done].
  destruct (smb_sendFile w _ tmp _); done.
Qed.

(** The name found ends with a dot and the extension. *)
Lemma free_name_extension existing base ext n :
  free_name existing base ext = Some n ->
  exists sfx, n = base +:+ sfx +:+ "." +:+ ext.
Proof.
  unfold free_name. intros [[-> _]|(_ & k & _ & -> & _)]%suffix_loop_first.
  - by exists "".
  - exists ("(" +:+ pretty k +:+ ")"). unfold candidate.
    by rewrite !string_app_assoc.
Qed.
End RenameAndSend.

Section Timestamp.
Import JS Listing Eff Renamer Calendar.
Local Open Scope Z_scope.

Lemma takenDate_valid ts T :
  parseInt10 ts = Some T -> -8640000000000 <= T <= 8640000000000 ->
  takenDate ts = Some (1000 * T).
Proof.
  intros Hp HT. unfold takenDate, newDate. rewrite Hp. simpl.
  destruct (Z.abs (1000 * T) <=? maxTime) eqn:Hle; [done|].
  apply Z.leb_gt in Hle. unfold maxTime in Hle. lia.
Qed.

Lemma pick_photo_taken m ts :
  photoTakenTime m = Some (mkTime (Some ts)) -> ts <> "" ->
  truthy (pick_timestamp m) = Some ts.
Proof.
  intros Hm Hts. unfold pick_timestamp, or_else. rewrite Hm. simpl.
  by destruct ts.
Qed.
End Timestamp.

Section SidecarLookup.
Import JS Listing Eff Renamer Calendar.
Variable w : world.

Lemma endsWith_nonempty s p : p <> "" -> endsWith s p = true -> s <> "".
Proof. intros Hp H ->. destruct p; [done|]. simpl in H. done. Qed.

(** The run of [process_file] up to the reading of the tags, when a
    sidecar is found and every call on it succeeds. *)
Lemma process_file_sidecar dry src tgt fileNames entry json sp tmp text m
    existing h :
  List.find (fun f => startsWith f entry && endsWith f ".json") fileNames
  = Some json ->
  let tmpJson := path_join (tmpdir w) json in
  let h1 := (h ++ [EGetFile sp tmp true])%list in
  let h2 := (h1 ++ [EGetFile (remote_join src json) tmpJson true])%list in
  let h3 := (h2 ++ [EReadFile tmpJson (Some text)])%list in
  let h4 := (h3 ++ [EUnlink tmpJson true])%list in
  smb_getFile w h sp tmp = true ->
  smb_getFile w h1 (remote_join src json) tmpJson = true ->
  fs_readFile w h2 tmpJson = Some text ->
  JSON_parse w text = Some (Some m) ->
  fs_unlink w h3 tmpJson = true ->
  process_file dry w src tgt fileNames entry sp tmp existing h =
  match truthy (pick_timestamp m) with
  | None => (Ok existing,
             (h4 ++ [ELog ("- No timestamp for " +:+ entry +:+ ", skipping.")])%list)
  | Some ts => rename_and_send dry w tgt entry tmp ts existing h4
  end.
Proof.
  intros Hfind tmpJson h1 h2 h3 h4 Hg1 Hg2 Hr Hp Hu.
  assert (json <> "") as Hne.
  { pose proof (find_some _ _ Hfind) as [_ [_ He]%andb_true_iff].
    by apply (endsWith_nonempty json ".json"). }
  unfold process_file. rewrite Hfind.
  replace (truthy (Some json)) with (Some json) by (by destruct json).
  fold tmpJson.
  unfold bind at 1, getFile at 1, call, snoc. rewrite Hg1. fold h1.
  unfold bind at 1, getFile at 1, call, snoc. rewrite Hg2. fold h2.
  unfold bind at 1, readFile, snoc. rewrite Hr. fold h3.
  unfold bind at 1, jsonParse. rewrite Hp.
  unfold bind at 1, unlink, call, snoc. rewrite Hu. fold h4.
  destruct (truthy (pick_timestamp m)); [done|].
  by rewrite bind_log.
Qed.
End SidecarLookup.

(** C5, as the code has it: the sidecar of an entry is the first listed
    name that starts with the name of the entry and ends in [.json],
    whichever file that is.  When it is fetched, read and parsed, and its
    [photoTakenTime.timestamp] reads as the epoch value [T] (within the
    range of dates), the calendar fields of [T] in local time denote the
    second [T] shifted to local time; the new name begins with these
    fields rendered as YYYY-MM-DD_hh-mm-ss, and the capture time written
    is the same fields rendered as YYYY:MM:DD HH:MM:SS; the upload under
    that name follows when the write succeeds.  Where this goes wrong:
    [IMG_1.jpg], whose sidecar [IMG_1.jpg.json] carries 2021-01-01, is
    named and tagged from [IMG_1.jpg(1).json], listed before it, which
    carries 2000-02-29. *)
Theorem C5_name_from_first_matching_sidecar :
  (forall (w : Eff.world) (src tgt : string) (fileNames : list string)
      (entry json sp tmp text ts : string) (existing : gset string)
      (h : Eff.history) (fileTags : Eff.tags) (m : Eff.metadata) (T : Z),
     List.find (fun f => JS.startsWith f entry && JS.endsWith f ".json") fileNames
     = Some json ->
     let tmpJson := JS.path_join (Eff.tmpdir w) json in
     let h1 := (h ++ [Eff.EGetFile sp tmp true])%list in
     let h2 := (h1 ++ [Eff.EGetFile (JS.remote_join src json) tmpJson true])%list in
     let h3 := (h2 ++ [Eff.EReadFile tmpJson (Some text)])%list in
     let h4 := (h3 ++ [Eff.EUnlink tmpJson true])%list in
     Eff.smb_getFile w h sp tmp = true ->
     Eff.smb_getFile w h1 (JS.remote_join src json) tmpJson = true ->
     Eff.fs_readFile w h2 tmpJson = Some text ->
     Eff.JSON_parse w text = Some (Some m) ->
     Eff.fs_unlink w h3 tmpJson = true ->
     Eff.photoTakenTime m = Some (Eff.mkTime (Some ts)) ->
     ts <> "" ->
     Calendar.parseInt10 ts = Some T ->
     (-8640000000000 <= T <= 8640000000000)%Z ->
     Eff.exif_read w h4 tmp = Some fileTags ->
     let f := Calendar.local_fields (Eff.localOffset w) (1000 * T) in
     let base := Calendar.stamp "-" "_" "-" f in
     let exif := Calendar.stamp ":" " " ":" f in
     Calendar.fields_in_range f /\
     Calendar.fields_denote f (Calendar.localTime (Eff.localOffset w) (1000 * T)) /\
     exists sfx okw rest,
       snd (Renamer.process_file false w src tgt fileNames entry sp tmp existing h) =
         (h4 ++ [Eff.EExifRead tmp true;
                 Eff.ELog ("- Processing: " +:+ entry +:+ " -> " +:+ base +:+ sfx);
                 Eff.EExifWrite tmp exif okw] ++ rest)%list /\
       (okw = true ->
        exists oks rest',
          rest = Eff.ESendFile tmp (JS.remote_join tgt (base +:+ sfx)) oks :: rest')) /\
  (let run := Examples.run_renamer Cases.two_sidecars in
   Eff.uploads run = [("/tmp/IMG_1.jpg", "tgt/2000-02-29_00-00-00.jpg")] /\
   Eff.tag_writes run = [("/tmp/IMG_1.jpg", "2000:02:29 00:00:00")]).
Proof.
  split; [|vm_compute; done].
  intros w src tgt fileNames entry json sp tmp text ts existing h fileTags m T
    Hfind tmpJson h1 h2 h3 h4 Hg1 Hg2 Hr Hp Hu Hm Hts HpT HT Hread f base exif.
  pose proof (takenDate_valid ts T HpT HT) as Hdate.
  destruct (formats_render_fields (Eff.localOffset w) (1000 * T)) as [Hfd Hfe].
  fold f in Hfd, Hfe.
  split; [apply local_fields_in_range|].
  split; [apply local_fields_denote|].
  rewrite (process_file_sidecar w false src tgt fileNames entry json sp tmp text m
             existing h Hfind Hg1 Hg2 Hr Hp Hu).
  rewrite (pick_photo_taken m ts Hm Hts). fold tmpJson h1 h2 h3 h4.
  destruct (rename_and_send_run w tgt entry tmp ts existing h4 fileTags Hread)
    as (n & Hn & _ & Hrun).
  apply free_name_extension in Hn as [sfx Hn].
  unfold Renamer.finalNewBaseName in Hn. rewrite Hdate, Hfd in Hn.
  fold base in Hn. rewrite string_app_assoc in Hn.
  set (sfx' := (if JS.includes _ _ then _ else _) +:+ _) in Hn.
  cbv zeta in Hrun. rewrite Hdate, Hfe in Hrun. fold exif in Hrun.
  rewrite Hrun, Hn. clear Hrun. exists sfx'.
  set (h5 := (h4 ++ _)%list).
  exists (Eff.exif_write w h5 tmp exif).
  destruct (Eff.exif_write w h5 tmp exif).
  - set (h6 := (h5 ++ _)%list).
    destruct (Eff.smb_sendFile w h6 tmp _) eqn:Hs; eexists; (split;
      [subst h6 h5; cbn [snd]; rewrite <- !app_assoc; simpl; reflexivity|]);
      intros _; eauto.
  - exists []. split; [|done].
    subst h5. cbn [snd]. by rewrite <- !app_assoc.
Qed.

(** C10: the search for a free name ends, whatever bound above the number
    of known names it is run with, on a name that is not in the known
    set, so the check that follows the loop finds nothing to skip: no run
    of the naming step logs the skip of an already processed file. *)
Theorem C10_post_loop_check_unreachable (IS_DRY_RUN : bool) (w : Eff.world)
    (existing : gset string) (base ext : string)
    (targetDir entryName tempFilePath timestamp : string) :
  (exists newFileName,
     Renamer.free_name existing base ext = Some newFileName /\
     Renamer.has existing newFileName = false /\
     forall extra,
       Renamer.suffix_loop (S (size existing) + extra) existing base ext
         (base +:+ "." +:+ ext) 1%N
       = Some newFileName) /\
  Eff.emits
    (fun e => forall n,
       e <> Eff.ELog ("- Skipping already processed file: " +:+ n))
    (Renamer.rename_and_send IS_DRY_RUN w targetDir entryName tempFilePath
       timestamp existing).
Proof.
  split.
  { destruct (free_name_found existing base ext) as (n & Hn & Hfree & Hfuel).
    exists n. split; [done|]. split; [done|]. intros extra. apply Hfuel. lia. }
  unfold Renamer.rename_and_send.
  apply emits_bind; [by apply emits_exifRead|]. intros fileTags.
  destruct (free_name_found existing
              (Renamer.finalNewBaseName w entryName timestamp)
              (Renamer.correctExtension fileTags entryName))
    as (n & -> & -> & _).
  repeat emits_step; try done.
  all: intros n' [= Heq]; revert Heq; unfold String.app; simpl; discriminate.
Qed.

(** C6 (as stated), refuted: with no file type reported by the inspection
    of the bytes, the extension of the new name is the one of the old
    name, and changes with it. *)
Lemma C6_extension_from_file_name :
  Eff.uploads (Examples.run_renamer
                 (Examples.share ["clip.MOV"; "clip.MOV.json"] "1609459200" None))
  = [("/tmp/clip.MOV", "tgt/2021-01-01_00-00-00.mov")] /\
  Eff.uploads (Examples.run_renamer
                 (Examples.share ["clip.AVI"; "clip.AVI.json"] "1609459200" None))
  = [("/tmp/clip.AVI", "tgt/2021-01-01_00-00-00.avi")].
Proof. split; vm_compute; reflexivity. Qed.

(** C6 (amended): the extension of the new name is the lower-cased file
    type extension reported by the inspection of the bytes when there is
    one, whatever the old name, and otherwise the lower-cased extension
    of the old name. *)
Theorem C6_extension_source (w : Eff.world) (tgt entry tmp ts : string)
    (existing : gset string) (h : Eff.history) (fileTags : Eff.tags) :
  Eff.exif_read w h tmp = Some fileTags ->
  let ext :=
    JS.toLowerCase
      (match Eff.FileTypeExtension fileTags with
       | Some (String a e) => String a e
       | _ => JS.drop 1 (JS.extname entry)
       end) in
  exists stem okw rest,
    snd (Renamer.rename_and_send false w tgt entry tmp ts existing h) =
      (h ++ [Eff.EExifRead tmp true;
             Eff.ELog ("- Processing: " +:+ entry +:+ " -> " +:+
                       stem +:+ "." +:+ ext);
             Eff.EExifWrite tmp
               (Calendar.formatExifDate (Eff.localOffset w) (Calendar.takenDate ts))
               okw] ++ rest)%list /\
    (okw = true ->
     exists oks rest',
       rest = Eff.ESendFile tmp (JS.remote_join tgt (stem +:+ "." +:+ ext)) oks
              :: rest').
Proof.
  intros Hread ext.
  destruct (rename_and_send_run w tgt entry tmp ts existing h fileTags Hread)
    as (n & Hn & _ & Hrun).
  apply free_name_extension in Hn as [sfx Hn].
  assert (Renamer.correctExtension fileTags entry = ext) as Hext.
  { unfold Renamer.correctExtension, ext, Renamer.truthy.
    by destruct (Eff.FileTypeExtension fileTags) as [[|a e]|]. }
  rewrite Hext, <- string_app_assoc in Hn.
  set (stem := Renamer.finalNewBaseName w entry ts +:+ sfx) in Hn.
  cbv zeta in Hrun. rewrite Hrun, Hn. clear Hrun. exists stem.
  set (h1 := (h ++ _)%list).
  set (exif := Calendar.formatExifDate _ _).
  exists (Eff.exif_write w h1 tmp exif).
  destruct (Eff.exif_write w h1 tmp exif).
  - set (h2 := (h1 ++ _)%list).
    destruct (Eff.smb_sendFile w h2 tmp _) eqn:Hs; eexists; (split;
      [subst h2 h1; cbn [snd]; rewrite <- !app_assoc; simpl; reflexivity|]);
      intros _; eauto.
  - exists []. split; [|done].
    subst h1. cbn [snd]. by rewrite <- !app_assoc.
Qed.

(** C1, where the code departs from the example: on the example
    directory, listed in any order, with the target directory absent or
    empty, the edited file is uploaded under its own name and no capture
    time is written: its sidecar is looked up under the edited name,
    which [IMG_0001.jpg.json] does not start with, while the original, for
    which the sidecar would be found, is dropped.  The expected name and
    capture time come out only when a sidecar is also listed under the
    edited name. *)
Theorem C1_edited_file_misses_its_sidecar :
  Forall (fun files =>
            Forall (fun target =>
                      let run := Examples.run_renamer
                                   (Examples.share_on target files "1609459200"
                                      (Some "jpg")) in
                      Eff.uploads run
                      = [("/tmp/IMG_0001-edited.jpg", "tgt/IMG_0001-edited.jpg")] /\
                      Eff.tag_writes run = [] /\
                      ~ In ("/tmp/IMG_0001-edited.jpg",
                            "tgt/2021-01-01_00-00-00-edited.jpg")
                           (Eff.uploads run))
                   [None; Some []])
         Examples.example_orders /\
  (let run := Examples.run_renamer
                (Examples.share ["IMG_0001.jpg"; "IMG_0001.jpg.json";
                                 "IMG_0001-edited.jpg";
                                 "IMG_0001-edited.jpg.json"]
                   "1609459200" (Some "jpg")) in
   Eff.uploads run
   = [("/tmp/IMG_0001-edited.jpg", "tgt/2021-01-01_00-00-00-edited.jpg")] /\
   Eff.tag_writes run = [("/tmp/IMG_0001-edited.jpg", "2021:01:01 00:00:00")]).
Proof.
  split.
  - apply List.Forall_forall. intros files Hin. vm_compute in Hin.
    decompose [or] Hin; try done; subst files;
      repeat constructor; try (vm_compute; reflexivity);
      vm_compute; intros H; decompose [or] H; done.
  - vm_compute. done.
Qed.

(** C4, evaluated where it fails: a file copied under its own name is not
    registered, so a later file whose derived name is that same name is
    uploaded to the same target path. *)
Theorem C4_unregistered_copy_collides :
  Eff.uploads
    (Examples.run_renamer
       (Examples.share ["2021-01-01_00-00-00.jpg"; "a.jpg"; "a.jpg.json"]
                       "1609459200" (Some "jpg")))
  = [("/tmp/2021-01-01_00-00-00.jpg", "tgt/2021-01-01_00-00-00.jpg");
     ("/tmp/a.jpg", "tgt/2021-01-01_00-00-00.jpg")].
Proof. vm_compute. reflexivity. Qed.


(** ** The share: what a merge changes *)

Section SharePure.
Import Share.
Local Open Scope list_scope.
Implicit Types (σ : gmap (list string) kind) (S T p q d : list string).
Implicit Types (n : string) (k : kind) (e : string * kind).

Lemma unsnoc_snoc d n : unsnoc (d ++ [n]) = Some (d, n).
Proof. induction d as [|x d IH]; simpl; [done|]. by rewrite IH. Qed.

Lemma unsnoc_Some p d n : unsnoc p = Some (d, n) -> p = d ++ [n].
Proof.
  revert d. induction p as [|x p IH]; intros d; simpl; [done|].
  destruct (unsnoc p) as [[d' m]|] eqn:E.
  - intros [= <- <-]. simpl. f_equal. by apply IH.
  - intros [= <- <-]. destruct p as [|y p]; [done|]. simpl in E.
    by destruct (unsnoc p) as [[]|].
Qed.

Lemma unsnoc_None p : unsnoc p = None -> p = [].
Proof.
  destruct p as [|x p]; [done|]. simpl. by destruct (unsnoc p) as [[]|].
Qed.

Lemma children_spec σ d n k :
  (n, k) ∈ children σ d <-> σ !! (d ++ [n]) = Some k.
Proof.
  unfold children. rewrite list_elem_of_omap. split.
  - intros ([q k'] & Hin%elem_of_map_to_list & Heq).
    destruct (unsnoc q) as [[d' m]|] eqn:E; [|done].
    case_bool_decide; [|done]. simplify_eq.
    by apply unsnoc_Some in E as ->.
  - intros H. exists (d ++ [n], k). split; [by apply elem_of_map_to_list|].
    rewrite unsnoc_snoc. by rewrite bool_decide_true.
Qed.

Lemma omap_fst_NoDup {K V A B} (g : K * V -> option (A * B)) (l : list (K * V)) :
  (forall x y a b, g x = Some a -> g y = Some b -> a.1 = b.1 -> x.1 = y.1) ->
  NoDup l.*1 -> NoDup (omap g l).*1.
Proof.
  intros Hg. induction l as [|x l IH]; simpl; [constructor|].
  intros [Hx Hl]%NoDup_cons. destruct (g x) as [a|] eqn:Hgx; [|by apply IH].
  simpl. apply NoDup_cons. split; [|by apply IH].
  intros (b & Hb1 & (y & Hy & Hgy)%list_elem_of_omap)%list_elem_of_fmap.
  apply Hx. apply list_elem_of_fmap. exists y. split; [|done].
  by apply (Hg x y a b).
Qed.

Lemma children_NoDup σ d : NoDup (children σ d).*1.
Proof.
  apply omap_fst_NoDup; [|apply NoDup_fst_map_to_list].
  intros [q1 k1] [q2 k2] a b H1 H2 Hab. simpl in *.
  destruct (unsnoc q1) as [[d1 m1]|] eqn:E1; [|done].
  destruct (unsnoc q2) as [[d2 m2]|] eqn:E2; [|done].
  repeat case_bool_decide; simplify_eq. simpl in Hab. subst.
  apply unsnoc_Some in E1, E2. by subst.
Qed.

(** *** Paths *)

Lemma below_prefix S q : (exists n r, q = S ++ n :: r) -> S `prefix_of` q.
Proof. intros (n & r & ->). by exists (n :: r). Qed.

Lemma disj_no_common S T q :
  disj S T -> S `prefix_of` q -> T `prefix_of` q -> False.
Proof.
  intros [H1 H2] HS HT. destruct (prefix_weak_total S T q HS HT); auto.
Qed.

Lemma child_prefix_inv S n T :
  S ++ [n] `prefix_of` T -> S `prefix_of` T.
Proof. apply prefix_app_l. Qed.

Lemma disj_child S T n m : disj S T -> disj (S ++ [n]) (T ++ [m]).
Proof.
  intros [H1 H2]. split; intros [r Hr].
  - destruct r as [|x r _] using rev_ind.
    + rewrite app_nil_r in Hr. apply app_inj_tail in Hr as [-> _].
      by apply H1.
    + rewrite !app_assoc in Hr. apply app_inj_tail in Hr as [-> _].
      apply H1. rewrite <- app_assoc. by eexists.
  - destruct r as [|x r _] using rev_ind.
    + rewrite app_nil_r in Hr. apply app_inj_tail in Hr as [-> _].
      by apply H2.
    + rewrite !app_assoc in Hr. apply app_inj_tail in Hr as [-> _].
      apply H2. rewrite <- app_assoc. by eexists.
Qed.

Lemma disj_child_ne S T n : disj S T -> S ++ [n] <> T ++ [n].
Proof. intros [H1 _] [-> _]%app_inj_tail. by apply H1. Qed.

Lemma siblings_apart S n m q :
  n <> m -> S ++ [n] `prefix_of` q -> S ++ [m] `prefix_of` q -> False.
Proof.
  intros Hne [r1 ->] [r2 Hr]. rewrite <- !app_assoc in Hr.
  apply app_inv_head in Hr. simpl in Hr. congruence.
Qed.

(** *** Single calls *)

Lemma rename_st_lookup σ s t q :
  rename_st σ s t !! q =
  if rename_ok σ s t
  then (if decide (q = t) then Some File
        else if decide (q = s) then None else σ !! q)
  else σ !! q.
Proof.
  unfold rename_st. destruct (rename_ok σ s t); [|done].
  destruct (decide (q = t)) as [->|Ht]; [by rewrite lookup_insert_eq|].
  rewrite lookup_insert_ne by done.
  destruct (decide (q = s)) as [->|Hs]; [by rewrite lookup_delete_eq|].
  by rewrite lookup_delete_ne.
Qed.

Lemma mkdir_st_lookup σ p q :
  mkdir_st σ p !! q =
  if mkdir_ok σ p then (if decide (q = p) then Some Dir else σ !! q)
  else σ !! q.
Proof.
  unfold mkdir_st. destruct (mkdir_ok σ p); [|done].
  destruct (decide (q = p)) as [->|Hp]; [by rewrite lookup_insert_eq|].
  by rewrite lookup_insert_ne.
Qed.

Lemma rename_ok_inv σ s t :
  rename_ok σ s t = true ->
  σ !! s = Some File /\ σ !! t = None /\
  exists d n, t = d ++ [n] /\ is_dir σ d = true.
Proof.
  unfold rename_ok. rewrite !andb_true_iff, !bool_decide_eq_true.
  intros [[Hs Ht] Hd]. split; [done|]. split; [done|].
  destruct (unsnoc t) as [[d n]|] eqn:E; [|done].
  apply unsnoc_Some in E. eauto.
Qed.

Lemma mkdir_ok_inv σ p :
  mkdir_ok σ p = true ->
  σ !! p = None /\ exists d n, p = d ++ [n] /\ is_dir σ d = true.
Proof.
  unfold mkdir_ok. destruct (unsnoc p) as [[d n]|] eqn:E; [|done].
  rewrite andb_true_iff, bool_decide_eq_true. intros [Hp Hd]. split; [done|].
  apply unsnoc_Some in E. eauto.
Qed.

Lemma rename_twice σ s t :
  s <> t -> rename_ok (rename_st σ s t) s t = false.
Proof.
  intros Hne. destruct (rename_ok σ s t) eqn:Hok.
  - unfold rename_ok at 1. rewrite rename_st_lookup, Hok.
    rewrite decide_False by done. rewrite decide_True by done.
    by rewrite bool_decide_false.
  - unfold rename_st. by rewrite Hok.
Qed.

(** *** What a merge may change *)

Lemma moved_refl S T σ : moved S T σ σ.
Proof. intros q. by left. Qed.

Lemma moved_trans S T σ1 σ2 σ3 :
  disj S T -> moved S T σ1 σ2 -> moved S T σ2 σ3 -> moved S T σ1 σ3.
Proof.
  intros Hd H12 H23 q.
  destruct (H12 q) as [E1|[(Hb1 & Hf1 & Hn1)|(Hp1 & Hn1 & Hs1)]];
    destruct (H23 q) as [E2|[(Hb2 & Hf2 & Hn2)|(Hp2 & Hn2 & Hs2)]].
  - left. congruence.
  - right. left. by rewrite <- E1.
  - right. right. by rewrite <- E1.
  - right. left. by rewrite E2.
  - congruence.
  - exfalso. apply (disj_no_common S T q); auto using below_prefix.
  - right. right. by rewrite E2.
  - exfalso. apply (disj_no_common S T q); auto using below_prefix.
  - congruence.
Qed.

Lemma moved_child S T n σ σ' :
  moved (S ++ [n]) (T ++ [n]) σ σ' -> moved S T σ σ'.
Proof.
  intros H q. destruct (H q) as [E|[((m & r & ->) & Hf & Hn)|(Hp & Hn & Hs)]].
  - by left.
  - right. left. split; [|done]. exists n, (m :: r). by rewrite <- app_assoc.
  - right. right. split; [|done]. by eapply child_prefix_inv.
Qed.

Lemma moved_mkdir S T σ : moved S T σ (mkdir_st σ T).
Proof.
  intros q. rewrite mkdir_st_lookup. destruct (mkdir_ok σ T) eqn:Hok; [|by left].
  destruct (decide (q = T)) as [->|]; [|by left].
  right. right. apply mkdir_ok_inv in Hok as [Hn _]. by rewrite Hn.
Qed.

Lemma moved_rename S T n σ :
  moved S T σ (rename_st σ (S ++ [n]) (T ++ [n])).
Proof.
  intros q. rewrite rename_st_lookup.
  destruct (rename_ok σ _ _) eqn:Hok; [|by left].
  apply rename_ok_inv in Hok as (Hs & Ht & _).
  destruct (decide (q = T ++ [n])) as [->|].
  { right. right. rewrite Ht. split; [by exists [n]|done]. }
  destruct (decide (q = S ++ [n])) as [->|]; [|by left].
  right. left. split; [by exists n, []|done].
Qed.

Lemma touched_rename S T n σ :
  touched (S ++ [n]) (T ++ [n]) σ (rename_st σ (S ++ [n]) (T ++ [n])).
Proof.
  intros q HS HT. rewrite rename_st_lookup.
  destruct (rename_ok σ _ _); [|done].
  rewrite decide_False by (intros ->; by apply HT).
  by rewrite decide_False by (intros ->; by apply HS).
Qed.

Lemma moved_touched S T σ σ' : moved S T σ σ' -> touched S T σ σ'.
Proof.
  intros H q HS HT. destruct (H q) as [E|[(Hb & _)|(Hp & _)]]; [done| |done].
  exfalso. by apply HS, below_prefix.
Qed.

Lemma fold_moved (step : gmap (list string) kind -> string * kind ->
                         option (gmap (list string) kind)) S T es :
  disj S T ->
  (forall σa e σb, step σa e = Some σb -> moved S T σa σb) ->
  forall σa σb, fold_steps step es σa = Some σb -> moved S T σa σb.
Proof.
  intros Hd Hstep. induction es as [|e es IH]; intros σa σb; simpl.
  - intros [= <-]. apply moved_refl.
  - destruct (step σa e) as [σm|] eqn:Hs; [|done]. intros Hf.
    eapply moved_trans; eauto.
Qed.

Lemma sem_moved fuel σ S T σ' :
  disj S T -> sem fuel σ S T = Some σ' -> moved S T σ σ'.
Proof.
  revert σ S T σ'. induction fuel as [|fuel IH]; intros σ S T σ' Hd; [done|].
  simpl. destruct (is_dir σ S); [|intros [= <-]; apply moved_refl].
  intros Hf. eapply moved_trans; [done|apply moved_mkdir|].
  revert Hf. apply fold_moved; [done|].
  intros σa [n k] σb. unfold step. simpl. destruct k.
  - intros [= <-]. apply moved_rename.
  - intros Hs. eapply moved_child, IH; [|done]. by apply disj_child.
Qed.

Lemma moved_persist_T S T σ σ' q k :
  disj S T -> moved S T σ σ' -> T `prefix_of` q ->
  σ !! q = Some k -> σ' !! q = Some k.
Proof.
  intros Hd H HT Hq. destruct (H q) as [E|[(Hb & _)|(_ & Hn & _)]].
  - congruence.
  - exfalso. apply (disj_no_common S T q); auto using below_prefix.
  - congruence.
Qed.

Lemma moved_no_add_S S T σ σ' q k :
  disj S T -> moved S T σ σ' -> S `prefix_of` q ->
  σ' !! q = Some k -> σ !! q = Some k.
Proof.
  intros Hd H HS Hq. destruct (H q) as [E|[(_ & _ & Hn)|(Hp & _)]].
  - congruence.
  - congruence.
  - exfalso. eapply disj_no_common; eauto.
Qed.
End SharePure.

(** ** The share: a finished merge leaves nothing to do *)

Section ShareStuck.
Import Share.
Local Open Scope list_scope.
Implicit Types (σ : gmap (list string) kind) (S T p q d : list string).
Implicit Types (n : string) (k : kind) (e : string * kind).

Lemma agree_child S T n σ σ' :
  agree S T σ σ' -> agree (S ++ [n]) (T ++ [n]) σ σ'.
Proof.
  intros H q [HS|[HT|[m Hm]]]; apply H.
  - left. by eapply child_prefix_inv.
  - right. left. by eapply child_prefix_inv.
  - apply app_inj_tail in Hm as [<- _]. right. by left.
Qed.

Lemma is_dir_agree σ σ' p : σ !! p = σ' !! p -> is_dir σ p = is_dir σ' p.
Proof. unfold is_dir. by intros ->. Qed.

Lemma mkdir_ok_agree S T σ σ' :
  agree S T σ σ' -> mkdir_ok σ T = mkdir_ok σ' T.
Proof.
  intros H. unfold mkdir_ok. destruct (unsnoc T) as [[d n]|] eqn:E; [|done].
  apply unsnoc_Some in E. rewrite (H T) by (right; by left).
  f_equal. apply is_dir_agree, H. right. right. by exists n.
Qed.

Lemma rename_ok_agree S T n σ σ' :
  agree (S ++ [n]) (T ++ [n]) σ σ' ->
  rename_ok σ (S ++ [n]) (T ++ [n]) = rename_ok σ' (S ++ [n]) (T ++ [n]).
Proof.
  intros H. unfold rename_ok. rewrite unsnoc_snoc.
  rewrite (H (S ++ [n])) by (by left).
  rewrite (H (T ++ [n])) by (right; by left).
  f_equal. apply is_dir_agree, H. right. right. by exists n.
Qed.

Lemma stuck_agree fuel S T σ σ' :
  agree S T σ σ' -> stuck fuel σ S T -> stuck fuel σ' S T.
Proof.
  revert S T. induction fuel as [|fuel IH]; intros S T Ha; [done|].
  simpl. intros Hst Hdir.
  rewrite <- (is_dir_agree σ σ' S) in Hdir by (apply Ha; by left).
  destruct (Hst Hdir) as [Hmk Hall]. split.
  - by rewrite <- (mkdir_ok_agree S T σ σ').
  - intros n k Hn Hv.
    rewrite <- (Ha (S ++ [n])) in Hn by (left; by exists [n]).
    specialize (Hall n k Hn Hv). destruct k.
    + by rewrite <- (rename_ok_agree S T n σ σ') by by apply agree_child.
    + eapply IH; [|done]. by apply agree_child.
Qed.

Lemma settled_agree fuel S T e σ σ' :
  agree (S ++ [e.1]) (T ++ [e.1]) σ σ' ->
  settled fuel σ S T e -> settled fuel σ' S T e.
Proof.
  unfold settled. intros Ha. destruct (e.2).
  - by rewrite <- (rename_ok_agree S T (e.1) σ σ').
  - by apply stuck_agree.
Qed.

(** The entries of a listing are merged one after the other; each stays
    settled while the others are merged. *)
Lemma fold_settled fuel S T :
  (forall σ S T σ', disj S T -> sem fuel σ S T = Some σ' -> stuck fuel σ' S T) ->
  disj S T ->
  forall es σa σb,
    NoDup es.*1 ->
    fold_steps (step (sem fuel) S T) es σa = Some σb ->
    (forall e, e ∈ es -> settled fuel σb S T e) /\
    (forall q, (forall e, e ∈ es -> ~ S ++ [e.1] `prefix_of` q /\
                                    ~ T ++ [e.1] `prefix_of` q) ->
               σb !! q = σa !! q).
Proof.
  intros IHf Hd. induction es as [|e es IH]; intros σa σb Hnd; simpl.
  { intros [= <-]. split; [by intros e ?%elem_of_nil|done]. }
  destruct (step (sem fuel) S T σa e) as [σm|] eqn:Hstep; [|done].
  intros Hfold. apply NoDup_cons in Hnd as [Hne Hnd].
  destruct (IH σm σb Hnd Hfold) as [Hset Hframe].
  assert (touched (S ++ [e.1]) (T ++ [e.1]) σa σm) as Htouch.
  { revert Hstep. unfold step. destruct (e.2).
    - intros [= <-]. apply touched_rename.
    - intros Hs. eapply moved_touched, sem_moved; [|done]. by apply disj_child. }
  assert (settled fuel σm S T e) as Hm.
  { revert Hstep. unfold step, settled. destruct (e.2).
    - intros [= <-]. apply rename_twice. by apply disj_child_ne.
    - apply IHf. by apply disj_child. }
  assert (agree (S ++ [e.1]) (T ++ [e.1]) σm σb) as Hag.
  { intros q Hq. symmetry. apply Hframe. intros e' He'.
    assert (e'.1 <> e.1) as Hdiff.
    { intros Heq. apply Hne. rewrite <- Heq. apply list_elem_of_fmap. eauto. }
    destruct Hq as [HS|[HT|[m Hm']]].
    - split; intros H'.
      + by apply (siblings_apart S (e'.1) (e.1) q).
      + apply (disj_no_common (S ++ [e.1]) (T ++ [e'.1]) q); auto using disj_child.
    - split; intros H'.
      + apply (disj_no_common (S ++ [e'.1]) (T ++ [e.1]) q); auto using disj_child.
      + by apply (siblings_apart T (e'.1) (e.1) q).
    - apply app_inj_tail in Hm' as [<- _]. split; intros H'.
      + destruct Hd as [Hd1 _]. apply Hd1. by eapply child_prefix_inv.
      + by apply prefix_snoc_not in H'. }
  split.
  - intros e' [->|He']%elem_of_cons; [by eapply settled_agree|by apply Hset].
  - intros q Hq. rewrite Hframe.
    + apply Htouch; apply Hq; by left.
    + intros e' He'. apply Hq. by right.
Qed.

Lemma filter_fst_NoDup (f : string * kind -> bool) (l : list (string * kind)) :
  NoDup l.*1 -> NoDup (List.filter f l).*1.
Proof.
  induction l as [|x l IH]; simpl; [done|].
  intros [Hx Hl]%NoDup_cons. destruct (f x); [|by apply IH].
  simpl. apply NoDup_cons. split; [|by apply IH].
  intros (y & Hy1 & Hy2%list_elem_of_In%filter_In)%list_elem_of_fmap.
  apply Hx. apply list_elem_of_fmap. exists y. split; [done|].
  apply list_elem_of_In. tauto.
Qed.

Lemma step_moved fuel S T σa e σb :
  disj S T -> step (sem fuel) S T σa e = Some σb -> moved S T σa σb.
Proof.
  intros Hd. unfold step. destruct (e.2).
  - intros [= <-]. apply moved_rename.
  - intros Hs. eapply moved_child, sem_moved; [|done]. by apply disj_child.
Qed.

(** After a merge that ran to its end, every call of the same merge is
    refused. *)
Lemma sem_stuck fuel σ S T σ' :
  disj S T -> sem fuel σ S T = Some σ' -> stuck fuel σ' S T.
Proof.
  revert σ S T σ'. induction fuel as [|fuel IH]; intros σ S T σ' Hd Hsem; [done|].
  pose proof (sem_moved _ _ _ _ _ Hd Hsem) as Hmoved.
  simpl in Hsem. simpl. intros Hdir'.
  destruct (is_dir σ S) eqn:HdirS; [|injection Hsem as <-; congruence].
  set (es := List.filter (fun e => visible e.1) (children σ S)) in Hsem.
  assert (NoDup es.*1) as Hnd by apply filter_fst_NoDup, children_NoDup.
  destruct (fold_settled fuel S T IH Hd es _ _ Hnd Hsem) as [Hset _].
  assert (moved S T (mkdir_st σ T) σ') as Hmoved1.
  { revert Hsem. apply fold_moved; [done|]. intros σa e σb. by apply step_moved. }
  split.
  - destruct (mkdir_ok σ' T) eqn:Hok'; [exfalso|done].
    apply mkdir_ok_inv in Hok' as (Hn' & d & m & -> & Hd').
    assert (mkdir_st σ (d ++ [m]) !! (d ++ [m]) = None) as H1.
    { destruct (mkdir_st σ (d ++ [m]) !! (d ++ [m])) as [k|] eqn:E; [|done].
      eapply moved_persist_T in E; [|done|done|done]. congruence. }
    rewrite mkdir_st_lookup, decide_True in H1 by done.
    destruct (mkdir_ok σ (d ++ [m])) eqn:Hok; [done|].
    unfold mkdir_ok in Hok. rewrite unsnoc_snoc, H1 in Hok.
    rewrite bool_decide_true in Hok by done. simpl in Hok.
    unfold is_dir in Hd', Hok.
    apply orb_true_iff in Hd' as [Hnil|Hdir%bool_decide_eq_true].
    { by rewrite Hnil in Hok. }
    apply orb_false_iff in Hok as [_ Hndir%bool_decide_eq_false].
    destruct (Hmoved d) as [E|[(_ & _ & Hn)|(Hp & _)]]; [congruence|congruence|].
    by apply prefix_snoc_not in Hp.
  - intros n k Hn Hv.
    apply (moved_no_add_S S T σ σ') in Hn; [|done|done|by exists [n]].
    apply (Hset (n, k)). apply list_elem_of_In, filter_In. split; [|done].
    apply (proj1 (list_elem_of_In _ _)), (proj2 (children_spec _ _ _ _)). done.
Qed.
End ShareStuck.

(** ** Paths and listings as text *)

Section ShareText.
Import JS Listing Share.
Local Open Scope list_scope.
Implicit Types (s x y n : string) (P : list string) (c a : ascii).

Lemma has_char_app c x y :
  has_char c (x +:+ y) = has_char c x || has_char c y.
Proof.
  induction x as [|a x IH]; [done|]. rewrite app_cons. simpl.
  by rewrite IH, orb_assoc.
Qed.

Lemma split_on_none c x : has_char c x = false -> split_on c x = [x].
Proof.
  induction x as [|a x IH]; [done|]. simpl.
  intros [Ha Hx]%orb_false_iff. rewrite Ha. by rewrite IH.
Qed.

Lemma split_on_sep c x y :
  has_char c x = false ->
  split_on c (x +:+ String c y) = x :: split_on c y.
Proof.
  induction x as [|a x IH].
  - intros _. change ("" +:+ String c y) with (String c y). simpl.
    by rewrite Ascii.eqb_refl.
  - rewrite app_cons. simpl. intros [Ha Hx]%orb_false_iff.
    rewrite Ha. by rewrite IH.
Qed.

Lemma join_slash_cons x P :
  P <> [] -> join_slash (x :: P) = x +:+ "/" +:+ join_slash P.
Proof. by destruct P. Qed.

Lemma join_slash_snoc P n :
  P <> [] -> join_slash (P ++ [n]) = join_slash P +:+ "/" +:+ n.
Proof.
  induction P as [|x P IH]; [done|]. intros _.
  destruct P as [|y P]; [done|].
  change ((x :: y :: P) ++ [n]) with (x :: ((y :: P) ++ [n])).
  rewrite join_slash_cons by (by destruct P).
  rewrite IH by done. rewrite (join_slash_cons x (y :: P)) by done.
  by rewrite !string_app_assoc.
Qed.

Lemma good_comp_inv n :
  good_comp n = true ->
  n <> "" /\ has_char "/" n = false /\ has_char "\" n = false /\
  n <> "." /\ n <> "..".
Proof.
  unfold good_comp. rewrite !andb_true_iff, !negb_true_iff, !String.eqb_neq.
  tauto.
Qed.

Lemma split_join P :
  P <> [] -> Forall (fun n => has_char "/" n = false) P ->
  split_slash (join_slash P) = P.
Proof.
  unfold split_slash. induction P as [|x P IH]; [done|]. intros _ HP.
  apply Forall_cons in HP as [Hx HP].
  destruct P as [|y P]; [by apply split_on_none|].
  rewrite join_slash_cons by done.
  change ("/" +:+ join_slash (y :: P)) with (String "/" (join_slash (y :: P))).
  rewrite split_on_sep by done. f_equal. by apply IH.
Qed.

Lemma normalize_segments_good above acc P :
  Forall (fun n => n <> "" /\ n <> "." /\ n <> "..") P ->
  normalize_segments above acc P = List.rev acc ++ P.
Proof.
  revert acc. induction P as [|x P IH]; intros acc HP; simpl.
  { by rewrite app_nil_r. }
  apply Forall_cons in HP as [(H1 & H2 & H3) HP].
  apply String.eqb_neq in H1, H2, H3. rewrite H1, H2, H3. simpl.
  rewrite IH by done. simpl. by rewrite <- app_assoc.
Qed.

Lemma slashes_id s : has_char "\" s = false -> slashes s = s.
Proof.
  induction s as [|a s IH]; [done|]. simpl. intros [Ha Hs]%orb_false_iff.
  rewrite Ha. by rewrite IH.
Qed.

Lemma endsWith_slash_none s : has_char "/" s = false -> endsWith s "/" = false.
Proof.
  induction s as [|a s IH]; [done|]. simpl. intros [Ha Hs]%orb_false_iff.
  rewrite IH by done. rewrite Ha. by destruct s.
Qed.

Lemma endsWith_slash_app x n :
  n <> "" -> endsWith (x +:+ n) "/" = endsWith n "/".
Proof.
  intros Hn. induction x as [|a x IH]; [done|]. rewrite app_cons.
  change (endsWith (String a (x +:+ n)) "/")
    with (String.eqb (String a (x +:+ n)) "/" || endsWith (x +:+ n) "/").
  rewrite IH. simpl. destruct (x +:+ n) as [|b r] eqn:E.
  - destruct x; [|done]. by destruct n.
  - by destruct (Ascii.eqb a "/").
Qed.

Lemma has_char_join c P :
  Forall (fun n => has_char c n = false) P -> Ascii.eqb "/" c = false ->
  has_char c (join_slash P) = false.
Proof.
  intros HP Hc. induction P as [|x P IH]; [done|].
  apply Forall_cons in HP as [Hx HP]. destruct P as [|y P]; [done|].
  rewrite join_slash_cons by done. rewrite !has_char_app, Hx, IH by done.
  cbn [has_char]. by rewrite Hc.
Qed.

(** Joining a proper path with a proper component appends the component. *)
Lemma normalize_join P :
  P <> [] -> Forall (fun n => good_comp n = true) P ->
  normalize (join_slash P) = join_slash P.
Proof.
  intros Hne HP.
  assert (Forall (fun n => has_char "/" n = false) P) as Hslash.
  { eapply Forall_impl; [exact HP|]. intros n Hn%good_comp_inv. tauto. }
  assert (Forall (fun n => n <> "" /\ n <> "." /\ n <> "..") P) as Hseg.
  { eapply Forall_impl; [exact HP|]. intros n Hn%good_comp_inv. tauto. }
  assert (endsWith (join_slash P) "/" = false) as Hend.
  { destruct P as [|x P _] using rev_ind; [done|].
    apply Forall_app in HP as [HP Hx]. apply (proj1 (Forall_singleton _ _)) in Hx.
    apply good_comp_inv in Hx as (Hx1 & Hx2 & _).
    destruct P as [|y P]; [by apply endsWith_slash_none|].
    rewrite join_slash_snoc by done. rewrite <- string_app_assoc.
    rewrite endsWith_slash_app by done. by apply endsWith_slash_none. }
  assert (exists a r, join_slash P = String a r /\ Ascii.eqb a "/" = false)
    as (a & r & HJ & Ha).
  { destruct P as [|y P]; [done|].
    apply Forall_cons in HP as [Hy _].
    apply good_comp_inv in Hy as (Hy1 & Hy2 & _).
    destruct y as [|a r]; [done|].
    simpl in Hy2. apply orb_false_iff in Hy2 as [Ha _].
    destruct P as [|z P]; [by exists a, r|].
    rewrite join_slash_cons by done. rewrite app_cons. by eexists _, _. }
  unfold normalize. rewrite split_join by done.
  rewrite HJ in Hend |- *. rewrite Ha. cbn [negb].
  rewrite normalize_segments_good by done. cbn [List.rev app].
  rewrite HJ. by rewrite Hend.
Qed.

Lemma remote_join_child P n :
  P <> [] -> Forall (fun n => good_comp n = true) P -> good_comp n = true ->
  remote_join (join_slash P) n = join_slash (P ++ [n]).
Proof.
  intros Hne HP Hn. unfold remote_join, path_join.
  assert (Forall (fun n => good_comp n = true) (P ++ [n])) as HPn.
  { apply Forall_app. split; [done|]. by apply (proj2 (Forall_singleton _ _)). }
  assert (join_slash P <> "") as HJ.
  { destruct P as [|x P]; [done|]. apply Forall_cons in HP as [Hx _].
    apply good_comp_inv in Hx as (Hx & _). destruct P; [done|].
    rewrite join_slash_cons by done. by destruct x. }
  pose proof (good_comp_inv n Hn) as (Hn1 & _).
  destruct (join_slash P) as [|a r] eqn:EJ; [done|].
  destruct n as [|b m] eqn:En; [done|]. rewrite <- EJ, <- En.
  rewrite <- En in HPn.
  rewrite <- join_slash_snoc by done.
  rewrite normalize_join; [|by destruct P|done].
  apply slashes_id. apply has_char_join; [|done].
  eapply Forall_impl; [exact HPn|]. intros k Hk%good_comp_inv. tauto.
Qed.

Lemma parse_join P :
  P <> [] -> Forall (fun n => good_comp n = true) P ->
  parse (join_slash P) = P.
Proof.
  intros Hne HP. apply split_join; [done|].
  eapply Forall_impl; [exact HP|]. intros n Hn%good_comp_inv. tauto.
Qed.
End ShareText.

Section ShareListing.
Import JS Listing Eff Share.
Local Open Scope list_scope.
Implicit Types (n : string) (k : kind) (es : list (string * kind)).

Lemma unlines_cons l ls : unlines (l :: ls) = l +:+ String "010" (unlines ls).
Proof. reflexivity. Qed.

Lemma split_nl_unlines ls :
  Forall (fun l => has_char "010" l = false) ls ->
  split_nl (unlines ls) = ls ++ [""].
Proof.
  unfold split_nl. induction ls as [|l ls IH]; [done|].
  intros [Hl Hls]%Forall_cons. rewrite unlines_cons, split_on_sep by done.
  simpl. f_equal. by apply IH.
Qed.

Lemma line_ok_inv n k :
  line_ok n k = true ->
  has_char "010" (render_line n k) = false /\
  keep_line_merge (render_line n k) = visible n /\
  (visible n = true ->
   entryName (render_line n k) = n /\
   isDirectory (render_line n k) = bool_decide (k = Dir)).
Proof.
  unfold line_ok. rewrite !andb_true_iff, negb_true_iff.
  intros [[Hnl Hkeep%eqb_prop] Hvis]. split; [done|]. split; [done|].
  intros Hv. rewrite Hv in Hvis. simpl in Hvis.
  apply andb_true_iff in Hvis as [Hn%String.eqb_eq Hd%eqb_prop]. done.
Qed.

Lemma good_name_inv n :
  good_name n = true -> good_comp n = true /\ forall k, line_ok n k = true.
Proof.
  unfold good_name. rewrite !andb_true_iff. intros [[Hc Hf] Hd].
  split; [done|]. by intros [].
Qed.

Lemma filter_render es :
  Forall (fun e => good_name e.1 = true) es ->
  List.filter keep_line_merge (List.map (fun e => render_line e.1 e.2) es) =
  List.map (fun e => render_line e.1 e.2) (List.filter (fun e => visible e.1) es).
Proof.
  induction es as [|e es IH]; [done|]. intros [He Hes]%Forall_cons. simpl.
  apply good_name_inv in He as [_ Hl].
  destruct (line_ok_inv _ _ (Hl (e.2))) as (_ & -> & _).
  destruct (visible e.1); simpl; by rewrite IH.
Qed.

(** The lines the mover walks in the listing of a directory are the lines
    of its visible entries. *)
Lemma lines_of_listing es :
  Forall (fun e => good_name e.1 = true) es ->
  listing_lines_merge (render_listing es) =
  List.map (fun e => render_line e.1 e.2) (List.filter (fun e => visible e.1) es).
Proof.
  intros Hes. unfold listing_lines_merge, render_listing.
  rewrite split_nl_unlines.
  - rewrite !List.filter_app, filter_render by done.
    change (List.filter keep_line_merge [render_line "." Dir; render_line ".." Dir])
      with (@nil string).
    change (List.filter keep_line_merge [""; summary]) with (@nil string).
    change (List.filter keep_line_merge [""]) with (@nil string).
    by rewrite !app_nil_r.
  - apply Forall_app. split; [by repeat constructor|].
    apply Forall_app. split; [|by repeat constructor].
    apply Forall_fmap. eapply Forall_impl; [exact Hes|]. intros e He. simpl.
    apply good_name_inv in He as [_ Hl].
    by destruct (line_ok_inv _ _ (Hl (e.2))) as (? & _).
Qed.
End ShareListing.

(** ** The recursive mover on a share *)

Section ShareGood.
Import JS Listing Eff Share.
Local Open Scope list_scope.
Implicit Types (σ : gmap (list string) kind) (S T p q d : list string).
Implicit Types (n : string) (k : kind) (e : string * kind) (h : history).

Lemma good_path_Forall p :
  good_path p = true <-> Forall (fun n => good_name n = true) p.
Proof.
  unfold good_path. induction p as [|n p IH]; simpl; [by split|].
  rewrite andb_true_iff, Forall_cons. by rewrite IH.
Qed.

Lemma good_names_comps p :
  Forall (fun n => good_name n = true) p -> Forall (fun n => good_comp n = true) p.
Proof.
  intros Hp. eapply Forall_impl; [exact Hp|].
  intros n Hn. by apply good_name_inv in Hn as [? _].
Qed.

Lemma good_snoc p n :
  Forall (fun n => good_name n = true) p -> good_name n = true ->
  Forall (fun n => good_name n = true) (p ++ [n]).
Proof. intros. apply Forall_app. split; [done|]. by constructor. Qed.

Lemma share_ok_inv σ S T :
  share_ok σ S T = true ->
  Forall (fun n => good_name n = true) S /\
  Forall (fun n => good_name n = true) T /\
  S <> [] /\ T <> [] /\ disj S T /\ good_share σ.
Proof.
  unfold share_ok, disjoint_paths.
  rewrite !andb_true_iff, !negb_true_iff, !bool_decide_eq_false,
    !good_path_Forall.
  intros [[[[[HS HT] HSn] HTn] [Hd1 Hd2]] Hall].
  repeat split; try done.
  intros q k Hq. rewrite forallb_forall in Hall.
  apply good_path_Forall, (Hall (q, k)).
  by apply list_elem_of_In, elem_of_map_to_list.
Qed.

Lemma good_share_mkdir σ p :
  Forall (fun n => good_name n = true) p -> good_share σ ->
  good_share (mkdir_st σ p).
Proof.
  intros Hp Hσ q k. rewrite mkdir_st_lookup.
  destruct (mkdir_ok σ p); [|apply Hσ].
  destruct (decide (q = p)) as [->|]; [done|apply Hσ].
Qed.

Lemma good_share_rename σ s t :
  Forall (fun n => good_name n = true) t -> good_share σ ->
  good_share (rename_st σ s t).
Proof.
  intros Ht Hσ q k. rewrite rename_st_lookup.
  destruct (rename_ok σ s t); [|apply Hσ].
  destruct (decide (q = t)) as [->|]; [done|].
  destruct (decide (q = s)); [done|apply Hσ].
Qed.

Lemma good_child σ S n k :
  good_share σ -> σ !! (S ++ [n]) = Some k -> good_name n = true.
Proof.
  intros Hσ Hn. apply Hσ, Forall_app in Hn as [_ Hn].
  by apply (proj1 (Forall_singleton _ _)) in Hn.
Qed.

Lemma children_good σ S :
  good_share σ -> Forall (fun e => good_name e.1 = true) (children σ S).
Proof.
  intros Hσ. apply Forall_forall. intros [n k] Hin%children_spec.
  by eapply good_child.
Qed.

Lemma sem_good fuel σ S T σ' :
  Forall (fun n => good_name n = true) S ->
  Forall (fun n => good_name n = true) T ->
  good_share σ -> sem fuel σ S T = Some σ' -> good_share σ'.
Proof.
  revert σ S T σ'. induction fuel as [|fuel IH]; intros σ S T σ' HS HT Hσ; [done|].
  simpl. destruct (is_dir σ S); [|by intros [= <-]].
  pose proof (children_good σ S Hσ) as Hch.
  assert (Forall (fun e => good_name e.1 = true)
            (List.filter (fun e => visible e.1) (children σ S))) as Hes.
  { apply Forall_forall. intros e [He _]%list_elem_of_In%filter_In.
    rewrite Forall_forall in Hch. by apply Hch, list_elem_of_In. }
  clear Hch. apply good_share_mkdir with (p := T) in Hσ; [|done].
  revert Hes Hσ. generalize (mkdir_st σ T).
  generalize (List.filter (fun e => visible e.1) (children σ S)).
  intros es. induction es as [|e es IHes]; intros σa Hes Hσa; simpl.
  { by intros [= <-]. }
  apply Forall_cons in Hes as [He Hes].
  destruct (step (sem fuel) S T σa e) as [σm|] eqn:Hstep; [|done].
  apply IHes; [done|]. revert Hstep. unfold step. destruct (e.2).
  - intros [= <-]. apply good_share_rename; [|done]. by apply good_snoc.
  - apply IH; [by apply good_snoc|by apply good_snoc|done].
Qed.

(** When every call is refused the merge runs to its end and changes
    nothing. *)
Lemma stuck_sem fuel σ S T : stuck fuel σ S T -> sem fuel σ S T = Some σ.
Proof.
  revert S T. induction fuel as [|fuel IH]; intros S T; [done|]. simpl.
  destruct (is_dir σ S) eqn:Hdir; [|done]. intros Hst.
  destruct (Hst eq_refl) as [Hmk Hall]. unfold mkdir_st. rewrite Hmk.
  assert (forall e, e ∈ List.filter (fun e => visible e.1) (children σ S) ->
                    settled fuel σ S T e) as Hset.
  { intros [n k] [Hin Hv]%list_elem_of_In%filter_In.
    apply list_elem_of_In, children_spec in Hin. apply (Hall n k Hin Hv). }
  revert Hset. generalize (List.filter (fun e => visible e.1) (children σ S)).
  intros es. induction es as [|e es IHes]; intros Hset; [done|]. simpl.
  assert (step (sem fuel) S T σ e = Some σ) as ->.
  { specialize (Hset e (list_elem_of_here _ _)). revert Hset.
    unfold settled, step. destruct (e.2).
    - intros Hok. unfold rename_st. by rewrite Hok.
    - apply IH. }
  apply IHes. intros e' He'. apply Hset. by right.
Qed.

Lemma state_of_snoc σ0 h ev :
  state_of σ0 (snoc h ev) = apply_event (state_of σ0 h) ev.
Proof. unfold state_of, snoc. by rewrite foldl_app. Qed.

Lemma state_of_refused σ0 h t :
  Forall refused t -> state_of σ0 (h ++ t) = state_of σ0 h.
Proof.
  unfold state_of. rewrite foldl_app. generalize (foldl apply_event σ0 h).
  induction t as [|ev t IH]; intros σ; [done|]. intros [Hev Ht]%Forall_cons.
  simpl. rewrite <- (IH σ Ht) at 2. f_equal.
  destruct ev; try done; simpl in Hev; by subst.
Qed.
End ShareGood.

Section ShareRun.
Import JS Listing Eff Share.
Local Open Scope list_scope.
Implicit Types (σ : gmap (list string) kind) (S T p q d : list string).
Implicit Types (n : string) (k : kind) (e : string * kind) (h : history).

Variable σ0 : gmap (list string) kind.
Local Abbreviation w := (share_world σ0).
Local Abbreviation gn := (fun n : string => good_name n = true).

Lemma merge_unfold fuel s t :
  Mover.mergeDirectoryContents false w (Datatypes.S fuel) s t =
  try_catch
    (bind (dir w (remote_join s "*")) (fun dirResult =>
       bind (try_catch (mkdir w t) (ret tt)) (fun _ =>
         for_each (listing_lines_merge dirResult) (merge_body w fuel s t))))
    (error ("Error processing directory " +:+ s +:+ ":")).
Proof. reflexivity. Qed.

Lemma silent_refused ev : silent ev -> refused ev.
Proof. by destruct ev. Qed.

Lemma silent_state σ ev : silent ev -> apply_event σ ev = σ.
Proof. by destruct ev. Qed.

Lemma dir_share P h :
  P <> [] -> Forall gn P ->
  exists ev, silent ev /\
    dir w (remote_join (join_slash P) "*") h =
    (if is_dir (state_of σ0 h) P
     then Ok (render_listing (children (state_of σ0 h) P)) else Throw,
     snoc h ev).
Proof.
  intros Hne HP. unfold dir. cbn [smb_dir share_world].
  rewrite remote_join_child by (done || by apply good_names_comps).
  rewrite parse_join.
  - rewrite unsnoc_snoc. cbn [String.eqb Ascii.eqb Bool.eqb andb].
    destruct (is_dir (state_of σ0 h) P); eexists; (split; [|reflexivity]); done.
  - by destruct P.
  - apply Forall_app. split; [by apply good_names_comps|]. by constructor.
Qed.

Lemma mkdir_share T h :
  T <> [] -> Forall gn T ->
  let ok := mkdir_ok (state_of σ0 h) T in
  try_catch (mkdir w (join_slash T)) (ret tt) h
  = (Ok tt, snoc h (EMkdir (join_slash T) ok)) /\
  state_of σ0 (snoc h (EMkdir (join_slash T) ok)) = mkdir_st (state_of σ0 h) T.
Proof.
  intros Hne HT ok. unfold try_catch, mkdir, call. cbn [smb_mkdir share_world].
  rewrite parse_join by (done || by apply good_names_comps). fold ok. split.
  - by destruct ok.
  - rewrite state_of_snoc. unfold mkdir_st. fold ok. destruct ok; [|done].
    simpl. by rewrite parse_join by (done || by apply good_names_comps).
Qed.

Lemma move_file_share S T n h :
  S <> [] -> T <> [] -> Forall gn S -> Forall gn T -> good_name n = true ->
  let s := join_slash (S ++ [n]) in
  let t := join_slash (T ++ [n]) in
  let ok := rename_ok (state_of σ0 h) (S ++ [n]) (T ++ [n]) in
  exists ev, silent ev /\
    Mover.move_file false w n s t h = (Ok tt, h ++ [ERename s t ok; ev]) /\
    state_of σ0 (h ++ [ERename s t ok; ev])
    = rename_st (state_of σ0 h) (S ++ [n]) (T ++ [n]).
Proof.
  intros HSn HTn HS HT Hn s t ok.
  assert (parse s = S ++ [n]) as Hs.
  { apply parse_join; [by destruct S|]. by apply good_names_comps, good_snoc. }
  assert (parse t = T ++ [n]) as Ht.
  { apply parse_join; [by destruct T|]. by apply good_names_comps, good_snoc. }
  unfold Mover.move_file, try_catch, bind, rename, call, log, warn, emit, snoc.
  cbn [smb_rename share_world]. rewrite Hs, Ht. fold ok.
  assert (forall ev, silent ev ->
            state_of σ0 (h ++ [ERename s t ok; ev])
            = rename_st (state_of σ0 h) (S ++ [n]) (T ++ [n])) as Hst.
  { intros ev Hev.
    replace (h ++ [ERename s t ok; ev]) with (snoc (snoc h (ERename s t ok)) ev)
      by (unfold snoc; by rewrite <- app_assoc).
    rewrite !state_of_snoc, silent_state by done.
    unfold rename_st. fold ok. destruct ok; [|done]. simpl. by rewrite Hs, Ht. }
  clearbody ok. destruct ok; simpl.
  - exists (ELog ("  - Moved file: " +:+ n)). split; [done|].
    split; [by rewrite <- app_assoc|by apply Hst].
  - exists (EWarn ("  - Could not move '" +:+ n +:+
                   "', it may already exist in the target. Skipping.")).
    split; [done|]. split; [by rewrite <- app_assoc|by apply Hst].
Qed.

Lemma line_facts n k :
  good_name n = true -> visible n = true ->
  entryName (render_line n k) = n /\
  isDirectory (render_line n k) = bool_decide (k = Dir).
Proof.
  intros [_ Hl]%good_name_inv Hv.
  destruct (line_ok_inv _ _ (Hl k)) as (_ & _ & H). by apply H.
Qed.

Lemma loop_run fuel S T :
  (forall S T h, S <> [] -> T <> [] -> Forall gn S -> Forall gn T ->
     good_share (state_of σ0 h) ->
     runs_as σ0
       (Mover.mergeDirectoryContents false w fuel (join_slash S) (join_slash T) h)
       h (sem fuel (state_of σ0 h) S T) (stuck fuel (state_of σ0 h) S T)) ->
  S <> [] -> T <> [] -> Forall gn S -> Forall gn T ->
  forall es h,
    Forall (fun e => good_name e.1 = true /\ visible e.1 = true) es ->
    good_share (state_of σ0 h) ->
    runs_as σ0
      (for_each (List.map (fun e => render_line e.1 e.2) es)
         (merge_body w fuel (join_slash S) (join_slash T)) h)
      h (fold_steps (step (sem fuel) S T) es (state_of σ0 h))
      (forall e, e ∈ es -> settled fuel (state_of σ0 h) S T e).
Proof.
  intros IHf HSn HTn HS HT. induction es as [|[n k] es IH]; intros h Hes Hgood.
  { exists []. rewrite app_nil_r. split; [done|]. split; [|done].
    simpl. by intros σ' [= <-]. }
  apply Forall_cons in Hes as [[Hn Hv] Hes]. simpl in Hn, Hv.
  destruct (line_facts n k Hn Hv) as [Hname Hdir].
  assert (good_comp n = true) as Hc by (by apply good_name_inv in Hn as [? _]).
  cbn [List.map for_each fold_steps fst snd]. unfold bind at 1.
  unfold merge_body. rewrite Hname, Hdir.
  rewrite !remote_join_child by (done || by apply good_names_comps).
  unfold step at 1. cbn [fst snd]. destruct k.
  - (* a file: one rename *)
    rewrite bool_decide_false by done.
    destruct (move_file_share S T n h HSn HTn HS HT Hn) as (ev & Hev & -> & Hst).
    set (s := join_slash (S ++ [n])) in *. set (t := join_slash (T ++ [n])) in *.
    set (ok := rename_ok (state_of σ0 h) (S ++ [n]) (T ++ [n])) in *.
    set (h' := h ++ [ERename s t ok; ev]) in *.
    destruct (IH h' Hes) as (t' & Hrun & Hstate & Hquiet).
    { rewrite Hst. apply good_share_rename; [by apply good_snoc|done]. }
    rewrite Hst in Hrun, Hstate. exists ([ERename s t ok; ev] ++ t').
    rewrite app_assoc. fold h'. split; [done|]. split; [done|].
    intros Hset. pose proof (Hset (n, File) (list_elem_of_here _ _)) as Hno.
    unfold settled in Hno. cbn [fst snd] in Hno. fold ok in Hno.
    apply Forall_app. split.
    { repeat constructor; [done|by apply silent_refused]. }
    apply Hquiet. intros e He. rewrite Hst. unfold rename_st. fold ok.
    rewrite Hno. apply Hset. by right.
  - (* a directory: the merge below *)
    rewrite bool_decide_true by done. rewrite bind_log.
    set (msg := ELog _). set (h1 := snoc h msg).
    assert (state_of σ0 h1 = state_of σ0 h) as Hst1.
    { unfold h1. by rewrite state_of_snoc. }
    destruct (IHf (S ++ [n]) (T ++ [n]) h1) as (t1 & Hrun1 & Hstate1 & Hquiet1);
      [by destruct S|by destruct T|by apply good_snoc|by apply good_snoc|
       by rewrite Hst1|].
    rewrite Hst1 in Hrun1, Hstate1, Hquiet1. rewrite Hrun1.
    destruct (sem fuel (state_of σ0 h) (S ++ [n]) (T ++ [n])) as [σm|] eqn:Hsem.
    + cbn [outcome_of].
      destruct (IH (h1 ++ t1) Hes) as (t2 & Hrun2 & Hstate2 & Hquiet2).
      { rewrite (Hstate1 σm eq_refl).
        eapply sem_good; [| |exact Hgood|exact Hsem]; by apply good_snoc. }
      rewrite (Hstate1 σm eq_refl) in Hrun2, Hstate2, Hquiet2.
      exists ([msg] ++ t1 ++ t2).
      replace (h ++ [msg] ++ t1 ++ t2) with ((h1 ++ t1) ++ t2)
        by (unfold h1, snoc; by rewrite <- !app_assoc).
      split; [done|]. split; [done|].
      intros Hset. pose proof (Hset (n, Dir) (list_elem_of_here _ _)) as Hstuck.
      unfold settled in Hstuck. cbn [fst snd] in Hstuck.
      specialize (Hquiet1 Hstuck).
      assert (σm = state_of σ0 h) as ->.
      { rewrite <- (Hstate1 σm eq_refl), state_of_refused by done. exact Hst1. }
      apply Forall_cons. split; [done|]. apply Forall_app. split; [done|].
      apply Hquiet2. intros e He. apply Hset. by right.
    + cbn [outcome_of]. exists ([msg] ++ t1).
      replace (h ++ [msg] ++ t1) with (h1 ++ t1)
        by (unfold h1, snoc; by rewrite <- !app_assoc).
      split; [done|]. split; [done|].
      intros Hset. pose proof (Hset (n, Dir) (list_elem_of_here _ _)) as Hstuck.
      apply Forall_cons. split; [done|]. by apply Hquiet1.
Qed.

(** A run of the recursive mover does to the share what [sem] says, and
    when every call is refused the run only records refusals. *)
Lemma merge_run fuel :
  forall S T h, S <> [] -> T <> [] -> Forall gn S -> Forall gn T ->
    good_share (state_of σ0 h) ->
    runs_as σ0
      (Mover.mergeDirectoryContents false w fuel (join_slash S) (join_slash T) h)
      h (sem fuel (state_of σ0 h) S T) (stuck fuel (state_of σ0 h) S T).
Proof.
  induction fuel as [|fuel IHf]; intros S T h HSn HTn HS HT Hgood.
  { exists []. rewrite app_nil_r. by repeat split. }
  rewrite merge_unfold. cbn [sem stuck]. unfold try_catch at 1, bind at 1.
  destruct (dir_share S h HSn HS) as (ev & Hev & ->).
  assert (state_of σ0 (snoc h ev) = state_of σ0 h) as Hst0.
  { rewrite state_of_snoc. by apply silent_state. }
  destruct (is_dir (state_of σ0 h) S) eqn:Hdir.
  - (* the source is listed *)
    unfold bind at 1.
    destruct (mkdir_share T (snoc h ev) HTn HT) as [-> Hst1].
    rewrite Hst0 in Hst1 |- *.
    set (okm := mkdir_ok (state_of σ0 h) T) in *.
    set (h1 := snoc (snoc h ev) (EMkdir (join_slash T) okm)) in *.
    rewrite lines_of_listing by (by apply children_good).
    set (es := List.filter (fun e => visible e.1) (children (state_of σ0 h) S)).
    destruct (loop_run fuel S T IHf HSn HTn HS HT es h1) as (t & Hrun & Hstate & Hquiet).
    { apply Forall_forall. intros e [He Hv]%list_elem_of_In%filter_In.
      split; [|done]. pose proof (children_good _ S Hgood) as Hch.
      rewrite Forall_forall in Hch. by apply Hch, list_elem_of_In. }
    { rewrite Hst1. by apply good_share_mkdir. }
    rewrite Hst1 in Hrun, Hstate, Hquiet. fold es.
    exists ([ev; EMkdir (join_slash T) okm] ++ t).
    replace (h ++ [ev; EMkdir (join_slash T) okm] ++ t) with (h1 ++ t)
      by (unfold h1, snoc; by rewrite <- !app_assoc).
    rewrite Hrun. split.
    { by destruct (fold_steps _ _ _). }
    split; [done|]. intros Hstuck. destruct (Hstuck eq_refl) as [Hmk Hall].
    assert (okm = false) as Hokm by done.
    apply Forall_cons. split; [by apply silent_refused|].
    apply Forall_cons. split; [done|]. apply Hquiet.
    intros [n k] [Hin Hv]%list_elem_of_In%filter_In.
    apply list_elem_of_In, children_spec in Hin.
    unfold mkdir_st. fold okm. rewrite Hmk. apply (Hall n k Hin Hv).
  - (* the source cannot be listed: the error is logged *)
    unfold error, emit.
    exists [ev; EError ("Error processing directory " +:+ join_slash S +:+ ":")].
    split; [by unfold snoc; rewrite <- app_assoc|]. split.
    + intros σ' [= <-]. apply state_of_refused.
      repeat constructor. by apply silent_refused.
    + intros _. repeat constructor. by apply silent_refused.
Qed.
End ShareRun.

(** C8: on a share whose names are good names, with source and target
    proper paths neither inside the other, a second run of the recursive
    mover after a first run that ran to its end completes, every
    directory creation and every move it attempts is refused, and the
    share is left as the first run left it. *)
Theorem C8_second_run_changes_nothing (σ0 : gmap (list string) Share.kind)
    (S T : list string) (fuel : nat) :
  Share.share_ok σ0 S T = true ->
  let w := Share.share_world σ0 in
  let run := Mover.mergeDirectoryContents false w fuel
               (JS.join_slash S) (JS.join_slash T) in
  fst (run []) = Eff.Ok tt ->
  let h1 := snd (run []) in
  exists t2,
    run h1 = (Eff.Ok tt, (h1 ++ t2)%list) /\
    Forall Share.refused t2 /\
    Share.state_of σ0 (h1 ++ t2)%list = Share.state_of σ0 h1.
Proof.
  intros (HS & HT & HSn & HTn & Hd & Hgood)%share_ok_inv w run Hok h1.
  destruct (merge_run σ0 fuel S T [] HSn HTn HS HT Hgood) as (t1 & Hrun1 & Hst1 & _).
  fold w in Hrun1. fold run in Hrun1. subst h1. rewrite Hrun1 in Hok |- *.
  cbn [fst snd] in *. change (Share.state_of σ0 []) with σ0 in *.
  destruct (Share.sem fuel σ0 S T) as [σ1|] eqn:Hsem; [|done].
  specialize (Hst1 σ1 eq_refl). simpl in Hst1.
  pose proof (sem_stuck _ _ _ _ _ Hd Hsem) as Hstuck.
  pose proof (sem_good _ _ _ _ _ HS HT Hgood Hsem) as Hgood1.
  destruct (merge_run σ0 fuel S T t1 HSn HTn HS HT) as (t2 & Hrun2 & _ & Hquiet).
  { by rewrite Hst1. }
  rewrite Hst1 in Hrun2, Hquiet. rewrite (stuck_sem _ _ _ _ Hstuck) in Hrun2.
  exists t2. split; [done|]. split; [by apply Hquiet|].
  apply state_of_refused. by apply Hquiet.
Qed.

(** ** Errors that escape, and those that do not *)

Section NeverThrows.
Import Eff Trace.

Lemma nt_ret {A} (a : A) : never_throws (ret a).
Proof. by intros h. Qed.
Lemma nt_out_of_fuel {A} : never_throws (@out_of_fuel A).
Proof. by intros h. Qed.
Lemma nt_emit e : never_throws (emit e).
Proof. by intros h. Qed.

Lemma nt_bind {A B} (m : M A) (k : A -> M B) :
  never_throws m -> (forall a, never_throws (k a)) -> never_throws (bind m k).
Proof.
  intros Hm Hk h. unfold bind. specialize (Hm h).
  destruct (m h) as [[a| |] h']; try done. apply Hk.
Qed.

Lemma nt_try_catch {A} (m handler : M A) :
  never_throws handler -> never_throws (try_catch m handler).
Proof.
  intros Hh h. unfold try_catch.
  destruct (m h) as [[a| |] h'] eqn:E; [done|apply Hh|done].
Qed.

Lemma nt_try_finally {A} (m : M A) fin :
  never_throws m -> never_throws fin -> never_throws (try_finally m fin).
Proof.
  intros Hm Hf h. unfold try_finally. specialize (Hm h).
  destruct (m h) as [r h']. specialize (Hf h').
  by destruct (fin h') as [[[]| |] h''].
Qed.

Lemma nt_for_each {A} (l : list A) (body : A -> M unit) :
  (forall x, never_throws (body x)) -> never_throws (for_each l body).
Proof.
  intros H. induction l as [|x l IH]; simpl; [apply nt_ret|].
  apply nt_bind; [apply H|]. by intros _.
Qed.

Lemma total_for_each {A} (l : list A) (body : A -> M unit) :
  (forall x, total (body x)) -> total (for_each l body).
Proof.
  intros H. induction l as [|x l IH]; simpl; [apply total_ret|].
  apply total_bind; [apply H|]. by intros _.
Qed.

Lemma ok_of_total (m : M unit) h :
  total m -> never_throws m -> fst (m h) = Ok tt.
Proof.
  intros Ht Hn. specialize (Ht h). specialize (Hn h).
  by destruct (m h) as [[[]| |] h'].
Qed.
End NeverThrows.

Ltac nt_step :=
  first
    [ apply nt_ret | apply nt_out_of_fuel | apply nt_emit
    | apply nt_try_catch
    | apply nt_bind; [|intros ?]
    | apply nt_try_finally
    | apply nt_for_each; intros ?
    | match goal with
      | |- Trace.never_throws (if ?b then _ else _) => destruct b eqn:?
      end ].

(** ** The flat mover *)

Section FlatMover.
Import JS Listing Eff Trace.
Variable w : world.


Lemma total_rename s t : total (rename w s t).
Proof. intros h. apply total_call. Qed.

Lemma move_contents_total dry s t : total (Mover.moveRemoteContents dry w s t).
Proof.
  unfold Mover.moveRemoteContents, log, error.
  repeat total_step. apply total_for_each. intros line.
  repeat (total_step || apply total_rename).
Qed.

Lemma move_contents_nt dry s t :
  never_throws (Mover.moveRemoteContents dry w s t).
Proof. unfold Mover.moveRemoteContents, error. repeat nt_step. Qed.


Lemma move_contents_dry_clean s t :
  emits (fun e => mutating e = false) (Mover.moveRemoteContents true w s t).
Proof.
  unfold Mover.moveRemoteContents. repeat emits_step; try done.
  apply emits_for_each. intros line _. repeat emits_step; done.
Qed.

End FlatMover.


(** X9: the flat mover always completes, whatever the share answers; in a
    dry run it makes no call that changes the share; and it never lists
    more than the one directory it was given. *)
Theorem move_contents_safe (dry : bool) (w : Eff.world) (s t : string)
    (h : Eff.history) :
  fst (Mover.moveRemoteContents dry w s t h) = Eff.Ok tt /\
  Eff.emits (fun e => Eff.mutating e = false)
    (Mover.moveRemoteContents true w s t) /\
  Eff.emits (fun e => forall p r, e = Eff.EDir p r -> p = JS.remote_join s "*")
    (Mover.moveRemoteContents dry w s t).
Proof.
  split; [|split].
  - apply ok_of_total; [apply move_contents_total|apply move_contents_nt].
  - apply move_contents_dry_clean.
  - unfold Mover.moveRemoteContents. repeat emits_step; try done.
    + by intros ? ? [= <- _].
    + apply emits_for_each. intros line _. repeat emits_step; done.
Qed.

(** ** The recursive mover and the two batch drivers *)

Section Drivers.
Import JS Listing Eff Trace.
Variable w : world.

Lemma emits_weaken {A} (P Q : event -> Prop) (m : M A) :
  (forall e, P e -> Q e) -> emits P m -> emits Q m.
Proof.
  intros HPQ Hm h. destruct (Hm h) as (t & Ht & HP). exists t.
  split; [done|]. eapply Forall_impl; [exact HP|done].
Qed.



End Drivers.


(** X11: a dry run of the batch driver of the flat mover still asks the
    share to create the consolidated target; that is the only call of
    the dry run that can change the share. *)
Theorem flat_driver_dry_run (w : Eff.world) :
  (exists ok,
     In (Eff.EMkdir FirstMover.REMOTE_TARGET_PATH ok)
        (snd (FirstMover.reorganizeOnSmb true w []))) /\
  Eff.emits
    (fun e => Eff.mutating e = true ->
              exists ok, e = Eff.EMkdir FirstMover.REMOTE_TARGET_PATH ok)
    (FirstMover.reorganizeOnSmb true w).
Proof.
  split.
  - unfold FirstMover.reorganizeOnSmb. rewrite !bind_log.
    set (h := Eff.snoc _ _).
    exists (Eff.smb_mkdir w h FirstMover.REMOTE_TARGET_PATH).
    apply occurs_try_catch_l; [repeat emits_step; done|].
    apply occurs_bind_l.
    { intros _. repeat emits_step; try done.
      apply emits_for_each. intros x _. unfold FirstMover.move_folder.
      repeat (first [ eapply emits_weaken; [|apply move_contents_dry_clean]
                    | emits_step ]); done. }
    apply occurs_try_catch_l; [repeat emits_step; done|].
    apply occurs_bind_l; [intros _; repeat emits_step; done|].
    unfold Eff.mkdir, Eff.call. cbn [snd]. apply in_snoc.
  - unfold FirstMover.reorganizeOnSmb. repeat emits_step; try done.
    + eauto.
    + apply emits_for_each. intros folder _. unfold FirstMover.move_folder.
      repeat (first [ eapply emits_weaken; [|apply move_contents_dry_clean]
                    | emits_step ]); try done.
      intros e He Hm. congruence.
Qed.

(** ** The renamer: shutting down *)

Section Shutdown.
Import JS Listing Eff Trace.
Variable w : world.

Lemma renamer_no_end dry fuel s t :
  emits (fun e => forall ok, e <> EExifEnd ok)
        (Renamer.processDirectory dry w fuel s t).
Proof.
  revert s t. induction fuel as [|fuel IH]; intros s t; simpl;
    [apply emits_out_of_fuel|].
  unfold Renamer.init_target. repeat emits_step; try done.
  apply emits_for_each_st. intros line ex _.
  unfold Renamer.process_entry, Renamer.process_file, Renamer.copy_as_is,
    Renamer.rename_and_send.
  repeat emits_step; done.
Qed.

Lemma takeout_body_nt dry fuel :
  never_throws
    (try_catch
       (bind (Renamer.processDirectory dry w fuel Renamer.REMOTE_SOURCE_PATH
                Renamer.REMOTE_PROCESSED_PATH)
             (fun _ => log (nl +:+ "Processing completed successfully!")))
       (error (nl +:+ "An unexpected error occurred:"))).
Proof. unfold error. repeat nt_step. Qed.
End Shutdown.

(** X12: the renamer ends every run by shutting ExifTool down, once and
    after everything else.  An error of the processing never escapes; when
    the shutdown succeeds its log line closes the run; when the shutdown
    itself fails, that error escapes and the log line is skipped. *)
Theorem exiftool_always_shut_down (dry : bool) (w : Eff.world) (fuel : nat)
    (h : Eff.history) :
  exists t r,
    Forall (fun e => forall ok, e <> Eff.EExifEnd ok) t /\
    r <> Eff.Throw /\
    Renamer.processGoogleTakeout dry w fuel h =
      if Eff.exif_end w (h ++ t)%list
      then (r, (h ++ t ++ [Eff.EExifEnd true;
                           Eff.ELog "ExifTool process shut down."])%list)
      else (Eff.Throw, (h ++ t ++ [Eff.EExifEnd false])%list).
Proof.
  unfold Renamer.processGoogleTakeout.
  set (body := Eff.try_catch _ _).
  assert (Eff.emits (fun e => forall ok, e <> Eff.EExifEnd ok) body) as Hbody.
  { unfold body. repeat (apply renamer_no_end || emits_step); done. }
  pose proof (takeout_body_nt w dry fuel) as Hnt. fold body in Hnt.
  clearbody body. rewrite bind_log.
  set (h1 := Eff.snoc h _).
  assert (exists t1, Forall (fun e => forall ok, e <> Eff.EExifEnd ok) t1 /\
            forall k : unit -> Eff.M unit,
              Eff.bind (if dry
                        then Eff.log "*** Running in DRY RUN mode. No files will be changed. ***"
                        else Eff.ret tt) k h1
              = k tt (h ++ t1)%list) as (t1 & Ht1 & ->).
  { destruct dry.
    - eexists [_; _]. split; [|intros k; rewrite bind_log; unfold h1, Eff.snoc;
                                 by rewrite <- app_assoc].
      by repeat constructor.
    - eexists [_]. split; [|done]. by repeat constructor. }
  rewrite !bind_log.
  match goal with
  | |- context [Eff.snoc (Eff.snoc _ ?ea) ?eb] => set (e1 := ea); set (e2 := eb)
  end.
  unfold Eff.try_finally, Eff.snoc.
  destruct (Hbody (((h ++ t1) ++ [e1]) ++ [e2])%list) as (t2 & Ht2 & HP2).
  specialize (Hnt (((h ++ t1) ++ [e1]) ++ [e2])%list).
  destruct (body _) as [r h2]. simpl in Ht2, Hnt. subst h2.
  exists (t1 ++ [e1; e2] ++ t2)%list, r. split.
  { apply Forall_app. split; [done|]. apply Forall_app. split; [|done].
    by repeat constructor. }
  split; [done|].
  replace ((((h ++ t1) ++ [e1]) ++ [e2]) ++ t2)%list
    with (h ++ t1 ++ [e1; e2] ++ t2)%list
    by (rewrite <- !app_assoc; reflexivity).
  unfold Eff.bind, Eff.exifEnd, Eff.call, Eff.log, Eff.emit, Eff.snoc.
  destruct (Eff.exif_end w _); rewrite <- !app_assoc; reflexivity.
Qed.

(** ** The share: what a merge keeps *)

Section ShareKeeps.
Import Share Conserve.
Local Open Scope list_scope.
Implicit Types (σ : gmap (list string) kind) (S T p q d : list string).
Implicit Types (n : string) (k : kind) (e : string * kind).

Lemma relocated_refl S T σ : relocated S T σ σ.
Proof. intros q Hq. by left. Qed.

Lemma relocated_trans S T σ1 σ2 σ3 :
  disj S T -> moved S T σ1 σ2 -> moved S T σ2 σ3 ->
  relocated S T σ1 σ2 -> relocated S T σ2 σ3 -> relocated S T σ1 σ3.
Proof.
  intros Hd M12 M23 R12 R23 q Hq.
  destruct (R12 q Hq) as [H2|(rel & -> & Hn2 & Hf1 & Hf2)].
  - destruct (R23 q H2) as [H3|(rel & -> & Hn3 & Hf2 & Hf3)]; [by left|].
    right. exists rel. split; [done|]. split; [done|]. split; [|done].
    destruct (σ1 !! (T ++ rel)) as [k|] eqn:E; [|done].
    eapply moved_persist_T in E; [|done|exact M12|by exists rel]. congruence.
  - right. exists rel. split; [done|]. split; [|split; [done|]].
    + destruct (σ3 !! (S ++ rel)) as [k|] eqn:E; [|done].
      eapply moved_no_add_S in E; [|done|exact M23|by exists rel]. congruence.
    + eapply moved_persist_T; [done|exact M23|by exists rel|done].
Qed.

Lemma relocated_child S T n σ σ' :
  relocated (S ++ [n]) (T ++ [n]) σ σ' -> relocated S T σ σ'.
Proof.
  intros H q Hq. destruct (H q Hq) as [?|(rel & -> & ? & ? & ?)]; [by left|].
  right. exists (n :: rel).
  replace (S ++ n :: rel) with ((S ++ [n]) ++ rel) by (by rewrite <- app_assoc).
  by replace (T ++ n :: rel) with ((T ++ [n]) ++ rel) by (by rewrite <- app_assoc).
Qed.

Lemma relocated_mkdir S T σ : relocated S T σ (mkdir_st σ T).
Proof.
  intros q Hq. left. rewrite mkdir_st_lookup.
  destruct (mkdir_ok σ T) eqn:Hok; [|done].
  destruct (decide (q = T)) as [->|]; [|done].
  apply mkdir_ok_inv in Hok as [Hn _]. congruence.
Qed.

Lemma relocated_rename S T n σ :
  S ++ [n] <> T ++ [n] ->
  relocated S T σ (rename_st σ (S ++ [n]) (T ++ [n])).
Proof.
  intros Hne q Hq. rewrite rename_st_lookup.
  destruct (rename_ok σ _ _) eqn:Hok; [|by left].
  pose proof Hok as (Hs & Ht & _)%rename_ok_inv.
  destruct (decide (q = T ++ [n])) as [->|Hqt]; [congruence|].
  destruct (decide (q = S ++ [n])) as [->|Hqs]; [|by left].
  right. exists [n]. repeat (split; [done|]).
  by rewrite rename_st_lookup, Hok, decide_True.
Qed.

Lemma fold_relocated (step : gmap (list string) kind -> string * kind ->
                             option (gmap (list string) kind)) S T es :
  disj S T ->
  (forall σa e σb, step σa e = Some σb ->
     moved S T σa σb /\ relocated S T σa σb) ->
  forall σa σb, fold_steps step es σa = Some σb ->
    moved S T σa σb /\ relocated S T σa σb.
Proof.
  intros Hd Hstep. induction es as [|e es IH]; intros σa σb; simpl.
  - intros [= <-]. split; [apply moved_refl|apply relocated_refl].
  - destruct (step σa e) as [σm|] eqn:Hs; [|done]. intros Hf.
    destruct (Hstep _ _ _ Hs) as [M1 R1]. destruct (IH _ _ Hf) as [M2 R2].
    split; [by eapply moved_trans|by eapply relocated_trans].
Qed.

Lemma sem_relocated fuel σ S T σ' :
  disj S T -> sem fuel σ S T = Some σ' -> relocated S T σ σ'.
Proof.
  revert σ S T σ'. induction fuel as [|fuel IH]; intros σ S T σ' Hd; [done|].
  simpl. destruct (is_dir σ S); [|intros [= <-]; apply relocated_refl].
  intros Hf.
  eapply (relocated_trans S T σ (mkdir_st σ T) σ'); [done|apply moved_mkdir| |
                                                     apply relocated_mkdir|].
  - revert Hf. apply fold_moved; [done|]. intros σa e σb. by apply step_moved.
  - eapply fold_relocated; [done| |exact Hf].
    intros σa [n k] σb Hs. split; [by eapply step_moved|].
    revert Hs. unfold step. simpl. destruct k.
    + intros [= <-]. apply relocated_rename. by apply disj_child_ne.
    + intros Hs. eapply relocated_child, IH; [|done]. by apply disj_child.
Qed.

(** A file that a finished merge left in the source tree is blocked. *)
Lemma stuck_left fuel σ S T rel n :
  stuck fuel σ S T ->
  walkable σ S rel = true -> visible n = true ->
  σ !! (S ++ rel ++ [n]) = Some File ->
  rename_ok σ (S ++ rel ++ [n]) (T ++ rel ++ [n]) = false.
Proof.
  revert fuel S T. induction rel as [|m rel IH]; intros fuel S T Hst Hw Hv Hf;
    (destruct fuel as [|fuel]; [done|]); simpl in Hst, Hw;
    apply andb_true_iff in Hw as [HS Hw]; destruct (Hst HS) as [_ Hall].
  - apply (Hall n File Hf Hv).
  - apply andb_true_iff in Hw as [Hm Hw].
    assert (σ !! (S ++ [m]) = Some Dir) as Hd.
    { assert (is_dir σ (S ++ [m]) = true) as Hdir by (by destruct rel; apply andb_true_iff in Hw as [? _]).
      unfold is_dir in Hdir. apply orb_true_iff in Hdir as [Hnil|Hdir].
      - apply bool_decide_eq_true in Hnil. by destruct S.
      - by apply bool_decide_eq_true in Hdir. }
    specialize (Hall m Dir Hd Hm). simpl in Hall.
    replace (S ++ (m :: rel) ++ [n]) with ((S ++ [m]) ++ rel ++ [n])
      by (by rewrite <- app_assoc).
    replace (T ++ (m :: rel) ++ [n]) with ((T ++ [m]) ++ rel ++ [n])
      by (by rewrite <- app_assoc).
    apply (IH fuel); [done|done|done|]. by rewrite <- app_assoc.
Qed.

(** The share after a run that completed is the one [sem] computes. *)
Lemma merge_run_sem (σ0 : gmap (list string) kind) S T fuel :
  share_ok σ0 S T = true ->
  fst (Mover.mergeDirectoryContents false (share_world σ0) fuel
         (JS.join_slash S) (JS.join_slash T) []) = Eff.Ok tt ->
  disj S T /\
  sem fuel σ0 S T
  = Some (state_of σ0
            (snd (Mover.mergeDirectoryContents false (share_world σ0) fuel
                    (JS.join_slash S) (JS.join_slash T) []))).
Proof.
  intros (HS & HT & HSn & HTn & Hd & Hgood)%share_ok_inv Hok.
  destruct (merge_run σ0 fuel S T [] HSn HTn HS HT Hgood) as (t1 & Hrun & Hst & _).
  rewrite Hrun in Hok |- *. cbn [fst snd] in *.
  change (state_of σ0 []) with σ0 in *.
  destruct (sem fuel σ0 S T) as [σ1|] eqn:Hsem; [|done].
  split; [done|]. f_equal. symmetry. by apply Hst.
Qed.
End ShareKeeps.

(** X5: on a share whose names are good names, a run of the recursive
    mover that completes overwrites and removes nothing in the target,
    adds nothing to the source, leaves every directory in place, and
    touches nothing outside the source and the target. *)
Theorem merge_overwrites_nothing (σ0 : gmap (list string) Share.kind)
    (S T : list string) (fuel : nat) :
  Share.share_ok σ0 S T = true ->
  let run := Mover.mergeDirectoryContents false (Share.share_world σ0) fuel
               (JS.join_slash S) (JS.join_slash T) in
  fst (run []) = Eff.Ok tt ->
  let σ1 := Share.state_of σ0 (snd (run [])) in
  (forall q k, T `prefix_of` q -> σ0 !! q = Some k -> σ1 !! q = Some k) /\
  (forall q k, S `prefix_of` q -> σ1 !! q = Some k -> σ0 !! q = Some k) /\
  (forall q, σ0 !! q = Some Share.Dir -> σ1 !! q = Some Share.Dir) /\
  (forall q, ~ S `prefix_of` q -> ~ T `prefix_of` q -> σ1 !! q = σ0 !! q).
Proof.
  intros Hok run Hrun σ1.
  destruct (merge_run_sem σ0 S T fuel Hok Hrun) as [Hd Hsem].
  fold run in Hsem. fold σ1 in Hsem.
  pose proof (sem_moved _ _ _ _ _ Hd Hsem) as Hm.
  split; [|split; [|split]].
  - intros q k. by apply (moved_persist_T S T).
  - intros q k. by apply (moved_no_add_S S T).
  - intros q Hq. destruct (Hm q) as [E|[(_ & Hf & _)|(_ & Hn & _)]]; congruence.
  - by apply moved_touched.
Qed.

(** X6: on such a share, a run of the recursive mover that completes
    loses no file: every file is afterwards either where it was, or gone
    from there and present at the same relative path below the target, a
    path that was free before the run. *)
Theorem merge_loses_no_file (σ0 : gmap (list string) Share.kind)
    (S T : list string) (fuel : nat) :
  Share.share_ok σ0 S T = true ->
  let run := Mover.mergeDirectoryContents false (Share.share_world σ0) fuel
               (JS.join_slash S) (JS.join_slash T) in
  fst (run []) = Eff.Ok tt ->
  Conserve.relocated S T σ0 (Share.state_of σ0 (snd (run []))).
Proof.
  intros Hok run Hrun.
  destruct (merge_run_sem σ0 S T fuel Hok Hrun) as [Hd Hsem].
  by eapply sem_relocated.
Qed.

(** X7: on such a share, after a run of the recursive mover that
    completed, a file with a visible name that is still in a directory
    the mover walks is there because it could not be moved: its path
    below the target is taken, or its directory below the target does not
    exist. *)
Theorem merge_leaves_only_blocked (σ0 : gmap (list string) Share.kind)
    (S T : list string) (fuel : nat) (rel : list string) (n : string) :
  Share.share_ok σ0 S T = true ->
  let run := Mover.mergeDirectoryContents false (Share.share_world σ0) fuel
               (JS.join_slash S) (JS.join_slash T) in
  fst (run []) = Eff.Ok tt ->
  let σ1 := Share.state_of σ0 (snd (run [])) in
  Conserve.walkable σ1 S rel = true ->
  Share.visible n = true ->
  σ1 !! (S ++ rel ++ [n])%list = Some Share.File ->
  σ1 !! (T ++ rel ++ [n])%list <> None \/ Share.is_dir σ1 (T ++ rel)%list = false.
Proof.
  intros Hok run Hrun σ1 Hw Hv Hf.
  destruct (merge_run_sem σ0 S T fuel Hok Hrun) as [Hd Hsem].
  fold run in Hsem. fold σ1 in Hsem.
  pose proof (sem_stuck _ _ _ _ _ Hd Hsem) as Hst.
  pose proof (stuck_left _ _ _ _ _ _ Hst Hw Hv Hf) as Hno.
  unfold Share.rename_ok in Hno.
  rewrite (assoc_L (++) T rel [n]), unsnoc_snoc in Hno.
  rewrite bool_decide_true in Hno by done. simpl in Hno.
  apply andb_false_iff in Hno as [Hno|Hno]; [left|by right].
  apply bool_decide_eq_false in Hno. by rewrite (assoc_L (++) T rel [n]).
Qed.

(** ** The share: the recursion ends *)

Section ShareEnds.
Import Share Conserve.
Local Open Scope list_scope.
Implicit Types (σ : gmap (list string) kind) (S T p q d : list string).
Implicit Types (n : string) (k : kind) (e : string * kind).

Lemma covers_inv fuel σ S :
  covers fuel σ S = true ->
  0 < fuel /\
  forall q k, S `prefix_of` q -> σ !! q = Some k ->
              List.length q < List.length S + fuel.
Proof.
  unfold covers. rewrite andb_true_iff, Nat.ltb_lt, forallb_forall.
  intros [Hf Hall]. split; [done|]. intros q k Hp Hq.
  specialize (Hall (q, k)). simpl in Hall.
  rewrite bool_decide_true in Hall by done. simpl in Hall.
  apply Nat.ltb_lt, Hall. by apply list_elem_of_In, elem_of_map_to_list.
Qed.

Lemma sem_enough fuel σ S T :
  disj S T -> 0 < fuel ->
  (forall q k, S `prefix_of` q -> σ !! q = Some k ->
               List.length q < List.length S + fuel) ->
  is_Some (sem fuel σ S T).
Proof.
  revert σ S T. induction fuel as [|fuel IH]; intros σ S T Hd Hpos Hdeep; [lia|].
  simpl. destruct (is_dir σ S); [|done].
  assert (forall es σa,
            (forall e, e ∈ es -> σ !! (S ++ [e.1]) = Some e.2) ->
            moved S T σ σa ->
            is_Some (fold_steps (step (sem fuel) S T) es σa)) as Hfold.
  { induction es as [|[n k] es IHes]; intros σa Hes Hm; simpl; [done|].
    assert (exists σb, step (sem fuel) S T σa (n, k) = Some σb) as [σb Hs].
    { unfold step. simpl. destruct k; [eauto|].
      pose proof (Hes (n, Dir) (list_elem_of_here _ _)) as Hn. simpl in Hn.
      apply (IH σa (S ++ [n]) (T ++ [n])).
      - by apply disj_child.
      - apply Hdeep in Hn; [|by exists [n]]. rewrite length_app in Hn.
        simpl in Hn. lia.
      - intros q k' Hp Hq.
        assert (S `prefix_of` q) as HSq by (by eapply child_prefix_inv).
        apply (moved_no_add_S S T σ σa q k' Hd Hm HSq) in Hq.
        apply Hdeep in Hq; [|done]. rewrite length_app. simpl. lia. }
    rewrite Hs. apply IHes.
    - intros e He. apply Hes. by right.
    - eapply moved_trans; [done|exact Hm|]. by eapply step_moved. }
  apply Hfold; [|apply moved_mkdir].
  intros [n k] [Hin _]%list_elem_of_In%filter_In. simpl.
  by apply children_spec, list_elem_of_In.
Qed.
End ShareEnds.

(** X4: on a share whose names are good names, the recursive mover run
    with fuel above the depth of the tree below the source completes:
    the recursion over directories ends. *)
Theorem merge_completes (σ0 : gmap (list string) Share.kind)
    (S T : list string) (fuel : nat) :
  Share.share_ok σ0 S T = true ->
  Conserve.covers fuel σ0 S = true ->
  fst (Mover.mergeDirectoryContents false (Share.share_world σ0) fuel
         (JS.join_slash S) (JS.join_slash T) []) = Eff.Ok tt.
Proof.
  intros (HS & HT & HSn & HTn & Hd & Hgood)%share_ok_inv
         [Hpos Hdeep]%covers_inv.
  destruct (merge_run σ0 fuel S T [] HSn HTn HS HT Hgood) as (t1 & -> & _).
  change (Share.state_of σ0 []) with σ0.
  by destruct (sem_enough fuel σ0 S T Hd Hpos Hdeep) as [σ1 ->].
Qed.

(** ** Reasoning on the calls of a run, given the run so far *)

Section EmitsAt.
Import JS Listing Eff Anchor.

Lemma all_at_app P pre t1 t2 :
  all_at P pre (t1 ++ t2)%list <-> all_at P pre t1 /\ all_at P (pre ++ t1)%list t2.
Proof.
  revert pre. induction t1 as [|e t1 IH]; intros pre; simpl.
  - rewrite app_nil_r. tauto.
  - rewrite IH. unfold snoc. rewrite <- app_assoc. simpl. tauto.
Qed.

Lemma all_at_impl (P Q : history -> event -> Prop) (I : history -> Prop) pre t :
  stable I -> I pre ->
  (forall pre' e, I pre' -> P pre' e -> Q pre' e) ->
  all_at P pre t -> all_at Q pre t.
Proof.
  intros HI Hpre HPQ. revert pre Hpre.
  induction t as [|e t IH]; intros pre Hpre; simpl; [done|].
  intros [He Ht]. split; [by apply HPQ|]. apply IH; [by apply HI|done].
Qed.

Lemma all_at_Forall (Q : event -> Prop) (P : history -> event -> Prop) pre t :
  (forall pre' e, Q e -> P pre' e) -> Forall Q t -> all_at P pre t.
Proof.
  intros HQP. revert pre. induction t as [|e t IH]; intros pre; simpl; [done|].
  intros [He Ht]%Forall_cons. split; [by apply HQP|by apply IH].
Qed.

Lemma stable_True : stable (fun _ => True).
Proof. done. Qed.

Lemma stable_and (I J : history -> Prop) :
  stable I -> stable J -> stable (fun pre => I pre /\ J pre).
Proof. intros HI HJ pre t [? ?]. split; [by apply HI|by apply HJ]. Qed.

Lemma stable_In e : stable (fun pre => In e pre).
Proof. intros pre t H. apply in_or_app. by left. Qed.

Lemma listed_mono pre t d line : listed pre d line -> listed (pre ++ t)%list d line.
Proof.
  intros (raw & Hin & Hl). exists raw. split; [|done]. apply in_or_app. by left.
Qed.

Lemma stable_listed d line : stable (fun pre => listed pre d line).
Proof. intros pre t. apply listed_mono. Qed.

Context {I : history -> Prop} {P : history -> event -> Prop}.
Hypothesis HI : stable I.

Lemma emits_at_ret {A} (a : A) : emits_at I P (ret a).
Proof. intros h0 pre _. exists []. by rewrite app_nil_r. Qed.

Lemma emits_at_throw {A} : emits_at I P (@throw A).
Proof. intros h0 pre _. exists []. by rewrite app_nil_r. Qed.

Lemma emits_at_out_of_fuel {A} : emits_at I P (@out_of_fuel A).
Proof. intros h0 pre _. exists []. by rewrite app_nil_r. Qed.

Lemma emits_at_emit e : (forall pre, I pre -> P pre e) -> emits_at I P (emit e).
Proof. intros He h0 pre Hpre. exists [e]. split; [done|]. simpl. auto. Qed.

Lemma emits_at_call ok e :
  (forall pre, I pre -> P pre (e ok)) -> emits_at I P (call ok e).
Proof. intros He h0 pre Hpre. exists [e ok]. split; [done|]. simpl. auto. Qed.

Lemma emits_at_bind {A B} (m : M A) (k : A -> M B) :
  emits_at I P m -> (forall a, emits_at I P (k a)) -> emits_at I P (bind m k).
Proof.
  intros Hm Hk h0 pre Hpre. unfold bind.
  destruct (Hm h0 pre Hpre) as (t & Ht & HP).
  destruct (m (h0 ++ pre)%list) as [[a| |] h']; simpl in Ht; subst h'; eauto.
  destruct (Hk a h0 (pre ++ t)%list) as (t' & Ht' & HP'); [by apply HI|].
  rewrite app_assoc in Ht'. exists (t ++ t')%list.
  rewrite Ht', <- !app_assoc. split; [done|]. by apply all_at_app.
Qed.

Lemma emits_at_try_catch {A} (m handler : M A) :
  emits_at I P m -> emits_at I P handler -> emits_at I P (try_catch m handler).
Proof.
  intros Hm Hh h0 pre Hpre. unfold try_catch.
  destruct (Hm h0 pre Hpre) as (t & Ht & HP).
  destruct (m (h0 ++ pre)%list) as [[a| |] h']; simpl in Ht; subst h'; eauto.
  destruct (Hh h0 (pre ++ t)%list) as (t' & Ht' & HP'); [by apply HI|].
  rewrite app_assoc in Ht'. exists (t ++ t')%list.
  rewrite Ht', <- !app_assoc. split; [done|]. by apply all_at_app.
Qed.

Lemma emits_at_try_finally {A} (m : M A) (fin : M unit) :
  emits_at I P m -> emits_at I P fin -> emits_at I P (try_finally m fin).
Proof.
  intros Hm Hf h0 pre Hpre. unfold try_finally.
  destruct (Hm h0 pre Hpre) as (t & Ht & HP).
  destruct (m (h0 ++ pre)%list) as [r h']; simpl in Ht; subst h'.
  destruct (Hf h0 (pre ++ t)%list) as (t' & Ht' & HP'); [by apply HI|].
  rewrite app_assoc in Ht'.
  destruct (fin _) as [[[]| |] h'']; simpl in Ht'; subst h'';
    exists (t ++ t')%list; simpl; rewrite <- !app_assoc; (split; [done|]);
    by apply all_at_app.
Qed.

Lemma emits_at_for_each {A} (l : list A) (body : A -> M unit) :
  (forall x, In x l -> emits_at I P (body x)) -> emits_at I P (for_each l body).
Proof.
  induction l as [|x l IH]; intros H; simpl; [apply emits_at_ret|].
  apply emits_at_bind; [apply H; by left|]. intros _. apply IH.
  intros y Hy. apply H. by right.
Qed.

Lemma emits_at_for_each_st {A S} (l : list A) (body : A -> S -> M S) s :
  (forall x s', In x l -> emits_at I P (body x s')) ->
  emits_at I P (for_each_st l body s).
Proof.
  revert s. induction l as [|x l IH]; intros s H; simpl; [apply emits_at_ret|].
  apply emits_at_bind; [apply H; by left|]. intros s'. apply IH.
  intros y s'' Hy. apply H. by right.
Qed.

(** A computation whose events are fine whatever came before. *)
Lemma emits_at_of_emits {A} (Q : event -> Prop) (m : M A) :
  (forall pre e, Q e -> P pre e) -> emits Q m -> emits_at I P m.
Proof.
  intros HQP Hm h0 pre _. destruct (Hm (h0 ++ pre)%list) as (t & Ht & HQ).
  exists t. split; [done|]. by eapply all_at_Forall.
Qed.

Variable w : world.

(** After a listing, its result is known to what follows. *)
Lemma emits_at_dir_bind {B} p (k : string -> M B) :
  (forall pre r, I pre -> P pre (EDir p r)) ->
  (forall raw, emits_at (fun pre => I pre /\ In (EDir p (Some raw)) pre) P (k raw)) ->
  emits_at I P (bind (dir w p) k).
Proof.
  intros He Hk h0 pre Hpre. unfold bind, dir.
  destruct (smb_dir w (h0 ++ pre)%list p) as [raw|].
  - destruct (Hk raw h0 (snoc pre (EDir p (Some raw)))) as (t & Ht & HP).
    { split; [by apply HI|]. apply in_or_app. right. by left. }
    unfold snoc in *. rewrite app_assoc in Ht.
    exists (EDir p (Some raw) :: t). rewrite Ht, <- !app_assoc. split; [done|].
    simpl. auto.
  - exists [EDir p None]. split; [done|]. simpl. auto.
Qed.

Lemma emits_at_dir p : (forall pre r, I pre -> P pre (EDir p r)) -> emits_at I P (dir w p).
Proof.
  intros He h0 pre Hpre. unfold dir.
  destruct (smb_dir w (h0 ++ pre)%list p); eexists [_]; (split; [done|]);
    simpl; auto.
Qed.

Lemma emits_at_mkdir p :
  (forall pre ok, I pre -> P pre (EMkdir p ok)) -> emits_at I P (mkdir w p).
Proof. intros He h0 pre Hpre. apply emits_at_call; auto. Qed.

Lemma emits_at_rename s t :
  (forall pre ok, I pre -> P pre (ERename s t ok)) -> emits_at I P (rename w s t).
Proof. intros He h0 pre Hpre. apply emits_at_call; auto. Qed.

Lemma emits_at_getFile r l :
  (forall pre ok, I pre -> P pre (EGetFile r l ok)) -> emits_at I P (getFile w r l).
Proof. intros He h0 pre Hpre. apply emits_at_call; auto. Qed.

Lemma emits_at_sendFile l r :
  (forall pre ok, I pre -> P pre (ESendFile l r ok)) ->
  emits_at I P (sendFile w l r).
Proof. intros He h0 pre Hpre. apply emits_at_call; auto. Qed.

Lemma emits_at_unlink l :
  (forall pre ok, I pre -> P pre (EUnlink l ok)) -> emits_at I P (unlink w l).
Proof. intros He h0 pre Hpre. apply emits_at_call; auto. Qed.

Lemma emits_at_exifWrite l v :
  (forall pre ok, I pre -> P pre (EExifWrite l v ok)) ->
  emits_at I P (exifWrite w l v).
Proof. intros He h0 pre Hpre. apply emits_at_call; auto. Qed.

Lemma emits_at_readFile l :
  (forall pre r, I pre -> P pre (EReadFile l r)) -> emits_at I P (readFile w l).
Proof.
  intros He h0 pre Hpre. unfold readFile.
  destruct (fs_readFile w (h0 ++ pre)%list l); eexists [_]; (split; [done|]);
    simpl; auto.
Qed.

Lemma emits_at_exifRead l :
  (forall pre ok, I pre -> P pre (EExifRead l ok)) -> emits_at I P (exifRead w l).
Proof.
  intros He h0 pre Hpre. unfold exifRead.
  destruct (exif_read w (h0 ++ pre)%list l); eexists [_]; (split; [done|]);
    simpl; auto.
Qed.

Lemma emits_at_jsonParse text : emits_at I P (jsonParse w text).
Proof.
  intros h0 pre _. unfold jsonParse. destruct (JSON_parse w text); exists [];
    by rewrite app_nil_r.
Qed.

(** After a log line, it is known to what follows. *)
Lemma emits_at_log_bind {B} msg (k : unit -> M B) :
  (forall pre, I pre -> P pre (ELog msg)) ->
  emits_at (fun pre => I pre /\ In (ELog msg) pre) P (k tt) ->
  emits_at I P (bind (log msg) k).
Proof.
  intros He Hk h0 pre Hpre. unfold bind, log, emit.
  destruct (Hk h0 (snoc pre (ELog msg))) as (t & Ht & HP).
  { split; [by apply HI|]. apply in_or_app. right. by left. }
  unfold snoc in *. rewrite app_assoc in Ht.
  exists (ELog msg :: t). rewrite Ht, <- !app_assoc. split; [done|].
  simpl. auto.
Qed.
End EmitsAt.

Section EmitsAtMore.
Import JS Listing Eff Anchor.

Lemma emits_at_strengthen {A} (I J : history -> Prop) P (m : M A) :
  (forall pre, J pre -> I pre) -> emits_at I P m -> emits_at J P m.
Proof. intros HJI Hm h0 pre Hpre. apply Hm. by apply HJI. Qed.

Lemma emits_at_weaken {A} (I : history -> Prop) (P Q : history -> event -> Prop)
    (m : M A) :
  stable I -> (forall pre e, I pre -> P pre e -> Q pre e) ->
  emits_at I P m -> emits_at I Q m.
Proof.
  intros HI HPQ Hm h0 pre Hpre. destruct (Hm h0 pre Hpre) as (t & Ht & HP).
  exists t. split; [done|]. by eapply all_at_impl.
Qed.

Lemma run_obeys_of_emits_at {A} P (m : M A) :
  emits_at (fun _ => True) P m -> run_obeys P m.
Proof.
  intros Hm h. destruct (Hm h [] I) as (t & Ht & HP).
  rewrite app_nil_r in Ht. eauto.
Qed.

Lemma reached_mono s t pre u ds dt :
  reached s t pre ds dt -> reached s t (pre ++ u)%list ds dt.
Proof.
  induction 1 as [|ds dt line Hr IH Hl Hk Hd]; [constructor|].
  apply reached_sub; [done|by apply listed_mono|done|done].
Qed.

Lemma stable_reached s t ds dt : stable (fun pre => reached s t pre ds dt).
Proof. intros pre u. apply reached_mono. Qed.
End EmitsAtMore.

(** One step of a proof that a script obeys a predicate on its calls:
    follow the structure of the script. *)
Ltac stable_tac :=
  repeat first
    [ apply stable_True | apply stable_and | apply stable_In
    | apply stable_listed | apply stable_reached ].

Ltac at_step :=
  first
    [ apply emits_at_ret | apply emits_at_out_of_fuel | apply emits_at_throw
    | apply emits_at_log_bind; [stable_tac|intros ? ?|]
    | apply emits_at_dir_bind; [stable_tac|intros ? ? ?|intros ?]
    | apply emits_at_bind; [stable_tac| |intros ?]
    | apply emits_at_try_catch; [stable_tac| |]
    | apply emits_at_try_finally; [stable_tac| |]
    | apply emits_at_emit; intros ? ?
    | apply emits_at_call; intros ? ?
    | apply emits_at_dir; intros ? ? ?
    | apply emits_at_mkdir; intros ? ? ?
    | apply emits_at_rename; intros ? ? ?
    | apply emits_at_getFile; intros ? ? ?
    | apply emits_at_sendFile; intros ? ? ?
    | apply emits_at_unlink; intros ? ? ?
    | apply emits_at_exifWrite; intros ? ? ?
    | apply emits_at_readFile; intros ? ? ?
    | apply emits_at_exifRead; intros ? ? ?
    | apply emits_at_jsonParse
    | match goal with
      | |- Anchor.emits_at _ _ (if ?b then _ else _) => destruct b eqn:?
      | |- Anchor.emits_at _ _ (match ?x with _ => _ end) => destruct x eqn:?
      end ].

Section MergeAnchored.
Import JS Listing Eff Anchor.
Variable w : world.

Lemma merge_anchored s0 t0 dry fuel s t :
  emits_at (fun pre => reached s0 t0 pre s t) (merge_call s0 t0)
    (Mover.mergeDirectoryContents dry w fuel s t).
Proof.
  revert s t. induction fuel as [|fuel IH]; intros s t; simpl;
    [apply emits_at_out_of_fuel|].
  apply emits_at_try_catch; [stable_tac| |by apply emits_at_emit].
  apply emits_at_dir_bind; [stable_tac| |].
  { intros pre r Hr. by exists s, t. }
  intros raw.
  apply emits_at_bind; [stable_tac| |intros _].
  { apply emits_at_try_catch; [stable_tac| |apply emits_at_ret].
    apply emits_at_mkdir. intros pre ok [Hr _]. by exists s. }
  apply emits_at_for_each; [stable_tac|].
  intros line [Hin Hk]%filter_In.
  destruct (isDirectory line) eqn:Hd.
  - apply emits_at_bind; [stable_tac|by apply emits_at_emit|intros _].
    eapply emits_at_strengthen; [|apply IH].
    intros pre [Hr Hl]. apply reached_sub; [done| |done|done].
    by exists raw.
  - unfold Mover.move_file. destruct dry; [by apply emits_at_emit|].
    apply emits_at_try_catch; [stable_tac| |by apply emits_at_emit].
    apply emits_at_bind; [stable_tac| |intros _; by apply emits_at_emit].
    apply emits_at_rename. intros pre ok [Hr Hl].
    exists s, t, line. repeat (split; [done|]). split; [by exists raw|done].
Qed.

Lemma merge_call_no_dot s t pre e :
  merge_call s t pre e -> no_dot_call s pre e.
Proof.
  destruct e; cbn [merge_call no_dot_call]; try done.
  - intros (ds & dt & Hr & ->).
    inversion Hr as [|ds' dt' line Hr' Hl Hk Hd]; subst; [by left|].
    right. apply keep_line_merge_iff in Hk as (Hne & _ & Hdot).
    exists ds', line. rewrite startsWith_dot_name by done. done.
  - intros (ds & dt & line & Hr & Hl & Hk & Hd & -> & ->).
    apply keep_line_merge_iff in Hk as (Hne & _ & Hdot).
    exists ds, dt, line. rewrite startsWith_dot_name by done. done.
Qed.
End MergeAnchored.

Section DriversAnchored.
Import JS Listing Eff Anchor.
Variable w : world.

Lemma from_source_mono src pre t folder :
  from_source src pre folder -> from_source src (pre ++ t)%list folder.
Proof.
  intros (raw & Hin & Hf). exists raw. split; [|done]. apply in_or_app. by left.
Qed.

Lemma stable_from_source src folder : stable (fun pre => from_source src pre folder).
Proof. intros pre t. apply from_source_mono. Qed.

Lemma move_contents_anchored dry folder :
  emits_at (fun pre => from_source FirstMover.REMOTE_SOURCE_PATH pre folder)
    flat_call
    (Mover.moveRemoteContents dry w (flat_photos folder)
       FirstMover.REMOTE_TARGET_PATH).
Proof.
  pose proof (stable_from_source FirstMover.REMOTE_SOURCE_PATH folder) as Hst.
  unfold Mover.moveRemoteContents.
  apply emits_at_try_catch; [done| |by apply emits_at_emit].
  apply emits_at_dir_bind; [done| |].
  { intros pre r Hf. right. exists folder. auto. }
  intros raw.
  assert (stable (fun pre => from_source FirstMover.REMOTE_SOURCE_PATH pre folder /\
                             In (EDir (remote_join (flat_photos folder) "*")
                                      (Some raw)) pre)) as Hst'.
  { apply stable_and; [done|apply stable_In]. }
  apply emits_at_for_each; [done|].
  intros line [Hin Hk]%filter_In.
  destruct (is_dot_entry (entryName line)) eqn:Hdot; [by apply emits_at_ret|].
  apply emits_at_bind; [done|by apply emits_at_emit|intros _].
  destruct dry; [by apply emits_at_emit|].
  apply emits_at_try_catch; [done| |by apply emits_at_emit].
  apply emits_at_rename. intros pre ok [Hf Hl].
  exists folder, line. split; [done|]. split; [by exists raw|done].
Qed.

Lemma flat_driver_anchored dry :
  emits_at (fun _ => True) flat_call (FirstMover.reorganizeOnSmb dry w).
Proof.
  unfold FirstMover.reorganizeOnSmb.
  apply emits_at_bind; [stable_tac|by apply emits_at_emit|intros _].
  apply emits_at_bind; [stable_tac| |intros _].
  { destruct dry; [by apply emits_at_emit|by apply emits_at_ret]. }
  apply emits_at_bind; [stable_tac|by apply emits_at_emit|intros _].
  apply emits_at_bind; [stable_tac|by apply emits_at_emit|intros _].
  apply emits_at_try_catch; [stable_tac| |by apply emits_at_emit].
  apply emits_at_bind; [stable_tac| |intros _].
  { apply emits_at_try_catch; [stable_tac| |by apply emits_at_emit].
    apply emits_at_bind; [stable_tac| |intros _; by apply emits_at_emit].
    by apply emits_at_mkdir. }
  apply emits_at_dir_bind; [stable_tac| |].
  { intros pre r _. by left. }
  intros raw.
  destruct (_ =? _)%nat; [by apply emits_at_emit|].
  apply emits_at_bind; [stable_tac|by apply emits_at_emit|intros _].
  apply emits_at_bind; [stable_tac| |intros _; by apply emits_at_emit].
  apply emits_at_for_each; [stable_tac|]. intros folder Hin.
  unfold FirstMover.move_folder.
  eapply emits_at_strengthen with
    (I := fun pre => from_source FirstMover.REMOTE_SOURCE_PATH pre folder).
  { intros pre [_ Hd]. by exists raw. }
  apply emits_at_try_catch; [apply stable_from_source| |by apply emits_at_emit].
  apply emits_at_bind; [apply stable_from_source| |intros _].
  { apply emits_at_dir. intros pre r Hf. right. exists folder. auto. }
  apply emits_at_bind;
    [apply stable_from_source|by apply emits_at_emit|intros _].
  apply move_contents_anchored.
Qed.

Lemma merge_call_batch folder pre e :
  from_source Mover.REMOTE_SOURCE_PATH pre folder ->
  merge_call (photos_of folder) Mover.REMOTE_TARGET_PATH pre e ->
  batch_call pre e.
Proof.
  intros Hf He. destruct e; try done; right; right; exists folder; auto.
Qed.

Lemma merge_driver_anchored dry fuel :
  emits_at (fun _ => True) batch_call (Mover.reorganizeOnSmb dry w fuel).
Proof.
  unfold Mover.reorganizeOnSmb.
  apply emits_at_bind; [stable_tac|by apply emits_at_emit|intros _].
  apply emits_at_bind; [stable_tac| |intros _].
  { destruct dry; [by apply emits_at_emit|by apply emits_at_ret]. }
  apply emits_at_bind; [stable_tac|by apply emits_at_emit|intros _].
  apply emits_at_bind; [stable_tac|by apply emits_at_emit|intros _].
  apply emits_at_try_catch; [stable_tac| |by apply emits_at_emit].
  apply emits_at_bind; [stable_tac| |intros _].
  { apply emits_at_try_catch; [stable_tac| |by apply emits_at_emit].
    apply emits_at_bind; [stable_tac| |intros _; by apply emits_at_emit].
    apply emits_at_mkdir. intros pre ok _. right. left. eauto. }
  apply emits_at_dir_bind; [stable_tac| |].
  { intros pre r _. left. eauto. }
  intros raw.
  destruct (_ =? _)%nat; [by apply emits_at_emit|].
  apply emits_at_bind; [stable_tac|by apply emits_at_emit|intros _].
  apply emits_at_bind; [stable_tac| |intros _; by apply emits_at_emit].
  apply emits_at_for_each; [stable_tac|]. intros folder Hin.
  eapply emits_at_strengthen with
    (I := fun pre => from_source Mover.REMOTE_SOURCE_PATH pre folder).
  { intros pre [_ Hd]. by exists raw. }
  apply emits_at_try_catch; [apply stable_from_source| |by apply emits_at_emit].
  apply emits_at_bind; [apply stable_from_source| |intros _].
  { apply emits_at_dir. intros pre r Hf. right. right. exists folder.
    split; [done|]. left. eauto. }
  apply emits_at_bind;
    [apply stable_from_source|by apply emits_at_emit|intros _].
  eapply emits_at_weaken; [apply stable_from_source| |].
  { intros pre e Hf. by apply merge_call_batch. }
  eapply emits_at_strengthen with
    (I := fun pre => reached (photos_of folder) Mover.REMOTE_TARGET_PATH pre
                       (photos_of folder) Mover.REMOTE_TARGET_PATH).
  { intros pre _. constructor. }
  apply merge_anchored.
Qed.
End DriversAnchored.

(** X2: the recursive mover mirrors the source tree in the target.  In
    any run, every directory it lists is one it has reached (the source,
    or the entry of a kept directory line of a listing it obtained, below
    a directory it had reached), every directory it creates is the mirror
    of one it has reached, and every move takes the entry of a kept file
    line of a listing it obtained to the same name in the mirror of the
    directory listed; it transfers no file content. *)
Theorem merge_mirrors_tree (dry : bool) (w : Eff.world) (fuel : nat)
    (s t : string) :
  Anchor.run_obeys (Anchor.merge_call s t)
    (Mover.mergeDirectoryContents dry w fuel s t).
Proof.
  apply run_obeys_of_emits_at.
  eapply emits_at_strengthen; [|apply merge_anchored]. intros pre _. constructor.
Qed.

(** X10: the batch driver of the first mover script always completes.
    In any run, the only directory it creates is the consolidated target;
    it lists the source, and the photo folder of folders taken from a
    listing of the source obtained in the run (the directory lines whose
    name starts with Takeout); and every move it attempts takes the entry
    of a line of a listing of such a photo folder obtained in the run,
    other than [.] and [..], from that photo folder to the same name
    directly in the consolidated target.  It makes no other call. *)
Theorem flat_driver_moves (dry : bool) (w : Eff.world) (h : Eff.history) :
  fst (FirstMover.reorganizeOnSmb dry w h) = Eff.Ok tt /\
  Anchor.run_obeys Anchor.flat_call (FirstMover.reorganizeOnSmb dry w).
Proof.
  split.
  - apply ok_of_total.
    + unfold FirstMover.reorganizeOnSmb, FirstMover.move_folder, Eff.log, Eff.error.
      repeat total_step. apply total_for_each. intros folder.
      repeat (apply move_contents_total || total_step).
    + unfold FirstMover.reorganizeOnSmb, Eff.log, Eff.error. repeat nt_step.
  - apply run_obeys_of_emits_at, flat_driver_anchored.
Qed.

(** X3: the batch driver of the recursive mover never lets an error
    escape.  In any run, apart from creating the consolidated target and
    listing the source, every remote call belongs to a folder taken from a
    listing of the source obtained in the run (a directory line whose name
    starts with Takeout): it probes the photo folder of that folder, or is
    a call of the merge of that photo folder into the consolidated target,
    on directories reached and lines listed in the run. *)
Theorem merge_driver_contained (dry : bool) (w : Eff.world) (fuel : nat) :
  Trace.never_throws (Mover.reorganizeOnSmb dry w fuel) /\
  Anchor.run_obeys Anchor.batch_call (Mover.reorganizeOnSmb dry w fuel).
Proof.
  split.
  - unfold Mover.reorganizeOnSmb, Eff.log, Eff.error. repeat nt_step.
  - apply run_obeys_of_emits_at, merge_driver_anchored.
Qed.

(** ** The share: hidden entries *)

Section ShareHidden.
Import Share Conserve.
Local Open Scope list_scope.
Implicit Types (σ : gmap (list string) kind) (S T p q d : list string).
Implicit Types (n : string) (k : kind) (e : string * kind).

Lemma only_visible_refl S T σ : only_visible S T σ σ.
Proof. by intros q Hq. Qed.

Lemma only_visible_trans S T σ1 σ2 σ3 :
  only_visible S T σ1 σ2 -> only_visible S T σ2 σ3 -> only_visible S T σ1 σ3.
Proof.
  intros H12 H23 q Hq.
  destruct (decide (σ2 !! q = σ1 !! q)) as [E|Hne]; [|by apply H12].
  apply H23. by rewrite E.
Qed.

Lemma only_visible_child S T n σ σ' :
  visible n = true ->
  only_visible (S ++ [n]) (T ++ [n]) σ σ' -> only_visible S T σ σ'.
Proof.
  intros Hn H q Hq. destruct (H q Hq) as (rel & Hrel & Hq').
  exists (n :: rel). split; [by constructor|].
  by rewrite <- !app_assoc in Hq'.
Qed.

Lemma only_visible_mkdir S T σ : only_visible S T σ (mkdir_st σ T).
Proof.
  intros q. rewrite mkdir_st_lookup. destruct (mkdir_ok σ T); [|done].
  destruct (decide (q = T)) as [->|]; [|done].
  intros _. exists []. split; [done|]. right. by rewrite app_nil_r.
Qed.

Lemma only_visible_rename S T n σ :
  visible n = true ->
  only_visible S T σ (rename_st σ (S ++ [n]) (T ++ [n])).
Proof.
  intros Hn q. rewrite rename_st_lookup. destruct (rename_ok σ _ _); [|done].
  destruct (decide (q = T ++ [n])) as [->|].
  { intros _. exists [n]. split; [by constructor|by right]. }
  destruct (decide (q = S ++ [n])) as [->|]; [|done].
  intros _. exists [n]. split; [by constructor|by left].
Qed.

Lemma sem_only_visible fuel σ S T σ' :
  sem fuel σ S T = Some σ' -> only_visible S T σ σ'.
Proof.
  revert σ S T σ'. induction fuel as [|fuel IH]; intros σ S T σ'; [done|].
  simpl. destruct (is_dir σ S); [|intros [= <-]; apply only_visible_refl].
  intros Hf. eapply only_visible_trans; [apply only_visible_mkdir|].
  revert Hf. generalize (mkdir_st σ T).
  assert (Forall (fun e => visible e.1 = true)
            (List.filter (fun e => visible e.1) (children σ S))) as Hvis.
  { apply Forall_forall. by intros e [_ ?]%list_elem_of_In%filter_In. }
  induction Hvis as [|[n k] es Hn Hes IHes]; intros σa; simpl.
  - intros [= <-]. apply only_visible_refl.
  - destruct (step (sem fuel) S T σa (n, k)) as [σm|] eqn:Hs; [|done].
    intros Hf. eapply only_visible_trans; [|by apply IHes].
    revert Hs. unfold step. simpl in *. destruct k.
    + intros [= <-]. by apply only_visible_rename.
    + intros Hs. eapply only_visible_child; [done|]. by eapply IH.
Qed.

Lemma hidden_not_visible rel rel' :
  Exists (fun n => visible n = false) rel ->
  Forall (fun n => visible n = true) rel' -> rel <> rel'.
Proof.
  intros Hex Hall ->. apply Exists_exists in Hex as (n & Hin & Hn).
  rewrite Forall_forall in Hall. specialize (Hall n Hin). congruence.
Qed.

Lemma only_visible_hidden S T σ σ' rel :
  disj S T -> only_visible S T σ σ' ->
  Exists (fun n => visible n = false) rel ->
  σ' !! (S ++ rel) = σ !! (S ++ rel) /\ σ' !! (T ++ rel) = σ !! (T ++ rel).
Proof.
  intros Hd Hov Hex. split.
  - destruct (decide (σ' !! (S ++ rel) = σ !! (S ++ rel))) as [|Hne]; [done|].
    destruct (Hov _ Hne) as (rel' & Hall & [Heq|Heq]).
    + apply app_inv_head in Heq. by eapply hidden_not_visible in Heq.
    + exfalso. apply (disj_no_common S T (S ++ rel)); [done|by exists rel|].
      rewrite Heq. by exists rel'.
  - destruct (decide (σ' !! (T ++ rel) = σ !! (T ++ rel))) as [|Hne]; [done|].
    destruct (Hov _ Hne) as (rel' & Hall & [Heq|Heq]).
    + exfalso. apply (disj_no_common S T (T ++ rel)); [done| |by exists rel].
      rewrite Heq. by exists rel'.
    + apply app_inv_head in Heq. by eapply hidden_not_visible in Heq.
Qed.
End ShareHidden.

(** C9: in the recursive mover a listing line whose trimmed text starts
    with a dot is not among the lines walked by the loop, and no entry
    that is walked has a name starting with a dot.  In any run, dry or
    not, every move takes the entry of a line of a listing obtained in
    that run, from the directory listed, and every directory listed is
    the source or the entry of such a line, where the trimmed line and
    the name do not start with a dot.  On a share whose names are good
    names, after a run that completed, nothing has changed at any path of
    the source or of the target that has a name starting with a dot below
    it: a dot entry is neither moved nor entered. *)
Theorem C9_dot_entries_excluded (raw : string) (dry : bool) (w : Eff.world)
    (fuel : nat) (sourceDir targetDir : string) :
  Forall (fun line => JS.startsWith (JS.trim line) "." = false)
         (Listing.listing_lines_merge raw) /\
  Forall (fun e => JS.startsWith (Listing.name e) "." = false)
         (Listing.merge_entries raw) /\
  Anchor.run_obeys (Anchor.no_dot_call sourceDir)
    (Mover.mergeDirectoryContents dry w fuel sourceDir targetDir) /\
  (forall (σ0 : gmap (list string) Share.kind) (S T rel : list string),
     Share.share_ok σ0 S T = true ->
     let run := Mover.mergeDirectoryContents false (Share.share_world σ0) fuel
                  (JS.join_slash S) (JS.join_slash T) in
     fst (run []) = Eff.Ok tt ->
     Exists (fun n => Share.visible n = false) rel ->
     let σ1 := Share.state_of σ0 (snd (run [])) in
     σ1 !! (S ++ rel)%list = σ0 !! (S ++ rel)%list /\
     σ1 !! (T ++ rel)%list = σ0 !! (T ++ rel)%list).
Proof.
  destruct (dot_entries_excluded raw) as [H1 H2].
  split; [done|]. split; [done|]. split.
  - apply run_obeys_of_emits_at.
    eapply emits_at_weaken; [apply stable_True| |].
    { intros pre e _. apply merge_call_no_dot. }
    eapply emits_at_strengthen;
      [|apply (merge_anchored w sourceDir targetDir dry fuel sourceDir targetDir)].
    intros pre _. constructor.
  - intros σ0 S T rel Hok run Hrun Hex σ1.
    destruct (merge_run_sem σ0 S T fuel Hok Hrun) as [Hd Hsem].
    apply only_visible_hidden; [done| |done]. by eapply sem_only_visible.
Qed.

(** ** The renamer: what is staged, what is known *)

Section Staged.
Import JS Listing Eff Trace Renamer.
Variable w : world.

Lemma yields_ret {A} (Q : A -> Prop) a : Q a -> yields Q (ret a).
Proof. by intros H h a' h' [= <- _]. Qed.

Lemma yields_out_of_fuel {A} (Q : A -> Prop) : yields Q out_of_fuel.
Proof. by intros h a h'. Qed.

Lemma yields_bind {A B} (Q : B -> Prop) (m : M A) (k : A -> M B) :
  (forall a, yields Q (k a)) -> yields Q (bind m k).
Proof.
  intros Hk h b h'. unfold bind. destruct (m h) as [[a| |] h1]; try done.
  apply Hk.
Qed.

Lemma yields_try_catch {A} (Q : A -> Prop) (m handler : M A) :
  yields Q m -> yields Q handler -> yields Q (try_catch m handler).
Proof.
  intros Hm Hh h a h'. unfold try_catch.
  destruct (m h) as [[a1| |] h1] eqn:E; try done.
  - intros [= <- <-]. by eapply Hm.
  - apply Hh.
Qed.

Lemma yields_try_finally {A} (Q : A -> Prop) (m : M A) fin :
  yields Q m -> yields Q (try_finally m fin).
Proof.
  intros Hm h a h'. unfold try_finally.
  destruct (m h) as [r h1] eqn:E.
  destruct (fin h1) as [[[]| |] h2]; try done.
  intros [= -> _]. by eapply Hm.
Qed.
End Staged.

Ltac yields_step :=
  first
    [ apply yields_ret | apply yields_out_of_fuel
    | apply yields_bind; intros ?
    | apply yields_try_catch
    | apply yields_try_finally
    | match goal with
      | |- Trace.yields _ (if ?b then _ else _) => destruct b eqn:?
      | |- Trace.yields _ (match ?x with _ => _ end) => destruct x eqn:?
      end ].

Section Known.
Import JS Listing Eff Trace Renamer.
Variable w : world.

(** One entry adds at most one name, a new one, and none in a dry run. *)
Lemma process_entry_known dry recurse src tgt fileNames skip line existing :
  yields (fun e' => e' = existing \/
                    (dry = false /\
                     exists n, (n ∉ existing) /\ e' = existing ∪ {[ n ]}))
    (process_entry dry w recurse src tgt fileNames skip line existing).
Proof.
  unfold process_entry, process_file, copy_as_is, rename_and_send.
  repeat yields_step; try (by left).
  right. split; [done|]. eexists. split; [|done]. by apply has_false_not_in.
Qed.
End Known.

(** X15: over the entries of one directory, the names the renamer holds
    as known only grow, by at most one name per entry, and in a dry run
    they do not change at all. *)
Theorem known_names_only_grow (dry : bool) (w : Eff.world)
    (recurse : string -> string -> Eff.M unit) (src tgt : string)
    (fileNames : list string) (skip : gset string) (lines : list string)
    (existing : gset string) :
  Trace.yields
    (fun known => existing ⊆ known /\
                  size known <= size existing + List.length lines /\
                  (dry = true -> known = existing))
    (Eff.for_each_st lines
       (Renamer.process_entry dry w recurse src tgt fileNames skip) existing).
Proof.
  revert existing. induction lines as [|line lines IH]; intros existing; simpl.
  { apply yields_ret. split; [done|]. split; [lia|done]. }
  intros h known h'. unfold Eff.bind.
  destruct (Renamer.process_entry _ _ _ _ _ _ _ _ _ h) as [[e1| |] h1] eqn:E1;
    try done.
  intros Hrest. apply IH in Hrest as (Hsub & Hsize & Hdry).
  apply process_entry_known in E1 as [->|(Hd & n & Hn & ->)].
  - split; [exact Hsub|]. split; [clear -Hsize; lia|exact Hdry].
  - split; [by etrans; [apply union_subseteq_l|exact Hsub]|].
    split; [|intros Ht; congruence].
    rewrite size_union, size_singleton in Hsize by (by apply disjoint_singleton_r).
    clear -Hsize. lia.
Qed.

(** X16: the name chosen for an upload is the first free one in the
    order base.ext, base(1).ext, base(2).ext, ...: it is not a known
    name, and every name before it in that order is known. *)
Theorem free_name_first_free (existing : gset string) (base ext : string) :
  exists n,
    Renamer.free_name existing base ext = Some n /\
    (n ∉ existing) /\
    (n = base +:+ "." +:+ ext \/
     (base +:+ "." +:+ ext ∈ existing /\
      exists k, (1 <= k)%N /\ n = Renamer.candidate base ext k /\
        forall j, (1 <= j < k)%N -> Renamer.candidate base ext j ∈ existing)).
Proof.
  destruct (free_name_found existing base ext) as (n & Hn & Hfree & _).
  exists n. split; [done|]. split; [by apply has_false_not_in|].
  unfold Renamer.free_name in Hn.
  apply suffix_loop_first in Hn as [[-> _]|(Hc & k & Hk & -> & _ & Hall)];
    [by left|right].
  split; [by apply bool_decide_eq_true in Hc|].
  exists k. split; [done|]. split; [done|].
  intros j Hj. specialize (Hall j Hj). by apply bool_decide_eq_true in Hall.
Qed.

(** ** The renamer: directories that cannot be listed *)

Section Unlistable.
Import JS Listing Eff Trace Renamer.
Variable dry : bool.
Variable w : world.

Lemma init_target_ok t h :
  exists known h', init_target dry w t h = (Ok known, h').
Proof.
  unfold init_target, try_catch, bind at 1, dir.
  destruct (smb_dir w h (remote_join t "*")); [unfold ret; eauto|].
  rewrite bind_log. destruct dry; simpl.
  - unfold bind, ret. eauto.
  - unfold try_catch, mkdir, call, bind, ret.
    destruct (smb_mkdir w _ t); eauto.
Qed.

Lemma processDirectory_unlistable fuel s t h :
  (forall h', smb_dir w h' (remote_join s "*") = None) ->
  fst (processDirectory dry w (S fuel) s t h) = Throw.
Proof.
  intros Hdir. simpl. rewrite !bind_log. unfold bind at 1.
  destruct (init_target_ok t (snoc (snoc h (ELog (nl +:+ "Processing source: " +:+ s)))
                                   (ELog ("Writing to target: " +:+ t))))
    as (known & h' & ->).
  unfold bind, dir. by rewrite Hdir.
Qed.

Lemma subdir_throws fuel src tgt fileNames skip line existing h :
  subdir_line line = true ->
  (forall h', smb_dir w h' (remote_join (remote_join src (entryName line)) "*")
              = None) ->
  fst (process_entry dry w (processDirectory dry w (S fuel)) src tgt fileNames
         skip line existing h) = Throw.
Proof.
  intros [Hd Hn%negb_true_iff]%andb_true_iff Hdir.
  unfold process_entry. rewrite Hd, Hn. unfold bind.
  pose proof (processDirectory_unlistable fuel
                (remote_join src (entryName line))
                (remote_join tgt (entryName line)) h Hdir) as Hthrow.
  by destruct (processDirectory _ _ _ _ _ h) as [[[]| |] h'].
Qed.
End Unlistable.

(** X18: unlike the failure of a file, the failure to list a
    subdirectory is not contained: when the entries before it are files,
    the loop over the directory ends by the error at that subdirectory,
    and the entries after it are never looked at. *)
Theorem unlistable_subdirectory_aborts (dry : bool) (w : Eff.world) (fuel : nat)
    (src tgt : string) (fileNames : list string) (skip : gset string)
    (before : list string) (line : string) (after : list string)
    (existing : gset string) (h : Eff.history) :
  Renamer.subdir_line line = true ->
  forallb (fun l => negb (Renamer.subdir_line l)) before = true ->
  (forall h', Eff.smb_dir w h'
                (JS.remote_join (JS.remote_join src (Listing.entryName line)) "*")
              = None) ->
  let body := Renamer.process_entry dry w (Renamer.processDirectory dry w (S fuel))
                src tgt fileNames skip in
  exists h',
    Eff.for_each_st (before ++ line :: after) body existing h = (Eff.Throw, h') /\
    Eff.for_each_st (before ++ [line]) body existing h = (Eff.Throw, h').
Proof.
  intros Hline Hbefore Hdir body.
  destruct (loop_ok dry w (Renamer.processDirectory dry w (S fuel)) src tgt
              fileNames skip before existing h Hbefore) as (s1 & h1 & H1).
  pose proof (subdir_throws dry w fuel src tgt fileNames skip line s1 h1
                Hline Hdir) as Hthrow.
  fold body in H1, Hthrow.
  destruct (body line s1 h1) as [[e'| |] h'] eqn:E; try done.
  exists h'. rewrite !for_each_st_app, H1. simpl. unfold Eff.bind.
  by rewrite E.
Qed.

(** ** The renamer: originals of edited entries *)

Section Edited.
Import JS Listing Eff Trace Renamer.

Lemma uniq_In x l : In x (uniq l) <-> In x l.
Proof.
  induction l as [|y l IH]; simpl; [done|].
  rewrite filter_In, IH, negb_true_iff, String.eqb_neq.
  destruct (decide (y = x)) as [->|Hne]; [tauto|].
  split; [intros [?|[? _]]; auto|intros [?|?]; auto].
Qed.

Lemma original_in_skip (names : list string) (edited : string) :
  In edited names ->
  includes (toLowerCase edited) "-edited" = true ->
  has (originalsToSkip (uniq names)) (remove_first_ci "-edited" edited) = true.
Proof.
  intros Hin Hed. unfold has, originalsToSkip. apply bool_decide_eq_true.
  apply elem_of_list_to_set, list_elem_of_In, in_map_iff.
  exists edited. split; [done|]. apply filter_In. split; [|done].
  by apply uniq_In.
Qed.
End Edited.

(** X19: an entry whose name is the name of a listed entry with its first
    [-edited] (in any letter case) removed is skipped with a log line
    and nothing else: no download, no upload, no change of the known
    names. *)
Theorem original_of_edited_is_skipped (dry : bool) (w : Eff.world)
    (recurse : string -> string -> Eff.M unit) (src tgt : string)
    (lines : list string) (edited line : string) (existing : gset string)
    (h : Eff.history) :
  In edited lines ->
  JS.includes (JS.toLowerCase (Listing.entryName edited)) "-edited" = true ->
  Listing.entryName line
  = JS.remove_first_ci "-edited" (Listing.entryName edited) ->
  Listing.isDirectory line = false ->
  let fileNames := Renamer.uniq (List.map Listing.entryName lines) in
  Renamer.process_entry dry w recurse src tgt fileNames
    (Renamer.originalsToSkip fileNames) line existing h
  = (Eff.Ok existing,
     (h ++ [Eff.ELog ("- Skipping original with edited version: " +:+
                      Listing.entryName line)])%list).
Proof.
  intros Hin Hed Hname Hdir fileNames.
  assert (Renamer.has (Renamer.originalsToSkip fileNames) (Listing.entryName line)
          = true) as Hskip.
  { rewrite Hname. apply original_in_skip; [|done]. apply in_map_iff. eauto. }
  unfold Renamer.process_entry. rewrite Hdir, Hskip, orb_true_r. reflexivity.
Qed.

(** ** The renamer, call by call *)

Section RenamerAnchored.
Import JS Listing Eff Anchor Renamer.
Variable w : world.

Lemma visited_mono s t pre u ds dt :
  visited s t pre ds dt -> visited s t (pre ++ u)%list ds dt.
Proof.
  induction 1 as [|ds dt line Hr IH Hl Hk Hd Hdot]; [constructor|].
  apply visited_sub; [done|by apply listed_mono|done|done|done].
Qed.

Lemma stable_visited s t ds dt : stable (fun pre => visited s t pre ds dt).
Proof. intros pre u. apply visited_mono. Qed.

Lemma sidecar_listed raw entry json :
  truthy (List.find (fun f => startsWith f entry && endsWith f ".json")
            (uniq (List.map entryName (listing_lines raw)))) = Some json ->
  exists line, In line (split_nl raw) /\ keep_line line = true /\
               entryName line = json.
Proof.
  intros Ht. assert (List.find (fun f => startsWith f entry && endsWith f ".json")
            (uniq (List.map entryName (listing_lines raw))) = Some json) as Hf.
  { destruct (List.find _ _) as [[|a x]|]; simpl in Ht; congruence. }
  apply find_some in Hf as [Hin _]. apply uniq_In, in_map_iff in Hin.
  destruct Hin as (line & Hn & [Hin Hk]%filter_In). eauto.
Qed.

Lemma renamer_anchored s0 t0 dry fuel s t :
  emits_at (fun pre => visited s0 t0 pre s t) (renamer_call w s0 t0)
    (processDirectory dry w fuel s t).
Proof.
  revert s t. induction fuel as [|fuel IH]; intros s t; simpl;
    [apply emits_at_out_of_fuel|].
  pose proof (stable_visited s0 t0 s t) as Hst.
  apply emits_at_bind; [done|by apply emits_at_emit|intros _].
  apply emits_at_bind; [done|by apply emits_at_emit|intros _].
  apply emits_at_bind; [done| |intros existing].
  { unfold init_target.
    apply emits_at_try_catch; [done| |].
    - apply emits_at_bind; [done| |intros ?; by apply emits_at_ret].
      apply emits_at_dir. intros pre r Hv. exists s, t. auto.
    - apply emits_at_bind; [done|by apply emits_at_emit|intros _].
      apply emits_at_bind; [done| |intros _; by apply emits_at_ret].
      destruct (negb dry); [|by apply emits_at_ret].
      apply emits_at_try_catch; [done| |by apply emits_at_ret].
      apply emits_at_mkdir. intros pre ok Hv. by exists s. }
  apply emits_at_dir_bind; [done| |].
  { intros pre r Hv. exists s, t. auto. }
  intros raw.
  set (J := fun pre => visited s0 t0 pre s t /\
                       In (EDir (remote_join s "*") (Some raw)) pre).
  assert (stable J) as HJ by (apply stable_and; [done|apply stable_In]).
  apply emits_at_bind; [done| |intros ?; by apply emits_at_ret].
  apply emits_at_for_each_st; [done|].
  intros line ex [Hin Hk]%filter_In. unfold process_entry.
  destruct (isDirectory line) eqn:Hd.
  { destruct (is_dot_entry (entryName line)) eqn:Hdot; [by apply emits_at_ret|].
    apply emits_at_bind; [done| |intros _; by apply emits_at_ret].
    eapply emits_at_strengthen; [|apply IH].
    intros pre [Hv Hl]. apply visited_sub; [done|by exists raw|done|done|done]. }
  destruct (endsWith (toLowerCase (entryName line)) ".json") eqn:Hjson; simpl.
  { apply emits_at_bind; [done| |intros _; by apply emits_at_ret].
    destruct (has _ _); by apply emits_at_emit. }
  destruct (has (originalsToSkip _) (entryName line)) eqn:Hskip.
  { apply emits_at_bind; [done| |intros _; by apply emits_at_ret].
    by apply emits_at_emit. }
  assert (forall pre, J pre -> media_line pre s line) as Hmedia.
  { intros pre [Hv Hl]. split; [by exists raw|done]. }
  assert (forall pre, J pre -> listed pre s line) as Hlisted.
  { intros pre [Hv Hl]. by exists raw. }
  apply emits_at_try_finally; [done| |].
  2:{ apply emits_at_try_catch; [done| |by apply emits_at_ret].
      apply emits_at_unlink. intros pre ok HJp. exists s, line. auto. }
  apply emits_at_try_catch; [done| |].
  2:{ apply emits_at_bind; [done|by apply emits_at_emit|intros _].
      by apply emits_at_ret. }
  unfold process_file.
  apply emits_at_bind; [done| |intros _].
  { apply emits_at_getFile. intros pre ok HJp. exists s, t, line.
    destruct HJp as [Hv Hl]. split; [done|]. split; [by exists raw|done]. }
  destruct (truthy (List.find _ _)) as [json|] eqn:Hfind.
  - apply sidecar_listed in Hfind as (jline & Hjin & Hjk & <-).
    apply emits_at_bind; [done| |intros _].
    { apply emits_at_getFile. intros pre ok [Hv Hl]. exists s, t, jline.
      split; [done|]. split; [by exists raw|done]. }
    apply emits_at_bind; [done| |intros text].
    { apply emits_at_readFile. intros pre r [Hv Hl]. exists s, jline.
      split; [by exists raw|done]. }
    apply emits_at_bind; [done|apply emits_at_jsonParse|intros parsed].
    apply emits_at_bind; [done| |intros _].
    { apply emits_at_unlink. intros pre r [Hv Hl]. exists s, jline.
      split; [by exists raw|done]. }
    destruct parsed as [m|]; [|by apply emits_at_throw].
    destruct (truthy (pick_timestamp m)) as [ts|].
    2:{ apply emits_at_bind; [done|by apply emits_at_emit|intros _].
        by apply emits_at_ret. }
    unfold rename_and_send.
    apply emits_at_bind; [done| |intros fileTags].
    { apply emits_at_exifRead. intros pre ok HJp. exists s, line. auto. }
    destruct (free_name _ _ _) as [n|]; [|by apply emits_at_out_of_fuel].
    destruct (has ex n).
    { apply emits_at_bind; [done|by apply emits_at_emit|intros _].
      by apply emits_at_ret. }
    apply emits_at_log_bind; [done|done|].
    match goal with
    | |- emits_at ?K _ _ =>
        assert (stable K) as HK by (apply stable_and; [done|apply stable_In])
    end.
    destruct dry.
    { apply emits_at_bind; [done|by apply emits_at_emit|intros _].
      by apply emits_at_ret. }
    apply emits_at_bind; [done| |intros _].
    { apply emits_at_exifWrite. intros pre ok [HJp _]. exists s, line. auto. }
    apply emits_at_bind; [done| |intros _].
    { apply emits_at_sendFile. intros pre ok [HJp Hlog].
      exists s, t, line, n. destruct HJp as [Hv Hl].
      split; [done|]. split; [by apply Hmedia|]. auto. }
    apply emits_at_bind; [done|by apply emits_at_emit|intros _].
    by apply emits_at_ret.
  - unfold copy_as_is.
    apply emits_at_bind; [done|by apply emits_at_emit|intros _].
    destruct (has ex (entryName line)).
    { apply emits_at_bind; [done|by apply emits_at_emit|intros _].
      by apply emits_at_ret. }
    apply emits_at_bind; [done| |intros _; by apply emits_at_ret].
    destruct dry; [by apply emits_at_emit|].
    apply emits_at_bind; [done| |intros _; by apply emits_at_emit].
    apply emits_at_sendFile. intros pre ok HJp.
    exists s, t, line, (entryName line). destruct HJp as [Hv Hl].
    split; [done|]. split; [by apply Hmedia|]. auto.
Qed.

Lemma renamer_call_no_sidecar s t pre e :
  renamer_call w s t pre e -> no_sidecar_call w pre e.
Proof.
  destruct e; cbn [renamer_call no_sidecar_call]; try done.
  intros (ds & dt & line & n & _ & Hm & -> & _). by exists ds, line.
Qed.

Lemma process_file_fresh dry src tgt fileNames entry sp tmp existing :
  emits_at (fun _ => True) (fresh_call tgt entry existing)
    (process_file dry w src tgt fileNames entry sp tmp existing).
Proof.
  pose proof stable_True as Hst.
  unfold process_file.
  apply emits_at_bind; [done|by apply emits_at_getFile|intros _].
  destruct (truthy (List.find _ _)) as [json|].
  - apply emits_at_bind; [done|by apply emits_at_getFile|intros _].
    apply emits_at_bind; [done|by apply emits_at_readFile|intros text].
    apply emits_at_bind; [done|apply emits_at_jsonParse|intros parsed].
    apply emits_at_bind; [done|by apply emits_at_unlink|intros _].
    destruct parsed as [m|]; [|by apply emits_at_throw].
    destruct (truthy (pick_timestamp m)) as [ts|].
    2:{ apply emits_at_bind; [done|by apply emits_at_emit|intros _].
        by apply emits_at_ret. }
    unfold rename_and_send.
    apply emits_at_bind; [done|by apply emits_at_exifRead|intros fileTags].
    destruct (free_name _ _ _) as [n|]; [|by apply emits_at_out_of_fuel].
    destruct (has existing n) eqn:Hn.
    { apply emits_at_bind; [done|by apply emits_at_emit|intros _].
      by apply emits_at_ret. }
    apply emits_at_log_bind; [done|done|].
    match goal with
    | |- emits_at ?K _ _ =>
        assert (stable K) as HK by (apply stable_and; [done|apply stable_In])
    end.
    destruct dry.
    { apply emits_at_bind; [done|by apply emits_at_emit|intros _].
      by apply emits_at_ret. }
    apply emits_at_bind; [done|by apply emits_at_exifWrite|intros _].
    apply emits_at_bind; [done| |intros _].
    { apply emits_at_sendFile. intros pre ok [_ Hlog]. exists n.
      split; [done|]. split; [by apply has_false_not_in|by right]. }
    apply emits_at_bind; [done|by apply emits_at_emit|intros _].
    by apply emits_at_ret.
  - unfold copy_as_is.
    apply emits_at_bind; [done|by apply emits_at_emit|intros _].
    destruct (has existing entry) eqn:Hn.
    { apply emits_at_bind; [done|by apply emits_at_emit|intros _].
      by apply emits_at_ret. }
    apply emits_at_bind; [done| |intros _; by apply emits_at_ret].
    destruct dry; [by apply emits_at_emit|].
    apply emits_at_bind; [done| |intros _; by apply emits_at_emit].
    apply emits_at_sendFile. intros pre ok _. exists entry.
    split; [done|]. split; [by apply has_false_not_in|by left].
Qed.
End RenamerAnchored.

(** X13: the renamer never moves or renames anything on the share.  In
    any run on [s] and [t] it lists only directories it has reached from
    [s] by directory lines of listings obtained in the run, and their
    mirrors below [t]; it creates only such mirrors; it downloads only the
    entry of a line of a listing of a directory it has reached; and it
    uploads only the local copy of a file line that is no sidecar by name,
    into the mirror of the directory listed, under the name of the entry
    or the new name it has logged for it.  It makes no other remote
    call. *)
Theorem renamer_leaves_source (dry : bool) (w : Eff.world) (fuel : nat)
    (s t : string) :
  Anchor.run_obeys (Anchor.renamer_call w s t)
    (Renamer.processDirectory dry w fuel s t).
Proof.
  apply run_obeys_of_emits_at.
  eapply emits_at_strengthen; [|apply renamer_anchored]. intros pre _. constructor.
Qed.

(** X14: in any run of the renamer, every file it reads tags from, tags
    or uploads is the local copy of the entry of a file line, of a listing
    obtained in the run, whose name does not end in [.json] in any letter
    case: a sidecar is read, but never tagged and never uploaded. *)
Theorem sidecars_never_uploaded (dry : bool) (w : Eff.world) (fuel : nat)
    (s t : string) :
  Anchor.run_obeys (Anchor.no_sidecar_call w)
    (Renamer.processDirectory dry w fuel s t).
Proof.
  apply run_obeys_of_emits_at.
  eapply emits_at_weaken; [apply stable_True| |].
  { intros pre e _. apply (renamer_call_no_sidecar w s t). }
  eapply emits_at_strengthen; [|apply (renamer_anchored w s t dry fuel s t)].
  intros pre _. constructor.
Qed.

(** X17: no upload of the renamer goes to a name it holds as known in
    the target at that moment: processing one entry, an upload goes to
    the target directory under the name of the entry, or under the new
    name logged for the entry just before, and that name is not among the
    known names. *)
Theorem upload_avoids_known_names (dry : bool) (w : Eff.world)
    (src tgt : string) (fileNames : list string)
    (entry sourcePath tmp : string) (existing : gset string) :
  Anchor.run_obeys (Anchor.fresh_call tgt entry existing)
    (Renamer.process_file dry w src tgt fileNames entry sourcePath tmp existing).
Proof. apply run_obeys_of_emits_at, process_file_fresh. Qed.

(** ** The renamer: timestamps that are no dates *)

(** X20: a timestamp that does not start with a number, or lies beyond
    the range of dates, is not rejected: the file is given the name
    NaN-NaN-NaN_NaN-NaN-NaN (with its suffix and extension), the capture
    time written is NaN:NaN:NaN NaN:NaN:NaN, and the upload follows when
    the write succeeds. *)
Theorem invalid_timestamp_is_not_rejected (w : Eff.world)
    (tgt entry tmp ts : string) (existing : gset string) (h : Eff.history)
    (fileTags : Eff.tags) :
  Calendar.parseInt10 ts = None \/
  (exists T, Calendar.parseInt10 ts = Some T /\ (8640000000000 < Z.abs T)%Z) ->
  Eff.exif_read w h tmp = Some fileTags ->
  exists sfx okw rest,
    snd (Renamer.rename_and_send false w tgt entry tmp ts existing h) =
      (h ++ [Eff.EExifRead tmp true;
             Eff.ELog ("- Processing: " +:+ entry +:+ " -> " +:+
                       "NaN-NaN-NaN_NaN-NaN-NaN" +:+ sfx);
             Eff.EExifWrite tmp "NaN:NaN:NaN NaN:NaN:NaN" okw] ++ rest)%list /\
    (okw = true ->
     exists oks rest',
       rest = Eff.ESendFile tmp
                (JS.remote_join tgt ("NaN-NaN-NaN_NaN-NaN-NaN" +:+ sfx)) oks
              :: rest').
Proof.
  intros Hts Hread.
  assert (Calendar.takenDate ts = None) as Hdate.
  { unfold Calendar.takenDate, Calendar.newDate.
    destruct Hts as [->|(T & -> & HT)]; [done|]. simpl.
    destruct (Z.abs (1000 * T) <=? Calendar.maxTime)%Z eqn:Hle; [|done].
    apply Z.leb_le in Hle. unfold Calendar.maxTime in Hle. lia. }
  destruct (rename_and_send_run w tgt entry tmp ts existing h fileTags Hread)
    as (n & Hn & _ & Hrun).
  apply free_name_extension in Hn as [sfx Hn].
  unfold Renamer.finalNewBaseName in Hn. rewrite Hdate in Hn.
  change (Calendar.formatDate (Eff.localOffset w) None)
    with "NaN-NaN-NaN_NaN-NaN-NaN" in Hn.
  rewrite string_app_assoc in Hn.
  set (sfx' := (if JS.includes _ _ then _ else _) +:+ _) in Hn.
  cbv zeta in Hrun. rewrite Hdate in Hrun.
  change (Calendar.formatExifDate (Eff.localOffset w) None)
    with "NaN:NaN:NaN NaN:NaN:NaN" in Hrun.
  rewrite Hrun, Hn. clear Hrun. exists sfx'.
  set (h1 := (h ++ _)%list).
  exists (Eff.exif_write w h1 tmp "NaN:NaN:NaN NaN:NaN:NaN").
  destruct (Eff.exif_write w h1 tmp "NaN:NaN:NaN NaN:NaN:NaN").
  - set (h2 := (h1 ++ _)%list).
    destruct (Eff.smb_sendFile w h2 tmp _) eqn:Hs; eexists; (split;
      [subst h2 h1; cbn [snd]; rewrite <- !app_assoc; simpl; reflexivity|]);
      intros _; eauto.
  - exists []. split; [|done].
    subst h1. cbn [snd]. by rewrite <- !app_assoc.
Qed.

(** ** The renamer: sidecars without a time *)

Section Undated.
Import JS Listing Eff Trace Renamer.
Variable w : world.


End Undated.


(** ** Names that contain the directory marker *)

Section Marker.
Import JS Listing Renamer.

Lemma startsWith_app s r p :
  startsWith s p = true -> startsWith (s +:+ r) p = true.
Proof.
  revert s. induction p as [|b p IH]; intros [|a s]; simpl; try done.
  destruct (Ascii.eqb a b); [apply IH|done].
Qed.

Lemma includes_cons a s p : includes s p = true -> includes (String a s) p = true.
Proof. intros H. simpl. rewrite H. apply orb_true_r. Qed.

Lemma includes_app_l s r p : includes s p = true -> includes (s +:+ r) p = true.
Proof.
  induction s as [|a s IH].
  - destruct p; [|done]. intros _. by destruct r.
  - rewrite app_cons. simpl.
    intros [H|H]%orb_true_iff.
    + apply (startsWith_app (String a s) r) in H. rewrite app_cons in H.
      simpl in H. by rewrite H.
    + rewrite (IH H). apply orb_true_r.
Qed.

Lemma includes_trimStart s p :
  includes (trimStart s) p = true -> includes s p = true.
Proof.
  induction s as [|a s IH]; [done|].
  cbn [trimStart]. destruct (is_ws a); [|done].
  intros H. by apply includes_cons, IH.
Qed.

Lemma trimEnd_prefix s : exists r, s = trimEnd s +:+ r.
Proof.
  induction s as [|a s [r IH]]; [by exists ""|].
  cbn [trimEnd]. destruct (trimEnd s) as [|b u] eqn:E.
  - destruct (is_ws a); [by exists (String a s)|].
    exists s. done.
  - exists r. rewrite app_cons. by rewrite <- IH.
Qed.

Lemma includes_entryName line p :
  includes (entryName line) p = true -> includes line p = true.
Proof.
  unfold entryName, trim. intros H.
  destruct (first_token_split (trimEnd (trimStart line))) as (rest & Heq & _).
  apply (includes_app_l _ rest) in H. rewrite <- Heq in H.
  destruct (trimEnd_prefix (trimStart line)) as [r Hr].
  apply (includes_app_l _ r) in H. rewrite <- Hr in H.
  by apply includes_trimStart.
Qed.
End Marker.


Section MarkerAborts.
Import JS Listing Eff Renamer.
Variable dry : bool.
Variable w : world.

Lemma marker_subdir_line line :
  includes (entryName line) " D " = true -> subdir_line line = true.
Proof.
  intros Hin. pose proof (includes_entryName line " D " Hin) as Hd.
  unfold subdir_line, isDirectory. rewrite Hd. simpl.
  apply negb_true_iff. unfold is_dot_entry.
  apply orb_false_iff. rewrite !String.eqb_neq.
  split; intros Heq; rewrite Heq in Hin; discriminate.
Qed.

(** The events of a directory that cannot be listed: two log lines, the
    look at the target, and the failed listing; no error is logged. *)
Lemma processDirectory_unlistable_run fuel s t h :
  (forall h', smb_dir w h' (remote_join s "*") = None) ->
  exists ti,
    processDirectory dry w (S fuel) s t h =
      (Throw, (h ++ [ELog (nl +:+ "Processing source: " +:+ s);
                     ELog ("Writing to target: " +:+ t)] ++ ti ++
                    [EDir (remote_join s "*") None])%list) /\
    Forall (fun e => match e with
                     | EDir p _ => p = remote_join t "*"
                     | EMkdir p _ => p = t
                     | ELog _ => True
                     | _ => False
                     end) ti.
Proof.
  intros Hdir. simpl. rewrite !bind_log. unfold bind at 1.
  set (h0 := snoc (snoc h _) _).
  assert (exists known ti,
            init_target dry w t h0 = (Ok known, (h0 ++ ti)%list) /\
            Forall (fun e => match e with
                             | EDir p _ => p = remote_join t "*"
                             | EMkdir p _ => p = t
                             | ELog _ => True
                             | _ => False
                             end) ti) as (known & ti & Hinit & Hti).
  { unfold init_target, try_catch, bind at 1, dir.
    destruct (smb_dir w h0 (remote_join t "*")) as [r|].
    - eexists _, [_]. unfold ret, snoc. split; [done|]. by repeat constructor.
    - rewrite bind_log. destruct dry; simpl.
      + eexists _, [_; _]. unfold bind, ret, snoc. rewrite <- app_assoc.
        split; [done|]. by repeat constructor.
      + unfold try_catch, mkdir, call, bind, ret, snoc.
        destruct (smb_mkdir w _ t); eexists _, [_; _; _];
          rewrite <- !app_assoc; (split; [done|]); by repeat constructor. }
  rewrite Hinit. unfold bind, dir. rewrite Hdir. exists ti.
  split; [|done]. subst h0. unfold snoc. by rewrite <- !app_assoc.
Qed.
End MarkerAborts.

(** C7, where the code departs from it: whether an entry is a directory
    is read from the whole line, and the recursive call sits outside the
    [try] of the loop.  A file whose name contains the text [ D ] is
    therefore entered as a directory; as it cannot be listed, the error
    escapes: nothing is staged, no error is logged for the entry, and the
    loop ends there, on the failed listing, whatever entries follow.  On
    a directory that lists [a.jpg], [Plan D final.jpg] and [b.jpg], the
    run ends by that error after [a.jpg] alone was fetched and
    uploaded. *)
Theorem C7_marker_in_name_aborts_batch :
  (forall (dry : bool) (w : Eff.world) (fuel : nat) (src tgt : string)
      (fileNames : list string) (skip : gset string)
      (before : list string) (line : string) (after : list string)
      (existing : gset string) (h : Eff.history),
     JS.includes (Listing.entryName line) " D " = true ->
     forallb (fun l => negb (Renamer.subdir_line l)) before = true ->
     (forall h', Eff.smb_dir w h'
                   (JS.remote_join (JS.remote_join src (Listing.entryName line)) "*")
                 = None) ->
     let body := Renamer.process_entry dry w
                   (Renamer.processDirectory dry w (S fuel))
                   src tgt fileNames skip in
     let sub := JS.remote_join src (Listing.entryName line) in
     exists s1 h1 t,
       Eff.for_each_st before body existing h = (Eff.Ok s1, h1) /\
       Eff.for_each_st (before ++ line :: after) body existing h
       = (Eff.Throw, (h1 ++ t ++ [Eff.EDir (JS.remote_join sub "*") None])%list) /\
       Forall (fun e => match e with
                        | Eff.EDir _ _ | Eff.EMkdir _ _ | Eff.ELog _ => True
                        | _ => False
                        end) t) /\
  (let r := Renamer.processDirectory false Cases.marker_share 2 "src" "tgt" [] in
   fst r = Eff.Throw /\
   Eff.uploads (snd r) = [("/tmp/a.jpg", "tgt/a.jpg")] /\
   List.filter (fun e => match e with
                         | Eff.EGetFile _ _ _ | Eff.EError _ => true
                         | _ => false
                         end) (snd r)
   = [Eff.EGetFile "src/a.jpg" "/tmp/a.jpg" true] /\
   last (snd r) = Some (Eff.EDir "src/Plan D final.jpg/*" None)).
Proof.
  split; [|vm_compute; done].
  intros dry w fuel src tgt fileNames skip before line after existing h
    Hin Hbefore Hdir body sub.
  destruct (loop_ok dry w (Renamer.processDirectory dry w (S fuel)) src tgt
              fileNames skip before existing h Hbefore) as (s1 & h1 & H1).
  fold body in H1.
  destruct (processDirectory_unlistable_run dry w fuel sub
              (JS.remote_join tgt (Listing.entryName line)) h1 Hdir)
    as (ti & Hrun & Hti).
  exists s1, h1, (Eff.ELog (Eff.nl +:+ "Processing source: " +:+ sub)
                  :: Eff.ELog ("Writing to target: " +:+
                               JS.remote_join tgt (Listing.entryName line))
                  :: ti).
  split; [done|]. split.
  - rewrite for_each_st_app, H1. cbn [Eff.for_each_st]. unfold Eff.bind at 1.
    apply marker_subdir_line in Hin.
    apply andb_true_iff in Hin as [Hd Hn%negb_true_iff].
    unfold body, Renamer.process_entry. rewrite Hd, Hn. fold sub.
    unfold Eff.bind at 1. rewrite Hrun. done.
  - repeat constructor. eapply Forall_impl; [exact Hti|].
    intros e He. by destruct e.
Qed.

(** ** The theorems at concrete inputs *)

Lemma C2_witness :
  (exists ok,
     In (Eff.EMkdir Mover.REMOTE_TARGET_PATH ok)
        (snd (Mover.reorganizeOnSmb true Examples.photo_share 1 [])) /\
     Eff.mutating (Eff.EMkdir Mover.REMOTE_TARGET_PATH ok) = true) /\
  (forall s t h,
     Eff.smb_dir Examples.photo_share h (JS.remote_join s "*") <> None ->
     exists ok, In (Eff.EMkdir t ok)
                   (snd (Mover.mergeDirectoryContents true Examples.photo_share
                           2 s t h))) /\
  (forall s t, Eff.emits (fun e => Eff.mutating e = false)
                 (Renamer.processDirectory true Examples.photo_share 1 s t)).
Proof. exact (C2_dry_run_still_creates_directories Examples.photo_share 1). Defined.

Lemma C5_witness :
  let w := Cases.two_sidecars in
  let fileNames := ["IMG_1.jpg"; "IMG_1.jpg(1).json"; "IMG_1.jpg.json"] in
  let tmpJson := JS.path_join (Eff.tmpdir w) "IMG_1.jpg(1).json" in
  let h1 := ([] ++ [Eff.EGetFile "src/IMG_1.jpg" "/tmp/IMG_1.jpg" true])%list in
  let h2 := (h1 ++ [Eff.EGetFile (JS.remote_join "src" "IMG_1.jpg(1).json")
                      tmpJson true])%list in
  let h3 := (h2 ++ [Eff.EReadFile tmpJson
                      (Some (Cases.sidecar_text "951782400"))])%list in
  let h4 := (h3 ++ [Eff.EUnlink tmpJson true])%list in
  let f := Calendar.local_fields (Eff.localOffset w) (1000 * 951782400)%Z in
  let base := Calendar.stamp "-" "_" "-" f in
  let exif := Calendar.stamp ":" " " ":" f in
  Calendar.fields_in_range f /\
  Calendar.fields_denote f (Calendar.localTime (Eff.localOffset w) (1000 * 951782400)%Z) /\
  exists sfx okw rest,
    snd (Renamer.process_file false w "src" "tgt" fileNames "IMG_1.jpg"
           "src/IMG_1.jpg" "/tmp/IMG_1.jpg" ∅ []) =
      (h4 ++ [Eff.EExifRead "/tmp/IMG_1.jpg" true;
              Eff.ELog ("- Processing: " +:+ "IMG_1.jpg" +:+ " -> " +:+ base +:+ sfx);
              Eff.EExifWrite "/tmp/IMG_1.jpg" exif okw] ++ rest)%list /\
    (okw = true ->
     exists oks rest',
       rest = Eff.ESendFile "/tmp/IMG_1.jpg" (JS.remote_join "tgt" (base +:+ sfx)) oks
              :: rest').
Proof.
  apply (proj1 C5_name_from_first_matching_sidecar Cases.two_sidecars "src" "tgt"
           ["IMG_1.jpg"; "IMG_1.jpg(1).json"; "IMG_1.jpg.json"]
           "IMG_1.jpg" "IMG_1.jpg(1).json" "src/IMG_1.jpg" "/tmp/IMG_1.jpg"
           (Cases.sidecar_text "951782400") "951782400" ∅ []
           (Eff.mkTags (Some "jpg"))
           (Eff.mkMeta (Some (Eff.mkTime (Some "951782400"))) None) 951782400%Z).
  - reflexivity.
  - reflexivity.
  - reflexivity.
  - reflexivity.
  - reflexivity.
  - reflexivity.
  - reflexivity.
  - discriminate.
  - reflexivity.
  - lia.
  - reflexivity.
Defined.

Lemma C6_witness :
  let ext := JS.toLowerCase "JPG" in
  exists stem okw rest,
    snd (Renamer.rename_and_send false Examples.mislabeled_share "tgt" "a.png"
           "/tmp/a.png" "1609459200" ∅ []) =
      ([] ++ [Eff.EExifRead "/tmp/a.png" true;
              Eff.ELog ("- Processing: " +:+ "a.png" +:+ " -> " +:+
                        stem +:+ "." +:+ ext);
              Eff.EExifWrite "/tmp/a.png"
                (Calendar.formatExifDate (fun _ => 0%Z)
                   (Calendar.takenDate "1609459200"))
                okw] ++ rest)%list /\
    (okw = true ->
     exists oks rest',
       rest = Eff.ESendFile "/tmp/a.png"
                (JS.remote_join "tgt" (stem +:+ "." +:+ ext)) oks
              :: rest').
Proof.
  apply (C6_extension_source Examples.mislabeled_share "tgt" "a.png" "/tmp/a.png"
           "1609459200" ∅ [] (Eff.mkTags (Some "JPG"))).
  reflexivity.
Defined.

Lemma C7_witness :
  let w := Cases.marker_share in
  let before := [Examples.listing_line "a.jpg" "A"] in
  let line := Examples.listing_line "Plan D final.jpg" "A" in
  let after := [Examples.listing_line "b.jpg" "A"] in
  let body := Renamer.process_entry false w (Renamer.processDirectory false w 1)
                "src" "tgt" ["a.jpg"; "Plan D final.jpg"; "b.jpg"] ∅ in
  let sub := JS.remote_join "src" (Listing.entryName line) in
  exists s1 h1 t,
    Eff.for_each_st before body ∅ [] = (Eff.Ok s1, h1) /\
    Eff.for_each_st (before ++ line :: after) body ∅ []
    = (Eff.Throw, (h1 ++ t ++ [Eff.EDir (JS.remote_join sub "*") None])%list) /\
    Forall (fun e => match e with
                     | Eff.EDir _ _ | Eff.EMkdir _ _ | Eff.ELog _ => True
                     | _ => False
                     end) t.
Proof.
  apply (proj1 C7_marker_in_name_aborts_batch false Cases.marker_share 0
           "src" "tgt" ["a.jpg"; "Plan D final.jpg"; "b.jpg"] ∅
           [Examples.listing_line "a.jpg" "A"]
           (Examples.listing_line "Plan D final.jpg" "A")
           [Examples.listing_line "b.jpg" "A"] ∅ []).
  - vm_compute. reflexivity.
  - vm_compute. reflexivity.
  - intros h'. vm_compute. reflexivity.
Defined.

Lemma C9_witness :
  let run := Mover.mergeDirectoryContents false
               (Share.share_world Examples.takeout_share) 3
               (JS.join_slash Examples.takeout) (JS.join_slash Examples.merged) in
  let σ1 := Share.state_of Examples.takeout_share (snd (run [])) in
  σ1 !! (Examples.takeout ++ [".hidden"])%list
  = Examples.takeout_share !! (Examples.takeout ++ [".hidden"])%list /\
  σ1 !! (Examples.merged ++ [".hidden"])%list
  = Examples.takeout_share !! (Examples.merged ++ [".hidden"])%list.
Proof.
  destruct (C9_dot_entries_excluded "" false
              (Share.share_world Examples.takeout_share) 3 "" "")
    as (_ & _ & _ & H).
  apply (H Examples.takeout_share Examples.takeout Examples.merged [".hidden"]).
  - vm_compute. reflexivity.
  - vm_compute. reflexivity.
  - constructor. reflexivity.
Defined.

Lemma C8_witness :
  let run := Mover.mergeDirectoryContents false
               (Share.share_world Examples.takeout_share) 3
               (JS.join_slash Examples.takeout) (JS.join_slash Examples.merged) in
  exists t2,
    run (snd (run [])) = (Eff.Ok tt, (snd (run []) ++ t2)%list) /\
    Forall Share.refused t2 /\
    Share.state_of Examples.takeout_share (snd (run []) ++ t2)%list
    = Share.state_of Examples.takeout_share (snd (run [])).
Proof.
  apply (C8_second_run_changes_nothing Examples.takeout_share
           Examples.takeout Examples.merged 3).
  - vm_compute. reflexivity.
  - vm_compute. reflexivity.
Defined.

Lemma merge_completes_witness :
  fst (Mover.mergeDirectoryContents false
         (Share.share_world Examples.takeout_share) 3
         (JS.join_slash Examples.takeout) (JS.join_slash Examples.merged) [])
  = Eff.Ok tt.
Proof.
  apply (merge_completes Examples.takeout_share Examples.takeout
           Examples.merged 3).
  - vm_compute. reflexivity.
  - vm_compute. reflexivity.
Defined.

Lemma merge_overwrites_nothing_witness :
  let σ0 := Examples.takeout_share in
  let S := Examples.takeout in
  let T := Examples.merged in
  let run := Mover.mergeDirectoryContents false (Share.share_world σ0) 3
               (JS.join_slash S) (JS.join_slash T) in
  let σ1 := Share.state_of σ0 (snd (run [])) in
  (forall q k, T `prefix_of` q -> σ0 !! q = Some k -> σ1 !! q = Some k) /\
  (forall q k, S `prefix_of` q -> σ1 !! q = Some k -> σ0 !! q = Some k) /\
  (forall q, σ0 !! q = Some Share.Dir -> σ1 !! q = Some Share.Dir) /\
  (forall q, ~ S `prefix_of` q -> ~ T `prefix_of` q -> σ1 !! q = σ0 !! q).
Proof.
  apply (merge_overwrites_nothing Examples.takeout_share Examples.takeout
           Examples.merged 3).
  - vm_compute. reflexivity.
  - vm_compute. reflexivity.
Defined.

Lemma merge_loses_no_file_witness :
  Conserve.relocated Examples.takeout Examples.merged Examples.takeout_share
    (Share.state_of Examples.takeout_share
       (snd (Mover.mergeDirectoryContents false
               (Share.share_world Examples.takeout_share) 3
               (JS.join_slash Examples.takeout) (JS.join_slash Examples.merged)
               []))).
Proof.
  apply (merge_loses_no_file Examples.takeout_share Examples.takeout
           Examples.merged 3).
  - vm_compute. reflexivity.
  - vm_compute. reflexivity.
Defined.

Lemma merge_leaves_only_blocked_witness :
  let σ1 := Share.state_of Examples.takeout_share
              (snd (Mover.mergeDirectoryContents false
                      (Share.share_world Examples.takeout_share) 3
                      (JS.join_slash Examples.takeout)
                      (JS.join_slash Examples.merged) [])) in
  σ1 !! (Examples.merged ++ [] ++ ["a.jpg"])%list <> None \/
  Share.is_dir σ1 (Examples.merged ++ [])%list = false.
Proof.
  apply (merge_leaves_only_blocked Examples.takeout_share Examples.takeout
           Examples.merged 3 [] "a.jpg").
  - vm_compute. reflexivity.
  - vm_compute. reflexivity.
  - vm_compute. reflexivity.
  - reflexivity.
  - vm_compute. reflexivity.
Defined.


Lemma unlistable_subdirectory_aborts_witness :
  let w := Examples.photo_share in
  let before := [Examples.listing_line "a.jpg" "A"] in
  let line := Examples.listing_line "sub" "D" in
  let after := [Examples.listing_line "b.jpg" "A"] in
  let body := Renamer.process_entry false w (Renamer.processDirectory false w 1)
                "src" "tgt" ["a.jpg"; "sub"; "b.jpg"] ∅ in
  exists h',
    Eff.for_each_st (before ++ line :: after) body ∅ [] = (Eff.Throw, h') /\
    Eff.for_each_st (before ++ [line]) body ∅ [] = (Eff.Throw, h').
Proof.
  apply (unlistable_subdirectory_aborts false Examples.photo_share 0 "src" "tgt"
           ["a.jpg"; "sub"; "b.jpg"] ∅
           [Examples.listing_line "a.jpg" "A"] (Examples.listing_line "sub" "D")
           [Examples.listing_line "b.jpg" "A"] ∅ []).
  - vm_compute. reflexivity.
  - vm_compute. reflexivity.
  - intros h'. vm_compute. reflexivity.
Defined.

Lemma original_of_edited_is_skipped_witness :
  let lines := [Examples.listing_line "IMG_0001.jpg" "A";
                Examples.listing_line "IMG_0001-EDITED.jpg" "A"] in
  let line := Examples.listing_line "IMG_0001.jpg" "A" in
  let fileNames := Renamer.uniq (List.map Listing.entryName lines) in
  Renamer.process_entry false Examples.photo_share (fun _ _ => Eff.ret tt)
    "src" "tgt" fileNames (Renamer.originalsToSkip fileNames) line ∅ []
  = (Eff.Ok ∅,
     ([] ++ [Eff.ELog ("- Skipping original with edited version: " +:+
                       Listing.entryName line)])%list).
Proof.
  apply (original_of_edited_is_skipped false Examples.photo_share
           (fun _ _ => Eff.ret tt) "src" "tgt"
           [Examples.listing_line "IMG_0001.jpg" "A";
            Examples.listing_line "IMG_0001-EDITED.jpg" "A"]
           (Examples.listing_line "IMG_0001-EDITED.jpg" "A")
           (Examples.listing_line "IMG_0001.jpg" "A") ∅ []).
  - simpl. auto.
  - vm_compute. reflexivity.
  - vm_compute. reflexivity.
  - vm_compute. reflexivity.
Defined.

Lemma invalid_timestamp_is_not_rejected_witness :
  exists sfx okw rest,
    snd (Renamer.rename_and_send false Examples.photo_share "tgt" "a.jpg"
           "/tmp/a.jpg" "soon" ∅ []) =
      ([] ++ [Eff.EExifRead "/tmp/a.jpg" true;
              Eff.ELog ("- Processing: " +:+ "a.jpg" +:+ " -> " +:+
                        "NaN-NaN-NaN_NaN-NaN-NaN" +:+ sfx);
              Eff.EExifWrite "/tmp/a.jpg" "NaN:NaN:NaN NaN:NaN:NaN" okw]
          ++ rest)%list /\
    (okw = true ->
     exists oks rest',
       rest = Eff.ESendFile "/tmp/a.jpg"
                (JS.remote_join "tgt" ("NaN-NaN-NaN_NaN-NaN-NaN" +:+ sfx)) oks
              :: rest').
Proof.
  apply (invalid_timestamp_is_not_rejected Examples.photo_share "tgt" "a.jpg"
           "/tmp/a.jpg" "soon" ∅ [] (Eff.mkTags (Some "jpg"))).
  - left. reflexivity.
  - reflexivity.
Defined.


